(** * Martini: RTIN terrain meshing (src/index.js)

    A shallow embedding of the [Martini] grid constructor, of the [Tile]
    error sweep ([update]) and of the two-pass mesh extraction ([getMesh]),
    with the properties of the specification proved about them.

    Modelling conventions.
    - JavaScript numbers that hold integers are [Z].  The conversions the
      source performs are written out: the operands of [>>] and [&] go
      through [toInt32], a store into a [Uint16Array] wraps with
      [toUint16], a store into a [Uint32Array] wraps with [toUint32].
    - Terrain heights and error values are JavaScript floats in the
      source; they are modelled as exact rationals [Q].  The rounding of
      the [Float32Array] store and non-finite values are outside the model.
    - A typed array is a [list]; reads and writes go through [get] and
      [set].  An access outside a typed array does not throw in
      JavaScript (a read yields [undefined], a write is dropped); the
      embedding stops with [OutOfBounds] at such an access, so that the
      absence of out-of-range accesses is a property of the result.
    - The recursion of [countElements] and [processTriangle] is not
      structural; it takes a fuel argument and stops with [OutOfFuel]
      when the fuel is used up.
    - The table [coords] is a [Uint16Array]: a coordinate is stored
      unchanged only below [2 ^ 16].  The properties of grids and tiles
      are stated for tile sizes [gridSize - 1 < 2 ^ 16], the sizes whose
      coordinates the table can hold (the largest is [2 ^ 15]); the
      triangle ids of such a grid also fit the 32-bit operands of [>>]
      and [&]. *)

From Stdlib Require Import ZArith QArith Qabs Qminmax Lia Lqa Bool.
From stdpp Require Import base list.
From Equations Require Import Equations.

Local Open Scope Z_scope.

(** ** Outcomes of a run *)

Inductive failure : Type :=
| InvalidGridSize (gridSize : Z)
| TerrainSizeMismatch (expected actual : Z)
| RangeError (len : Z)
| OutOfBounds
| OutOfFuel.

Inductive outcome (A : Type) : Type :=
| Done (a : A)
| Fail (f : failure).

Arguments Done {A} a.
Arguments Fail {A} f.

Definition bind {A B : Type} (c : outcome A) (k : A -> outcome B) : outcome B :=
  match c with
  | Done a => k a
  | Fail f => Fail f
  end.

Notation "'let*' x := c 'in' k" := (bind c (fun x => k))
  (at level 10, x name, c at level 100, k at level 200).

(** a loop over the items [idxs], threading the loop state *)
Fixpoint forEach {I S : Type} (body : I -> S -> outcome S) (idxs : list I) (s : S)
  : outcome S :=
  match idxs with
  | [] => Done s
  | i :: rest => let* s' := body i s in forEach body rest s'
  end.

(** ** Number conversions of the source *)

Definition toInt32 (z : Z) : Z := (z + 2 ^ 31) mod 2 ^ 32 - 2 ^ 31.
Definition toUint32 (z : Z) : Z := z mod 2 ^ 32.
Definition toUint16 (z : Z) : Z := z mod 2 ^ 16.

(** [x >> n] and [x & y] *)
Definition sar (x n : Z) : Z := Z.shiftr (toInt32 x) n.
Definition band (x y : Z) : Z := Z.land (toInt32 x) (toInt32 y).

(** truthiness of a number *)
Definition truthy (z : Z) : bool := negb (z =? 0).

(** ** Typed arrays *)

(** [new TypedArray(len)]: zero filled; a length that is negative or above
    2^53 - 1 is a RangeError. *)
Definition newArray {A : Type} (zero : A) (len : Z) : outcome (list A) :=
  if (len <? 0) || (2 ^ 53 - 1 <? len) then Fail (RangeError len)
  else Done (replicate (Z.to_nat len) zero).

Definition get {A : Type} (arr : list A) (i : Z) : outcome A :=
  if i <? 0 then Fail OutOfBounds
  else match arr !! Z.to_nat i with
       | Some v => Done v
       | None => Fail OutOfBounds
       end.

Definition set {A : Type} (arr : list A) (i : Z) (v : A) : outcome (list A) :=
  if (0 <=? i) && (i <? Z.of_nat (length arr))
  then Done (<[Z.to_nat i := v]> arr)
  else Fail OutOfBounds.

Definition set16 (arr : list Z) (i v : Z) : outcome (list Z) :=
  set arr i (toUint16 v).
Definition set32 (arr : list Z) (i v : Z) : outcome (list Z) :=
  set arr i (toUint32 v).

(** ** class Martini *)

(** The six coordinates [ax ay bx by cx cy] of a triangle: [a] and [b] are
    the ends of the long edge, [c] is the right-angle corner. *)
Inductive tri : Type := Tri (ax ay bx by_ cx cy : Z).

Record Martini : Type := mkMartini {
  gridSize : Z;
  numTriangles : Z;
  numParentTriangles : Z;
  indices : list Z;
  coords : list Z
}.

(** lines 20-25: the root triangle an id starts from *)
Definition rootTriangle (tileSize id : Z) : tri :=
  if truthy (band id 1)
  then Tri 0 0 tileSize tileSize tileSize 0      (* bottom-left triangle *)
  else Tri tileSize tileSize 0 0 0 tileSize.     (* top-right triangle *)

(** lines 27-37: the body of the [while] loop *)
Definition descendStep (id : Z) (t : tri) : tri :=
  let '(Tri ax ay bx by_ cx cy) := t in
  let mx := sar (ax + bx) 1 in
  let my := sar (ay + by_) 1 in
  if truthy (band id 1)
  then Tri cx cy ax ay mx my                     (* left half *)
  else Tri bx by_ cx cy mx my.                   (* right half *)

(** line 26: [while ((id >>= 1) > 1) { ... }] *)
Equations descend (id : Z) (t : tri) : tri by wf (Z.to_nat (toInt32 id)) lt :=
  descend id t with Z_lt_dec 1 (sar id 1) := {
    | left _ => descend (sar id 1) (descendStep (sar id 1) t)
    | right _ => t }.
Next Obligation.
  unfold sar in *. rewrite Z.shiftr_div_pow2 in * by lia. change (2 ^ 1) with 2 in *.
  unfold toInt32 in *.
  pose proof (Z.mod_pos_bound (id + 2 ^ 31) (2 ^ 32) eq_refl).
  set (w := (id + 2 ^ 31) mod 2 ^ 32) in *.
  assert (0 <= (w - 2 ^ 31) / 2 < 2 ^ 30) by (Z.div_mod_to_equations; lia).
  rewrite (Z.mod_small ((w - 2 ^ 31) / 2 + 2 ^ 31)) by lia.
  Z.div_mod_to_equations. lia.
Qed.

(** lines 19-38: the triangle of table position [i] *)
Definition triangleOf (tileSize i : Z) : tri :=
  let id := i + 2 in
  descend id (rootTriangle tileSize id).

(** lines 39-43 *)
Definition storeTriangle (tileSize i : Z) (coords : list Z) : outcome (list Z) :=
  let '(Tri ax ay bx by_ _ _) := triangleOf tileSize i in
  let k := i * 4 in
  let* coords := set16 coords (k + 0) ax in
  let* coords := set16 coords (k + 1) ay in
  let* coords := set16 coords (k + 2) bx in
  set16 coords (k + 3) by_.

(** lines 3-45: [new Martini(gridSize)] *)
Definition Martini_new (gridSize : Z) : outcome Martini :=
  let tileSize := gridSize - 1 in
  if truthy (band tileSize (tileSize - 1)) then Fail (InvalidGridSize gridSize)
  else
    let numTriangles := tileSize * tileSize * 2 - 2 in
    let numParentTriangles := numTriangles - tileSize * tileSize in
    let* indices := newArray 0 (gridSize * gridSize) in
    let* coords := newArray 0 (numTriangles * 4) in
    let* coords := forEach (storeTriangle tileSize) (seqZ 0 numTriangles) coords in
    Done (mkMartini gridSize numTriangles numParentTriangles indices coords).

(** ** class Tile *)

Record Tile : Type := mkTile {
  terrain : list Q;
  martini : Martini;
  errors : list Q
}.

(** [x > y] on numbers *)
Definition Qgtb (x y : Q) : bool := negb (Qle_bool x y).

(** lines 70-91: the body of the loop of [update] *)
Definition updateStep (m : Martini) (terrain : list Q) (i : Z) (errors : list Q)
  : outcome (list Q) :=
  let size := gridSize m in
  let k := i * 4 in
  let* ax := get (coords m) (k + 0) in
  let* ay := get (coords m) (k + 1) in
  let* bx := get (coords m) (k + 2) in
  let* by_ := get (coords m) (k + 3) in
  let mx := sar (ax + bx) 1 in
  let my := sar (ay + by_) 1 in
  let cx := mx + my - ay in
  let cy := my + ax - mx in
  let* ta := get terrain (ay * size + ax) in
  let* tb := get terrain (by_ * size + bx) in
  let interpolatedHeight := ((ta + tb) / 2)%Q in
  let middleIndex := my * size + mx in
  let* tm := get terrain middleIndex in
  let middleError := Qabs (interpolatedHeight - tm) in
  let* em := get errors middleIndex in
  let* errors := set errors middleIndex (Qmax em middleError) in
  if i <? numParentTriangles m then
    let leftChildIndex := sar (ay + cy) 1 * size + sar (ax + cx) 1 in
    let rightChildIndex := sar (by_ + cy) 1 * size + sar (bx + cx) 1 in
    let* em := get errors middleIndex in
    let* el := get errors leftChildIndex in
    let* er := get errors rightChildIndex in
    set errors middleIndex (Qmax (Qmax em el) er)
  else Done errors.

(** lines 64-93: [for (let i = numTriangles - 1; i >= 0; i--)] *)
Definition update (m : Martini) (terrain errors : list Q) : outcome (list Q) :=
  forEach (updateStep m terrain) (reverse (seqZ 0 (numTriangles m))) errors.

(** lines 53-62: [new Tile(terrain, martini)] *)
Definition Tile_new (terrain : list Q) (m : Martini) : outcome Tile :=
  let size := gridSize m in
  let len := Z.of_nat (length terrain) in
  if negb (len =? size * size) then Fail (TerrainSizeMismatch (size * size) len)
  else
    let* errors := newArray 0%Q len in
    let* errors := update m terrain errors in
    Done (mkTile terrain m errors).

(** lines 47-49 *)
Definition createTile (m : Martini) (terrain : list Q) : outcome Tile :=
  Tile_new terrain m.

(** ** Tile.getMesh *)

Record Mesh : Type := mkMesh {
  vertices : list Z;
  triangles : list Z
}.

(** the variables [indices], [numVertices], [numTriangles] that
    [countElements] updates *)
Record counts : Type := mkCounts {
  cnt_indices : list Z;
  cnt_numVertices : Z;
  cnt_numTriangles : Z
}.

(** the variables [vertices], [triangles], [triIndex] that
    [processTriangle] updates *)
Record buffers : Type := mkBuffers {
  buf_vertices : list Z;
  buf_triangles : list Z;
  buf_triIndex : Z
}.

Section Extraction.
(** what the two closures of [getMesh] capture and only read *)
Variable size : Z.
Variable errors : list Q.
Variable maxError : Q.
Variable maxScale : Q.

(** lines 114-118 and 136-140: the test that sends the recursion down *)
Definition drillDown (t : tri) : outcome bool :=
  let '(Tri ax ay bx by_ cx cy) := t in
  let mx := sar (ax + bx) 1 in
  let my := sar (ay + by_) 1 in
  let legLength := Z.abs (ax - cx) + Z.abs (ay - cy) in
  let* rough :=
    if 1 <? legLength
    then let* e := get errors (my * size + mx) in Done (Qgtb e maxError)
    else Done false in
  Done (rough || Qgtb (inject_Z legLength) maxScale).

(** the two triangles of lines 119-120 and 142-143 *)
Definition firstHalf (t : tri) : tri :=
  let '(Tri ax ay bx by_ cx cy) := t in
  Tri cx cy ax ay (sar (ax + bx) 1) (sar (ay + by_) 1).
Definition secondHalf (t : tri) : tri :=
  let '(Tri ax ay bx by_ cx cy) := t in
  Tri bx by_ cx cy (sar (ax + bx) 1) (sar (ay + by_) 1).

(** [indices[i] = indices[i] || ++numVertices] for the vertex [(x, y)] *)
Definition useVertex (x y : Z) (st : counts) : outcome counts :=
  let i := y * size + x in
  let* v := get (cnt_indices st) i in
  if truthy v then
    let* ind := set32 (cnt_indices st) i v in
    Done (mkCounts ind (cnt_numVertices st) (cnt_numTriangles st))
  else
    let numVertices := cnt_numVertices st + 1 in
    let* ind := set32 (cnt_indices st) i numVertices in
    Done (mkCounts ind numVertices (cnt_numTriangles st)).

(** lines 122-125 *)
Definition countLeaf (t : tri) (st : counts) : outcome counts :=
  let '(Tri ax ay bx by_ cx cy) := t in
  let* st := useVertex ax ay st in
  let* st := useVertex bx by_ st in
  let* st := useVertex cx cy st in
  Done (mkCounts (cnt_indices st) (cnt_numVertices st) (cnt_numTriangles st + 1)).

(** lines 113-127 *)
Fixpoint countElements (fuel : nat) (t : tri) (st : counts) : outcome counts :=
  match fuel with
  | O => Fail OutOfFuel
  | S fuel =>
      let* down := drillDown t in
      if down : bool then
        let* st := countElements fuel (firstHalf t) st in
        countElements fuel (secondHalf t) st
      else countLeaf t st
  end.

(** lines 147-162 *)
Definition fillLeaf (indices : list Z) (t : tri) (st : buffers) : outcome buffers :=
  let '(Tri ax ay bx by_ cx cy) := t in
  let* ia := get indices (ay * size + ax) in
  let a := ia - 1 in
  let* ib := get indices (by_ * size + bx) in
  let b := ib - 1 in
  let* ic := get indices (cy * size + cx) in
  let c := ic - 1 in
  let* vs := set16 (buf_vertices st) (2 * a) ax in
  let* vs := set16 vs (2 * a + 1) ay in
  let* vs := set16 vs (2 * b) bx in
  let* vs := set16 vs (2 * b + 1) by_ in
  let* vs := set16 vs (2 * c) cx in
  let* vs := set16 vs (2 * c + 1) cy in
  let triIndex := buf_triIndex st in
  let* ts := set32 (buf_triangles st) triIndex a in
  let* ts := set32 ts (triIndex + 1) b in
  let* ts := set32 ts (triIndex + 2) c in
  Done (mkBuffers vs ts (triIndex + 3)).

(** lines 135-164 *)
Fixpoint processTriangle (indices : list Z) (fuel : nat) (t : tri) (st : buffers)
  : outcome buffers :=
  match fuel with
  | O => Fail OutOfFuel
  | S fuel =>
      let* down := drillDown t in
      if down : bool then
        let* st := processTriangle indices fuel (firstHalf t) st in
        processTriangle indices fuel (secondHalf t) st
      else fillLeaf indices t st
  end.
End Extraction.

(** line 104: [maxLength || size] *)
Definition maxScaleOf (maxLength : option Q) (size : Z) : Q :=
  match maxLength with
  | Some l => if Qeq_bool l 0 then inject_Z size else l
  | None => inject_Z size
  end.

(** lines 95-169; the result carries the mesh and the scratch buffer
    [martini.indices] as the call leaves it *)
Definition getMeshRun (fuel : nat) (tile : Tile) (maxError : Q) (maxLength : option Q)
  : outcome (Mesh * list Z) :=
  let size := gridSize (martini tile) in
  let errors := errors tile in
  let max := size - 1 in
  let maxScale := maxScaleOf maxLength size in
  let indices := replicate (length (indices (martini tile))) 0 in
  let count := countElements size errors maxError maxScale fuel in
  let* st := count (Tri 0 0 max max max 0) (mkCounts indices 0 0) in
  let* st := count (Tri max max 0 0 0 max) st in
  let indices := cnt_indices st in
  let* vertices := newArray 0 (cnt_numVertices st * 2) in
  let* triangles := newArray 0 (cnt_numTriangles st * 3) in
  let process := processTriangle size errors maxError maxScale indices fuel in
  let* bs := process (Tri 0 0 max max max 0) (mkBuffers vertices triangles 0) in
  let* bs := process (Tri max max 0 0 0 max) bs in
  Done (mkMesh (buf_vertices bs) (buf_triangles bs), indices).

Definition getMesh (fuel : nat) (tile : Tile) (maxError : Q) (maxLength : option Q)
  : outcome Mesh :=
  let* r := getMeshRun fuel tile maxError maxLength in Done (fst r).

(** * Vocabulary of the properties *)

Definition point : Type := Z * Z.

Definition corners (t : tri) : list point :=
  let '(Tri ax ay bx by_ cx cy) := t in [(ax, ay); (bx, by_); (cx, cy)].

(** the middle of the long edge, as lines 27-28, 75-76, 114-115 compute it *)
Definition mid (t : tri) : point :=
  let '(Tri ax ay bx by_ cx cy) := t in (sar (ax + bx) 1, sar (ay + by_) 1).

(** the corner [c] as lines 77-78 rebuild it from [a] and [b] *)
Definition apex (ax ay bx by_ : Z) : point :=
  let mx := sar (ax + bx) 1 in
  let my := sar (ay + by_) 1 in
  (mx + my - ay, my + ax - mx).

Definition inGrid (T : Z) (p : point) : Prop :=
  0 <= fst p <= T /\ 0 <= snd p <= T.

Definition inTile (T : Z) (t : tri) : Prop :=
  let '(Tri ax ay bx by_ cx cy) := t in
  (0 <= ax <= T /\ 0 <= ay <= T) /\ (0 <= bx <= T /\ 0 <= by_ <= T) /\
  (0 <= cx <= T /\ 0 <= cy <= T).

(** the position of the pixel [(x, y)] in a [size * size] buffer *)
Definition pixel (size : Z) (p : point) : Z := snd p * size + fst p.

(** ** The two shapes of the triangles of the tree *)

Inductive dir : Type := East | North | West | South.

Definition dx (d : dir) : Z :=
  match d with East => 1 | West => -1 | _ => 0 end.
Definition dy (d : dir) : Z :=
  match d with North => 1 | South => -1 | _ => 0 end.
(** a quarter turn, [(x, y)] to [(-y, x)] *)
Definition turn (d : dir) : dir :=
  match d with East => North | North => West | West => South | South => East end.

(** legs of length [L] along the axes, the corner [c] on the lattice of
    step [L] *)
Definition legsOnAxes (L : Z) (t : tri) : Prop :=
  let '(Tri ax ay bx by_ cx cy) := t in
  exists (d : dir) (i j : Z),
    cx = L * i /\ cy = L * j /\
    ax = cx + L * dx d /\ ay = cy + L * dy d /\
    bx = cx - L * dx (turn d) /\ by_ = cy - L * dy (turn d).

(** long edge of length [2 * s] along an axis, the corner [c] at odd
    multiples of [s] *)
Definition hypOnAxis (s : Z) (t : tri) : Prop :=
  let '(Tri ax ay bx by_ cx cy) := t in
  exists (w : dir) (i j : Z),
    cx = s * (2 * i + 1) /\ cy = s * (2 * j + 1) /\
    ax = cx - s * dx (turn w) + s * dx w /\
    ay = cy - s * dy (turn w) + s * dy w /\
    bx = cx - s * dx (turn w) - s * dx w /\
    by_ = cy - s * dy (turn w) - s * dy w.

(** [legsOnAxes] with the direction [d] of the leg from [c] to [a] named *)
Definition legsAt (L : Z) (d : dir) (t : tri) : Prop :=
  let '(Tri ax ay bx by_ cx cy) := t in
  (exists i j : Z, cx = L * i /\ cy = L * j) /\
  ax = cx + L * dx d /\ ay = cy + L * dy d /\
  bx = cx - L * dx (turn d) /\ by_ = cy - L * dy (turn d).

(** the point [i] steps from [c] towards [a] and [j] steps towards [b] *)
Definition reach (d : dir) (t : tri) (i j : Z) : point :=
  let '(Tri _ _ _ _ cx cy) := t in
  (cx + i * dx d - j * dx (turn d), cy + i * dy d - j * dy (turn d)).

(** the four corners of the tile *)
Definition isCorner (T : Z) (p : point) : Prop :=
  (fst p = 0 \/ fst p = T) /\ (snd p = 0 \/ snd p = T).

(** the error field is above the threshold at every pixel of the grid that
    is not a corner of the tile *)
Definition roughEverywhere (T : Z) (errors : list Q) (maxError : Q) : Prop :=
  forall p, inGrid T p -> ~ isCorner T p ->
    exists e : Q, get errors (pixel (T + 1) p) = Done e /\ (maxError < e)%Q.

(** [shape k t]: [t] is [k] halvings above the unit triangles *)
Definition shape (k : nat) (t : tri) : Prop :=
  exists e : nat,
    (k = (2 * e)%nat /\ legsOnAxes (2 ^ Z.of_nat e) t) \/
    (k = (2 * e + 1)%nat /\ hypOnAxis (2 ^ Z.of_nat e) t).

(** where the middle of the long edge of a triangle of [shape k] lies *)
Definition midClass (k : nat) (p : point) : Prop :=
  exists (e : nat) (i j : Z),
    let s := 2 ^ Z.of_nat e in
    (k = (2 * e + 1)%nat /\
       ((fst p = s * (2 * i + 1) /\ snd p = s * (2 * j)) \/
        (fst p = s * (2 * i) /\ snd p = s * (2 * j + 1)))) \/
    (k = (2 * e + 2)%nat /\ fst p = s * (2 * i + 1) /\ snd p = s * (2 * j + 1)).

(** the length [legLength] of a triangle [k] halvings above the unit ones *)
Definition legOf (k : nat) : Z := 2 ^ Z.of_nat ((k + 1) / 2).

(** how many halvings above the unit triangles the triangle at table
    position [i] is, in a tile of size [2 ^ n] *)
Definition rankOf (n : nat) (i : Z) : nat := (2 * n + 1 - Z.to_nat (Z.log2 (i + 2)))%nat.

(** the table [coords] holds, for every position [i < N], the corners [a]
    and [b] of [triangleOf T i] *)
Definition tableOf (T N : Z) (coords : list Z) : Prop :=
  forall i, 0 <= i < N ->
    exists ax ay bx by_ cx cy,
      triangleOf T i = Tri ax ay bx by_ cx cy /\
      get coords (i * 4 + 0) = Done (toUint16 ax) /\
      get coords (i * 4 + 1) = Done (toUint16 ay) /\
      get coords (i * 4 + 2) = Done (toUint16 bx) /\
      get coords (i * 4 + 3) = Done (toUint16 by_).

(** what a [Martini] object holds for the tile size [2 ^ n] *)
Definition gridOf (n : nat) (m : Martini) : Prop :=
  let T := 2 ^ Z.of_nat n in
  gridSize m = T + 1 /\
  numTriangles m = T * T * 2 - 2 /\
  numParentTriangles m = T * T - 2 /\
  Z.of_nat (length (indices m)) = (T + 1) * (T + 1) /\
  tableOf T (T * T * 2 - 2) (coords m).

(** lines 70-78: the triangle [update] reads at table position [i] *)
Definition readTriangle (coords : list Z) (i : Z) : outcome tri :=
  let k := i * 4 in
  let* ax := get coords (k + 0) in
  let* ay := get coords (k + 1) in
  let* bx := get coords (k + 2) in
  let* by_ := get coords (k + 3) in
  let '(cx, cy) := apex ax ay bx by_ in
  Done (Tri ax ay bx by_ cx cy).

(** ** The traversal shared by the two passes *)

(** the triangles at which the recursion of lines 113-127 and 135-164
    stops, in the order it reaches them *)
Fixpoint leaves (size : Z) (errors : list Q) (maxError maxScale : Q)
  (fuel : nat) (t : tri) : outcome (list tri) :=
  match fuel with
  | O => Fail OutOfFuel
  | S fuel =>
      let* down := drillDown size errors maxError maxScale t in
      if down : bool then
        let* l1 := leaves size errors maxError maxScale fuel (firstHalf t) in
        let* l2 := leaves size errors maxError maxScale fuel (secondHalf t) in
        Done (l1 ++ l2)
      else Done [t]
  end.

(** the vertices in the order in which pass 1 meets them first *)
Definition addVertex (seen : list point) (v : point) : list point :=
  if decide (v ∈ seen) then seen else seen ++ [v].

Definition addCorners (seen : list point) (t : tri) : list point :=
  foldl addVertex seen (corners t).

Definition seenAfter (seen : list point) (ts : list tri) : list point :=
  foldl addCorners seen ts.

(** the place of a vertex in such a list *)
Fixpoint indexOf (v : point) (l : list point) : Z :=
  match l with
  | [] => 0
  | w :: l' => if decide (v = w) then 0 else 1 + indexOf v l'
  end.

(** the buffers that belong to a list of vertices and of leaf triangles *)
Definition coordsOf (seen : list point) : list Z :=
  flat_map (fun v : point => [fst v; snd v]) seen.

Definition trisOf (seen : list point) (ts : list tri) : list Z :=
  flat_map (fun t => map (fun v => indexOf v seen) (corners t)) ts.

Definition cornersOf (ts : list tri) : list point := flat_map corners ts.

(** the mesh that belongs to a list of leaf triangles *)
Definition meshOf (ts : list tri) : Mesh :=
  let seen := seenAfter [] ts in
  mkMesh (coordsOf seen) (trisOf seen ts).

(** the slots of the vertices [W] of [seen] hold their coordinates *)
Definition placed (seen W : list point) (vs : list Z) : Prop :=
  Z.of_nat (length vs) = 2 * Z.of_nat (length seen) /\
  forall q, q ∈ W ->
    q ∈ seen /\
    get vs (2 * indexOf q seen) = Done (fst q) /\
    get vs (2 * indexOf q seen + 1) = Done (snd q).

(** [(x, y)] is a vertex of the mesh *)
Definition meshVertex (mesh : Mesh) (v : point) : Prop :=
  exists k, 0 <= k /\
    get (vertices mesh) (2 * k) = Done (fst v) /\
    get (vertices mesh) (2 * k + 1) = Done (snd v).

(** the values of [maxLength] for which the recursion is shown to stop:
    absent, zero, or at least 1 *)
Definition lengthBound (maxLength : option Q) : Prop :=
  match maxLength with
  | None => True
  | Some l => (l == 0)%Q \/ (1 <= l)%Q
  end.

(** [indices] holds, for every pixel of the grid, the place of the pixel
    in [seen] plus one, and 0 for a pixel that is not in [seen] *)
Definition indexed (T : Z) (seen : list point) (ind : list Z) : Prop :=
  Z.of_nat (length ind) = (T + 1) * (T + 1) /\
  NoDup seen /\ Forall (inGrid T) seen /\
  forall p, inGrid T p ->
    get ind (pixel (T + 1) p) =
    Done (if decide (p ∈ seen) then indexOf p seen + 1 else 0).

(** what claim C1 says of a call [getMesh(maxError, maxLength)] on a tile
    of the grid [m] of size [g]: there is one list [L] of leaf triangles
    such that, with enough fuel,
    - pass 1 is the loop of [countLeaf] over [L], and leaves the index
      grid [ind] and the counts [nv], [nt];
    - pass 2 is the loop of [fillLeaf] over the same [L], started on
      buffers of [2 * nv] and [3 * nt] zeros, and ends with
      [triIndex = 3 * nt] and without a failure;
    - every entry of [triangles] is below [nv];
    - the indices are dense: every [k < nv] is the index of one vertex of
      a leaf, whose coordinates fill slot [k] of [vertices]; a vertex of
      a leaf has one index; two vertices never share an index; a pixel
      that no leaf uses keeps 0 in [ind]. *)
Definition twoPassRun (g : Z) (m : Martini) (tile : Tile) (maxError : Q)
  (maxLength : option Q) : Prop :=
  exists (fuel0 : nat) (L : list tri) (ind : list Z),
    let seen := seenAfter [] L in
    let nv := Z.of_nat (length seen) in
    let nt := Z.of_nat (length L) in
    let vs := coordsOf seen in
    let ts := trisOf seen L in
    let maxScale := maxScaleOf maxLength g in
    let max := g - 1 in
    let st0 := mkCounts (replicate (length (indices m)) 0) 0 0 in
    (forall fuel, (fuel0 <= fuel)%nat ->
       (let* st := countElements g (errors tile) maxError maxScale fuel
                     (Tri 0 0 max max max 0) st0 in
        countElements g (errors tile) maxError maxScale fuel
          (Tri max max 0 0 0 max) st) =
       forEach (countLeaf g) L st0 /\
       forEach (countLeaf g) L st0 = Done (mkCounts ind nv nt) /\
       (forall bs,
          (let* bs' := processTriangle g (errors tile) maxError maxScale ind fuel
                         (Tri 0 0 max max max 0) bs in
           processTriangle g (errors tile) maxError maxScale ind fuel
             (Tri max max 0 0 0 max) bs') =
          forEach (fillLeaf g ind) L bs) /\
       forEach (fillLeaf g ind) L
         (mkBuffers (replicate (Z.to_nat (nv * 2)) 0)
                    (replicate (Z.to_nat (nt * 3)) 0) 0) =
       Done (mkBuffers vs ts (nt * 3)) /\
       getMeshRun fuel tile maxError maxLength = Done (mkMesh vs ts, ind)) /\
    Z.of_nat (length ts) = 3 * nt /\
    Z.of_nat (length vs) = 2 * nv /\
    Forall (fun a => 0 <= a < nv) ts /\
    (forall k, 0 <= k < nv ->
       exists v, inGrid max v /\ v ∈ cornersOf L /\
                 get ind (pixel g v) = Done (k + 1) /\
                 get vs (2 * k) = Done (fst v) /\
                 get vs (2 * k + 1) = Done (snd v)) /\
    (forall v, v ∈ cornersOf L ->
       exists k, 0 <= k < nv /\ get ind (pixel g v) = Done (k + 1)) /\
    (forall v w k, inGrid max v -> inGrid max w -> 0 <= k ->
       get ind (pixel g v) = Done (k + 1) -> get ind (pixel g w) = Done (k + 1) ->
       v = w) /\
    (forall v, inGrid max v -> v ∉ cornersOf L -> get ind (pixel g v) = Done 0).

(** ** A worked example: the 5 x 5 grid with a single peak *)

Definition peakTerrain : list Q :=
  map inject_Z [0; 0; 0; 0; 0;  0; 0; 0; 0; 0;  0; 0; 10; 0; 0;
                0; 0; 0; 0; 0;  0; 0; 0; 0; 0].

Definition peakGrid : Martini :=
  Eval vm_compute in
    match Martini_new 5 with Done m => m | Fail _ => mkMartini 0 0 0 [] [] end.

Definition peakTile : Tile :=
  Eval vm_compute in
    match createTile peakGrid peakTerrain with
    | Done t => t
    | Fail _ => mkTile [] peakGrid []
    end.

Definition flatTerrain : list Q := replicate 25 (7 # 2)%Q.

Definition flatTile : Tile :=
  Eval vm_compute in
    match createTile peakGrid flatTerrain with
    | Done t => t
    | Fail _ => mkTile [] peakGrid []
    end.

(** * Vocabulary of the further properties *)

(** ** Positions in the table *)

(** the positions of the two halves of the triangle at table position [i] *)
Definition rightChildPos (i : Z) : Z := i + 2 ^ Z.log2 (i + 2).

Definition leftChildPos (i : Z) : Z := i + 2 * 2 ^ Z.log2 (i + 2).

(** the position of the triangle whose half the triangle at position [i] is *)
Definition parentPos (i : Z) : Z :=
  let h := 2 ^ (Z.log2 (i + 2) - 1) in h + (i + 2) mod h - 2.

(** ** Values of the error sweep *)

(** lines 81-83: the error of the triangle [t] at the middle of its long
    edge, on the heights [terrain] *)
Definition middleErrorOf (terrain : list Q) (size : Z) (t : tri) : outcome Q :=
  let '(Tri ax ay bx by_ _ _) := t in
  let mx := sar (ax + bx) 1 in
  let my := sar (ay + by_) 1 in
  let* ta := get terrain (ay * size + ax) in
  let* tb := get terrain (by_ * size + bx) in
  let* tm := get terrain (my * size + mx) in
  Done (Qabs ((ta + tb) / 2 - tm))%Q.


(** ** Reading a mesh and its triangles *)

(** the vertex with index [k] in the buffer [vertices] *)
Definition vertexAt (vs : list Z) (k : Z) : point :=
  (nth (Z.to_nat (2 * k)) vs 0, nth (Z.to_nat (2 * k + 1)) vs 0).

(** the triangles a pair of buffers holds: the entries of [triangles]
    three by three, each looked up in [vertices] *)
Fixpoint trianglesOf (vs ts : list Z) : list tri :=
  match ts with
  | a :: b :: c :: rest =>
      Tri (fst (vertexAt vs a)) (snd (vertexAt vs a))
          (fst (vertexAt vs b)) (snd (vertexAt vs b))
          (fst (vertexAt vs c)) (snd (vertexAt vs c)) :: trianglesOf vs rest
  | _ => []
  end.

Definition meshTriangles (mesh : Mesh) : list tri :=
  trianglesOf (vertices mesh) (triangles mesh).

(** [legLength] of lines 117 and 139 *)
Definition legLength (t : tri) : Z :=
  let '(Tri ax ay bx by_ cx cy) := t in Z.abs (ax - cx) + Z.abs (ay - cy).

(** the cross product of [p - o] and [q - o] *)
Definition cross (o p q : point) : Z :=
  (fst p - fst o) * (snd q - snd o) - (snd p - snd o) * (fst q - fst o).

(** twice the signed area of a triangle, negative when [a], [b], [c] run
    clockwise in a frame with [y] upwards *)
Definition signedArea2 (t : tri) : Z :=
  let '(Tri ax ay bx by_ cx cy) := t in cross (ax, ay) (bx, by_) (cx, cy).

(** [p] lies in the closed triangle [t], for a triangle of negative
    signed area *)
Definition within (t : tri) (p : point) : Prop :=
  let '(Tri ax ay bx by_ cx cy) := t in
  cross (ax, ay) (bx, by_) p <= 0 /\
  cross (bx, by_) (cx, cy) p <= 0 /\
  cross (cx, cy) (ax, ay) p <= 0.

(** [t] is a triangle of the table of the grid of size [2^n + 1], [k]
    halvings above the unit triangles *)
Definition tableTri (n k : nat) (t : tri) : Prop :=
  exists i, 0 <= i < 2 ^ Z.of_nat n * 2 ^ Z.of_nat n * 2 - 2 /\
            triangleOf (2 ^ Z.of_nat n) i = t /\ rankOf n i = k.

(** a triangle the recursion can reach: a triangle of the table or, at the
    bottom, a unit triangle *)
Definition treeTri (n k : nat) (t : tri) : Prop :=
  match k with
  | O => inTile (2 ^ Z.of_nat n) t /\ shape 0 t
  | S _ => tableTri n k t
  end.

(** [p] is the middle of the long edge of a triangle of the table whose
    [legLength] is above [maxScale] *)
Definition longAt (n : nat) (maxScale : Q) (p : point) : Prop :=
  exists k u, tableTri n (S k) u /\ mid u = p /\
              (maxScale < inject_Z (legLength u))%Q.

(** the sum of the (doubled, signed) areas of a list of triangles *)
Definition totalArea2 (L : list tri) : Z := foldr Z.add 0 (map signedArea2 L).

(** a right angle at [c] between two legs of the same length *)
Definition rightIsosceles (t : tri) : Prop :=
  let '(Tri ax ay bx by_ cx cy) := t in
  (ax - cx) * (bx - cx) + (ay - cy) * (by_ - cy) = 0 /\
  (ax - cx) * (ax - cx) + (ay - cy) * (ay - cy) =
  (bx - cx) * (bx - cx) + (by_ - cy) * (by_ - cy).

(** ** A second worked example: the peak turned over and raised *)



(** * Properties *)

(** ** Number conversions *)

Lemma toInt32_small z : - 2 ^ 31 <= z < 2 ^ 31 -> toInt32 z = z.
Proof. intros H. unfold toInt32. rewrite Z.mod_small; lia. Qed.

Lemma toUint16_small z : 0 <= z < 2 ^ 16 -> toUint16 z = z.
Proof. intros H. unfold toUint16. apply Z.mod_small; lia. Qed.

Lemma toUint32_small z : 0 <= z < 2 ^ 32 -> toUint32 z = z.
Proof. intros H. unfold toUint32. apply Z.mod_small; lia. Qed.

Lemma sar_1_small z : - 2 ^ 31 <= z < 2 ^ 31 -> sar z 1 = z / 2.
Proof.
  intros H. unfold sar. rewrite toInt32_small by lia.
  rewrite Z.shiftr_div_pow2 by lia. reflexivity.
Qed.

Lemma sar_1_double z : - 2 ^ 30 <= z < 2 ^ 30 -> sar (2 * z) 1 = z.
Proof.
  intros H. rewrite sar_1_small by lia. Z.div_mod_to_equations. lia.
Qed.

Lemma band_1_small z : 0 <= z < 2 ^ 31 -> band z 1 = z mod 2.
Proof.
  intros H. unfold band. rewrite !toInt32_small by lia.
  change 1 with (Z.ones 1). rewrite Z.land_ones by lia. reflexivity.
Qed.

Lemma pow2_pos (e : nat) : 0 < 2 ^ Z.of_nat e.
Proof. apply Z.pow_pos_nonneg; lia. Qed.

Lemma pow2_S (e : nat) : 2 ^ Z.of_nat (S e) = 2 * 2 ^ Z.of_nat e.
Proof. rewrite Nat2Z.inj_succ, Z.pow_succ_r by lia. reflexivity. Qed.

Lemma pow2_le (a b : nat) : (a <= b)%nat -> 2 ^ Z.of_nat a <= 2 ^ Z.of_nat b.
Proof. intros H. apply Z.pow_le_mono_r; lia. Qed.

(** ** Geometry of the triangle tree *)

Section Geometry.
Variable T : Z.
Hypothesis T_fits : 0 <= T <= 2 ^ 15.

Lemma descendStep_halves id t :
  descendStep id t = if truthy (band id 1) then firstHalf t else secondHalf t.
Proof. destruct t. reflexivity. Qed.

Lemma mid_inGrid t : inTile T t -> inGrid T (mid t).
Proof.
  destruct t as [ax ay bx by_ cx cy]. unfold inTile, inGrid, mid. simpl.
  intros H. rewrite !sar_1_small by lia.
  Z.div_mod_to_equations. lia.
Qed.

Lemma halves_inTile t :
  inTile T t -> inTile T (firstHalf t) /\ inTile T (secondHalf t).
Proof.
  intros H. pose proof (mid_inGrid t H) as Hm.
  destruct t as [ax ay bx by_ cx cy].
  unfold inGrid, mid in Hm. simpl in *. tauto.
Qed.

Lemma halves_of_hyp s t :
  0 < s -> inTile T t -> hypOnAxis s t ->
  legsOnAxes s (firstHalf t) /\ legsOnAxes s (secondHalf t).
Proof.
  destruct t as [ax ay bx by_ cx cy]. cbn [hypOnAxis legsOnAxes firstHalf secondHalf inTile].
  intros Hs Hin (w & i & j & Hcx & Hcy & Hax & Hay & Hbx & Hby).
  assert (Hmx : sar (ax + bx) 1 = cx - s * dx (turn w)).
  { replace (ax + bx) with (2 * (cx - s * dx (turn w))) by lia.
    apply sar_1_double. destruct w; cbn [dx dy turn] in *; lia. }
  assert (Hmy : sar (ay + by_) 1 = cy - s * dy (turn w)).
  { replace (ay + by_) with (2 * (cy - s * dy (turn w))) by lia.
    apply sar_1_double. destruct w; cbn [dx dy turn] in *; lia. }
  rewrite Hmx, Hmy. split.
  - exists (turn w).
    destruct w; cbn [dx dy turn] in *;
      [ exists (2 * i + 1), (2 * j) | exists (2 * i + 2), (2 * j + 1)
      | exists (2 * i + 1), (2 * j + 2) | exists (2 * i), (2 * j + 1) ]; lia.
  - exists (turn (turn w)).
    destruct w; cbn [dx dy turn] in *;
      [ exists (2 * i + 1), (2 * j) | exists (2 * i + 2), (2 * j + 1)
      | exists (2 * i + 1), (2 * j + 2) | exists (2 * i), (2 * j + 1) ]; lia.
Qed.

Lemma halves_of_legs s t :
  0 < s -> inTile T t -> legsOnAxes (2 * s) t ->
  hypOnAxis s (firstHalf t) /\ hypOnAxis s (secondHalf t).
Proof.
  destruct t as [ax ay bx by_ cx cy]. cbn [hypOnAxis legsOnAxes firstHalf secondHalf inTile].
  intros Hs Hin (d & i & j & Hcx & Hcy & Hax & Hay & Hbx & Hby).
  assert (Hmx : sar (ax + bx) 1 = cx + s * dx d - s * dx (turn d)).
  { replace (ax + bx) with (2 * (cx + s * dx d - s * dx (turn d))) by lia.
    apply sar_1_double. destruct d; cbn [dx dy turn] in *; lia. }
  assert (Hmy : sar (ay + by_) 1 = cy + s * dy d - s * dy (turn d)).
  { replace (ay + by_) with (2 * (cy + s * dy d - s * dy (turn d))) by lia.
    apply sar_1_double. destruct d; cbn [dx dy turn] in *; lia. }
  rewrite Hmx, Hmy. split.
  - exists (turn (turn d)).
    destruct d; cbn [dx dy turn] in *;
      [ exists i, (j - 1) | exists i, j
      | exists (i - 1), j | exists (i - 1), (j - 1) ]; lia.
  - exists (turn (turn (turn d))).
    destruct d; cbn [dx dy turn] in *;
      [ exists i, (j - 1) | exists i, j
      | exists (i - 1), j | exists (i - 1), (j - 1) ]; lia.
Qed.

Lemma shape_halves k t :
  inTile T t -> shape (S k) t ->
  shape k (firstHalf t) /\ shape k (secondHalf t).
Proof.
  intros Hin [e [[Hk Hl] | [Hk Hh]]].
  - destruct e as [|e]; [lia|].
    rewrite pow2_S in Hl.
    destruct (halves_of_legs _ _ (pow2_pos e) Hin Hl) as [H1 H2].
    split; exists e; right; (split; [lia | assumption]).
  - destruct (halves_of_hyp _ _ (pow2_pos e) Hin Hh) as [H1 H2].
    split; exists e; left; (split; [lia | assumption]).
Qed.

Lemma shape_mid_class k t :
  inTile T t -> shape (S k) t -> midClass (S k) (mid t).
Proof.
  destruct t as [ax ay bx by_ cx cy]. cbn [inTile mid].
  intros Hin [e [[Hk Hl] | [Hk Hh]]].
  - destruct e as [|e]; [lia|]. rewrite pow2_S in Hl.
    pose proof (pow2_pos e) as Hs. set (s := 2 ^ Z.of_nat e) in *.
    destruct Hl as (d & i & j & Hcx & Hcy & Hax & Hay & Hbx & Hby).
    assert (Hmx : sar (ax + bx) 1 = cx + s * dx d - s * dx (turn d)).
    { replace (ax + bx) with (2 * (cx + s * dx d - s * dx (turn d))) by lia.
      apply sar_1_double. destruct d; cbn [dx dy turn] in *; lia. }
    assert (Hmy : sar (ay + by_) 1 = cy + s * dy d - s * dy (turn d)).
    { replace (ay + by_) with (2 * (cy + s * dy d - s * dy (turn d))) by lia.
      apply sar_1_double. destruct d; cbn [dx dy turn] in *; lia. }
    rewrite Hmx, Hmy. exists e.
    destruct d; cbn [dx dy turn fst snd] in *;
      [ exists i, (j - 1) | exists i, j
      | exists (i - 1), j | exists (i - 1), (j - 1) ];
      right; fold s; cbn [fst snd]; lia.
  - pose proof (pow2_pos e) as Hs. set (s := 2 ^ Z.of_nat e) in *.
    destruct Hh as (w & i & j & Hcx & Hcy & Hax & Hay & Hbx & Hby).
    assert (Hmx : sar (ax + bx) 1 = cx - s * dx (turn w)).
    { replace (ax + bx) with (2 * (cx - s * dx (turn w))) by lia.
      apply sar_1_double. destruct w; cbn [dx dy turn] in *; lia. }
    assert (Hmy : sar (ay + by_) 1 = cy - s * dy (turn w)).
    { replace (ay + by_) with (2 * (cy - s * dy (turn w))) by lia.
      apply sar_1_double. destruct w; cbn [dx dy turn] in *; lia. }
    rewrite Hmx, Hmy. exists e.
    destruct w; cbn [dx dy turn fst snd] in *;
      [ exists i, j | exists (i + 1), j | exists i, (j + 1) | exists i, j ];
      left; fold s; cbn [fst snd]; lia.
Qed.

Lemma shape_apex k ax ay bx by_ cx cy :
  inTile T (Tri ax ay bx by_ cx cy) -> shape (S k) (Tri ax ay bx by_ cx cy) ->
  apex ax ay bx by_ = (cx, cy).
Proof.
  cbn [inTile]. unfold apex.
  intros Hin [e [[Hk Hl] | [Hk Hh]]].
  - destruct e as [|e]; [lia|]. rewrite pow2_S in Hl.
    pose proof (pow2_pos e) as Hs. set (s := 2 ^ Z.of_nat e) in *.
    destruct Hl as (d & i & j & Hcx & Hcy & Hax & Hay & Hbx & Hby).
    assert (Hmx : sar (ax + bx) 1 = cx + s * dx d - s * dx (turn d)).
    { replace (ax + bx) with (2 * (cx + s * dx d - s * dx (turn d))) by lia.
      apply sar_1_double. destruct d; cbn [dx dy turn] in *; lia. }
    assert (Hmy : sar (ay + by_) 1 = cy + s * dy d - s * dy (turn d)).
    { replace (ay + by_) with (2 * (cy + s * dy d - s * dy (turn d))) by lia.
      apply sar_1_double. destruct d; cbn [dx dy turn] in *; lia. }
    rewrite Hmx, Hmy. destruct d; cbn [dx dy turn] in *; f_equal; lia.
  - pose proof (pow2_pos e) as Hs. set (s := 2 ^ Z.of_nat e) in *.
    destruct Hh as (w & i & j & Hcx & Hcy & Hax & Hay & Hbx & Hby).
    assert (Hmx : sar (ax + bx) 1 = cx - s * dx (turn w)).
    { replace (ax + bx) with (2 * (cx - s * dx (turn w))) by lia.
      apply sar_1_double. destruct w; cbn [dx dy turn] in *; lia. }
    assert (Hmy : sar (ay + by_) 1 = cy - s * dy (turn w)).
    { replace (ay + by_) with (2 * (cy - s * dy (turn w))) by lia.
      apply sar_1_double. destruct w; cbn [dx dy turn] in *; lia. }
    rewrite Hmx, Hmy. destruct w; cbn [dx dy turn] in *; f_equal; lia.
Qed.

Lemma shape_legLength k ax ay bx by_ cx cy :
  shape k (Tri ax ay bx by_ cx cy) ->
  Z.abs (ax - cx) + Z.abs (ay - cy) = legOf k.
Proof.
  unfold legOf. intros [e [[Hk Hl] | [Hk Hh]]]; subst k.
  - replace ((2 * e + 1) / 2)%nat with e
      by (apply Nat.div_unique with 1%nat; lia).
    pose proof (pow2_pos e) as Hs. set (s := 2 ^ Z.of_nat e) in *.
    destruct Hl as (d & i & j & Hcx & Hcy & Hax & Hay & Hbx & Hby).
    destruct d; cbn [dx dy turn] in *; lia.
  - replace ((2 * e + 1 + 1) / 2)%nat with (S e)
      by (apply Nat.div_unique with 0%nat; lia).
    rewrite pow2_S.
    pose proof (pow2_pos e) as Hs. set (s := 2 ^ Z.of_nat e) in *.
    destruct Hh as (w & i & j & Hcx & Hcy & Hax & Hay & Hbx & Hby).
    destruct w; cbn [dx dy turn] in *; lia.
Qed.

Lemma shape_distinct k ax ay bx by_ cx cy :
  shape k (Tri ax ay bx by_ cx cy) ->
  (ax, ay) <> (bx, by_) /\ (ax, ay) <> (cx, cy) /\ (bx, by_) <> (cx, cy).
Proof.
  intros [e [[Hk Hl] | [Hk Hh]]];
    pose proof (pow2_pos e) as Hs; set (s := 2 ^ Z.of_nat e) in *.
  - destruct Hl as (d & i & j & Hcx & Hcy & Hax & Hay & Hbx & Hby).
    repeat split; intros [= Hx Hy]; destruct d; cbn [dx dy turn] in *; lia.
  - destruct Hh as (w & i & j & Hcx & Hcy & Hax & Hay & Hbx & Hby).
    repeat split; intros [= Hx Hy]; destruct w; cbn [dx dy turn] in *; lia.
Qed.

Lemma shape_legLength_le k ax ay bx by_ cx cy :
  inTile T (Tri ax ay bx by_ cx cy) -> shape k (Tri ax ay bx by_ cx cy) ->
  Z.abs (ax - cx) + Z.abs (ay - cy) <= T.
Proof.
  cbn [inTile].
  intros Hin [e [[Hk Hl] | [Hk Hh]]];
    pose proof (pow2_pos e) as Hs; set (s := 2 ^ Z.of_nat e) in *.
  - destruct Hl as (d & i & j & Hcx & Hcy & Hax & Hay & Hbx & Hby).
    destruct d; cbn [dx dy turn] in *; lia.
  - destruct Hh as (w & i & j & Hcx & Hcy & Hax & Hay & Hbx & Hby).
    destruct w; cbn [dx dy turn] in *; lia.
Qed.
End Geometry.

(** ** The classes of the middles are disjoint *)

Lemma odd_multiple_not_even s a c : 0 < s -> s * (2 * a + 1) <> 2 * (s * c).
Proof.
  intros Hs H. assert (2 * a + 1 = 2 * c); [|lia].
  apply (Z.mul_reg_l _ _ s); lia.
Qed.

Lemma pow2_split (a b : nat) :
  (a < b)%nat -> 2 ^ Z.of_nat b = 2 * (2 ^ Z.of_nat a * 2 ^ Z.of_nat (b - a - 1)).
Proof.
  intros H. rewrite <- Z.pow_add_r, <- Z.pow_succ_r by lia. f_equal. lia.
Qed.

Lemma midClass_lt k k' p : midClass k p -> midClass k' p -> (k < k')%nat -> False.
Proof.
  destruct p as [x y].
  intros (e & i & j & H) (e' & i' & j' & H') Hlt. cbn [fst snd] in *.
  pose proof (pow2_pos e) as Hs.
  assert (e = e' \/ e < e')%nat as [<- | He] by lia.
  - set (s := 2 ^ Z.of_nat e) in *.
    destruct H as [[Hk H] | [Hk _]]; [|lia].
    destruct H' as [[Hk' _] | [Hk' [Hx Hy]]]; [lia|].
    destruct H as [[_ H] | [H _]].
    + apply (odd_multiple_not_even s j' j); lia.
    + apply (odd_multiple_not_even s i' i); lia.
  - rewrite (pow2_split e e' He) in H'.
    set (s := 2 ^ Z.of_nat e) in *. set (u := 2 ^ Z.of_nat (e' - e - 1)) in *.
    assert (exists X Y, x = 2 * (s * X) /\ y = 2 * (s * Y)) as (X & Y & HX & HY).
    { destruct H' as [[_ [[Hx Hy] | [Hx Hy]]] | [_ [Hx Hy]]].
      - exists (u * (2 * i' + 1)), (u * (2 * j')). lia.
      - exists (u * (2 * i')), (u * (2 * j' + 1)). lia.
      - exists (u * (2 * i' + 1)), (u * (2 * j' + 1)). lia. }
    destruct H as [[_ [[Hx _] | [_ Hy]]] | [_ [Hx _]]].
    + apply (odd_multiple_not_even s i X); lia.
    + apply (odd_multiple_not_even s j Y); lia.
    + apply (odd_multiple_not_even s i X); lia.
Qed.

Lemma midClass_disjoint k k' p : midClass k p -> midClass k' p -> k = k'.
Proof.
  intros H H'. destruct (Nat.lt_trichotomy k k') as [Hlt | [Heq | Hgt]].
  - destruct (midClass_lt _ _ _ H H' Hlt).
  - exact Heq.
  - destruct (midClass_lt _ _ _ H' H Hgt).
Qed.

(** a middle is never one of the four corners of the tile *)
Lemma midClass_not_corner (n k : nat) x y :
  midClass k (x, y) -> (k <= 2 * n)%nat ->
  (x = 0 \/ x = 2 ^ Z.of_nat n) -> (y = 0 \/ y = 2 ^ Z.of_nat n) -> False.
Proof.
  intros (e & i & j & H) Hk Hx Hy. cbn [fst snd] in *.
  pose proof (pow2_pos e) as Hs.
  assert (e < n)%nat as He by (destruct H as [[? _] | [? _]]; lia).
  rewrite (pow2_split e n He) in Hx, Hy.
  set (s := 2 ^ Z.of_nat e) in *. set (u := 2 ^ Z.of_nat (n - e - 1)) in *.
  assert (exists X, x = 2 * (s * X)) as [X HX]
    by (destruct Hx; [exists 0 | exists u]; lia).
  assert (exists Y, y = 2 * (s * Y)) as [Y HY]
    by (destruct Hy; [exists 0 | exists u]; lia).
  destruct H as [[_ [[H _] | [_ H]]] | [_ [H _]]].
  - apply (odd_multiple_not_even s i X); lia.
  - apply (odd_multiple_not_even s j Y); lia.
  - apply (odd_multiple_not_even s i X); lia.
Qed.

(** ** The two root triangles *)

Lemma root_shapes (n : nat) :
  let T := 2 ^ Z.of_nat n in
  shape (2 * n) (Tri 0 0 T T T 0) /\ shape (2 * n) (Tri T T 0 0 0 T).
Proof.
  cbn zeta. pose proof (pow2_pos n). split; exists n; left; (split; [reflexivity|]).
  - exists West, 1, 0. cbn [dx dy turn]. lia.
  - exists East, 0, 1. cbn [dx dy turn]. lia.
Qed.

Lemma root_inTile T :
  0 <= T -> inTile T (Tri 0 0 T T T 0) /\ inTile T (Tri T T 0 0 0 T).
Proof. cbn [inTile]. lia. Qed.

(** ** The triangle of a table position *)

Lemma descend_eq id t :
  descend id t =
  if Z_lt_dec 1 (sar id 1) then descend (sar id 1) (descendStep (sar id 1) t) else t.
Proof.
  rewrite descend_equation_1. destruct (Z_lt_dec 1 (sar id 1)); reflexivity.
Qed.

Section Table.
Variable n : nat.
Hypothesis n_fits : (n <= 15)%nat.
Variable T : Z.
Hypothesis T_pow : T = 2 ^ Z.of_nat n.

Lemma T_bounds : 1 <= T <= 2 ^ 15.
Proof.
  rewrite T_pow. pose proof (pow2_pos n). split; [lia|].
  change 15 with (Z.of_nat 15). apply pow2_le. exact n_fits.
Qed.

Lemma descend_shape (lv : nat) : forall id k t,
  2 ^ Z.of_nat (S lv) <= id < 2 ^ Z.of_nat (S (S lv)) -> id < 2 ^ 31 ->
  inTile T t -> shape (k + lv) t ->
  inTile T (descend id t) /\ shape k (descend id t).
Proof.
  pose proof T_bounds as HT.
  induction lv as [|lv IH]; intros id k t Hid H31 Hin Hsh.
  - rewrite descend_eq.
    change (2 ^ Z.of_nat 1) with 2 in Hid. change (2 ^ Z.of_nat 2) with 4 in Hid.
    rewrite sar_1_small by lia.
    destruct (Z_lt_dec 1 (id / 2)) as [Hlt|_].
    + exfalso. Z.div_mod_to_equations. lia.
    + rewrite Nat.add_0_r in Hsh. auto.
  - rewrite descend_eq. rewrite !pow2_S in Hid.
    pose proof (pow2_pos lv) as Hp.
    rewrite sar_1_small by lia.
    destruct (Z_lt_dec 1 (id / 2)) as [_|Hge].
    + rewrite descendStep_halves.
      replace (k + S lv)%nat with (S (k + lv)) in Hsh by lia.
      destruct (shape_halves T ltac:(lia) _ _ Hin Hsh) as [Hs1 Hs2].
      destruct (halves_inTile T ltac:(lia) _ Hin) as [Hi1 Hi2].
      apply IH.
      * rewrite !pow2_S. Z.div_mod_to_equations. lia.
      * Z.div_mod_to_equations. lia.
      * destruct (truthy _); assumption.
      * destruct (truthy _); assumption.
    + exfalso. Z.div_mod_to_equations. lia.
Qed.

Lemma rankOf_bounds i :
  0 <= i < T * T * 2 - 2 -> (1 <= rankOf n i <= 2 * n)%nat.
Proof.
  intros Hi. unfold rankOf.
  assert (1 <= Z.log2 (i + 2)) by (apply Z.log2_le_pow2; [lia | change (2 ^ 1) with 2; lia]).
  assert (Z.log2 (i + 2) < Z.of_nat (2 * n + 1)).
  { apply Z.log2_lt_pow2; [lia|].
    replace (Z.of_nat (2 * n + 1)) with (Z.of_nat n + Z.of_nat n + 1) by lia.
    rewrite !Z.pow_add_r by lia. rewrite <- T_pow. lia. }
  lia.
Qed.

Lemma rankOf_mono i j : 0 <= j <= i -> (rankOf n i <= rankOf n j)%nat.
Proof.
  intros H. unfold rankOf.
  assert (Z.log2 (j + 2) <= Z.log2 (i + 2)) by (apply Z.log2_le_mono; lia).
  pose proof (Z.log2_nonneg (j + 2)). lia.
Qed.

Lemma rankOf_parent i :
  0 <= i < T * T * 2 - 2 -> i < T * T - 2 -> (2 <= rankOf n i)%nat.
Proof.
  intros Hi Hp. unfold rankOf.
  assert (Z.log2 (i + 2) < Z.of_nat (2 * n)).
  { apply Z.log2_lt_pow2; [lia|].
    replace (Z.of_nat (2 * n)) with (Z.of_nat n + Z.of_nat n) by lia.
    rewrite !Z.pow_add_r by lia. rewrite <- T_pow. lia. }
  pose proof (Z.log2_nonneg (i + 2)). lia.
Qed.

Lemma triangleOf_shape i :
  0 <= i < T * T * 2 - 2 ->
  inTile T (triangleOf T i) /\ shape (rankOf n i) (triangleOf T i).
Proof.
  intros Hi. pose proof T_bounds as HT. pose proof (rankOf_bounds i Hi) as Hr.
  unfold triangleOf. cbn zeta.
  assert (1 <= Z.log2 (i + 2)) as Hl1
    by (apply Z.log2_le_pow2; [lia | change (2 ^ 1) with 2; lia]).
  destruct (Z.log2_spec (i + 2) ltac:(lia)) as [Hlo Hhi].
  apply (descend_shape (Z.to_nat (Z.log2 (i + 2)) - 1)).
  - replace (Z.of_nat (S (Z.to_nat (Z.log2 (i + 2)) - 1))) with (Z.log2 (i + 2)) by lia.
    replace (Z.of_nat (S (S (Z.to_nat (Z.log2 (i + 2)) - 1))))
      with (Z.succ (Z.log2 (i + 2))) by lia.
    lia.
  - assert (T * T <= 2 ^ 15 * 2 ^ 15) by (apply Z.mul_le_mono_nonneg; lia). lia.
  - unfold rootTriangle. destruct (truthy _); apply root_inTile; lia.
  - replace (rankOf n i + (Z.to_nat (Z.log2 (i + 2)) - 1))%nat with (2 * n)%nat
      by (unfold rankOf in *; lia).
    unfold rootTriangle. rewrite T_pow. destruct (truthy _); apply root_shapes.
Qed.
End Table.

(** ** Typed arrays *)

Lemma bind_Done {A B} (c : outcome A) (k : A -> outcome B) b :
  bind c k = Done b -> exists a, c = Done a /\ k a = Done b.
Proof. destruct c as [a|f]; simpl; [eauto | discriminate]. Qed.

Lemma get_Done {A} (arr : list A) i v :
  get arr i = Done v <-> 0 <= i /\ arr !! Z.to_nat i = Some v.
Proof.
  unfold get. destruct (Z.ltb_spec i 0).
  - split; [discriminate | lia].
  - destruct (arr !! Z.to_nat i) eqn:E; split; intros H'; try discriminate.
    + injection H' as ->. auto.
    + destruct H' as [_ [= ->]]. reflexivity.
    + destruct H' as [_ [=]].
Qed.

Lemma get_in_range {A} (arr : list A) i :
  0 <= i < Z.of_nat (length arr) -> exists v, get arr i = Done v.
Proof.
  intros H. destruct (lookup_lt_is_Some_2 arr (Z.to_nat i)) as [v Hv]; [lia|].
  exists v. apply get_Done. split; [lia | exact Hv].
Qed.

Lemma set_Done {A} (arr : list A) i v :
  0 <= i < Z.of_nat (length arr) -> set arr i v = Done (<[Z.to_nat i := v]> arr).
Proof.
  intros H. unfold set.
  destruct (Z.leb_spec 0 i); [|lia]. destruct (Z.ltb_spec i (Z.of_nat (length arr))); [|lia].
  reflexivity.
Qed.

Lemma set_inv {A} (arr arr' : list A) i v :
  set arr i v = Done arr' ->
  0 <= i < Z.of_nat (length arr) /\ arr' = <[Z.to_nat i := v]> arr.
Proof.
  unfold set. destruct (Z.leb_spec 0 i); [|discriminate].
  destruct (Z.ltb_spec i (Z.of_nat (length arr))); [|discriminate].
  intros [= <-]. split; [lia | reflexivity].
Qed.

Lemma get_insert_eq {A} (arr : list A) i v :
  0 <= i < Z.of_nat (length arr) -> get (<[Z.to_nat i := v]> arr) i = Done v.
Proof.
  intros H. apply get_Done. split; [lia|]. apply list_lookup_insert_eq. lia.
Qed.

Lemma get_insert_ne {A} (arr : list A) i j v :
  0 <= i -> 0 <= j -> i <> j -> get (<[Z.to_nat i := v]> arr) j = get arr j.
Proof.
  intros Hi Hj Hne. unfold get. destruct (Z.ltb_spec j 0); [reflexivity|].
  rewrite list_lookup_insert_ne by lia. reflexivity.
Qed.

Lemma newArray_Done {A} (zero : A) len :
  0 <= len <= 2 ^ 53 - 1 -> newArray zero len = Done (replicate (Z.to_nat len) zero).
Proof.
  intros H. unfold newArray.
  destruct (Z.ltb_spec len 0); [lia|]. destruct (Z.ltb_spec (2 ^ 53 - 1) len); [lia|].
  reflexivity.
Qed.

Lemma newArray_inv {A} (zero : A) len arr :
  newArray zero len = Done arr ->
  0 <= len <= 2 ^ 53 - 1 /\ arr = replicate (Z.to_nat len) zero.
Proof.
  unfold newArray.
  destruct (Z.ltb_spec len 0); [discriminate|].
  destruct (Z.ltb_spec (2 ^ 53 - 1) len); [discriminate|].
  intros [= <-]. split; [lia | reflexivity].
Qed.

Lemma forEach_app {I S} (body : I -> S -> outcome S) l1 l2 s :
  forEach body (l1 ++ l2) s = let* s' := forEach body l1 s in forEach body l2 s'.
Proof.
  revert s. induction l1 as [|i l1 IH]; intros s; simpl; [reflexivity|].
  destruct (body i s); simpl; [apply IH | reflexivity].
Qed.

(** ** The constructor fills the table *)

Lemma storeTriangle_spec T i coords :
  0 <= i -> i * 4 + 3 < Z.of_nat (length coords) ->
  exists ax ay bx by_ cx cy coords',
    triangleOf T i = Tri ax ay bx by_ cx cy /\
    storeTriangle T i coords = Done coords' /\
    length coords' = length coords /\
    get coords' (i * 4 + 0) = Done (toUint16 ax) /\
    get coords' (i * 4 + 1) = Done (toUint16 ay) /\
    get coords' (i * 4 + 2) = Done (toUint16 bx) /\
    get coords' (i * 4 + 3) = Done (toUint16 by_) /\
    (forall p, 0 <= p -> (p < i * 4 \/ i * 4 + 3 < p) -> get coords' p = get coords p).
Proof.
  intros Hi Hlen. unfold storeTriangle.
  destruct (triangleOf T i) as [ax ay bx by_ cx cy].
  exists ax, ay, bx, by_, cx, cy. cbn zeta. unfold set16.
  rewrite set_Done by lia. cbn [bind].
  rewrite set_Done by (rewrite length_insert; lia). cbn [bind].
  rewrite set_Done by (rewrite !length_insert; lia). cbn [bind].
  rewrite set_Done by (rewrite !length_insert; lia).
  eexists. split; [reflexivity|]. split; [reflexivity|].
  split; [rewrite !length_insert; reflexivity|].
  repeat split.
  - rewrite !get_insert_ne by lia. apply get_insert_eq. lia.
  - rewrite !get_insert_ne by lia. apply get_insert_eq. rewrite !length_insert. lia.
  - rewrite !get_insert_ne by lia. apply get_insert_eq. rewrite !length_insert. lia.
  - apply get_insert_eq. rewrite !length_insert. lia.
  - intros p Hp Hout. rewrite !get_insert_ne by lia. reflexivity.
Qed.

Lemma fill_table T (N : nat) : forall coords,
  Z.of_nat N * 4 <= Z.of_nat (length coords) ->
  exists coords',
    forEach (storeTriangle T) (seqZ 0 (Z.of_nat N)) coords = Done coords' /\
    length coords' = length coords /\
    tableOf T (Z.of_nat N) coords'.
Proof.
  induction N as [|N IH]; intros coords Hlen.
  - exists coords. split; [reflexivity|]. split; [reflexivity|].
    intros i Hi. lia.
  - destruct (IH coords ltac:(lia)) as (c1 & Hrun & Hl1 & Htab).
    rewrite seqZ_S, forEach_app, Hrun. cbn [bind forEach]. rewrite Z.add_0_l.
    destruct (storeTriangle_spec T (Z.of_nat N) c1 ltac:(lia) ltac:(lia))
      as (ax & ay & bx & by_ & cx & cy & c2 & Htri & Hst & Hl2 & H0 & H1 & H2 & H3 & Hrest).
    exists c2. rewrite Hst. split; [reflexivity|]. split; [congruence|].
    intros i Hi. assert (i < Z.of_nat N \/ i = Z.of_nat N) as [Hlt | ->] by lia.
    + destruct (Htab i ltac:(lia)) as (ax' & ay' & bx' & by' & cx' & cy' & Ht & G0 & G1 & G2 & G3).
      exists ax', ay', bx', by', cx', cy'.
      rewrite !Hrest by lia. auto.
    + exists ax, ay, bx, by_, cx, cy. auto.
Qed.

(** ** The guard of the constructor *)

Lemma land_pred_pow2 (n : Z) : 0 <= n -> Z.land (2 ^ n) (2 ^ n - 1) = 0.
Proof.
  intros Hn. replace (2 ^ n - 1) with (Z.ones n) by (rewrite Z.ones_equiv; lia).
  rewrite Z.land_ones by lia. apply Z.mod_same.
  pose proof (Z.pow_pos_nonneg 2 n). lia.
Qed.

Lemma land_pred_zero t : 0 < t -> Z.land t (t - 1) = 0 -> t = 2 ^ Z.log2 t.
Proof.
  intros Ht Hland. destruct (Z.log2_spec t Ht) as [Hlo Hhi].
  destruct (Z.eq_dec t (2 ^ Z.log2 t)) as [|Hne]; [assumption|exfalso].
  pose proof (Z.log2_nonneg t) as Hk.
  assert (Z.log2 (t - 1) = Z.log2 t) as Hlog by (apply Z.log2_unique; lia).
  assert (Z.testbit (Z.land t (t - 1)) (Z.log2 t) = true) as Hbit.
  { rewrite Z.land_spec, Z.bit_log2 by lia.
    rewrite <- Hlog. rewrite Z.bit_log2 by lia. reflexivity. }
  rewrite Hland, Z.bits_0 in Hbit. discriminate.
Qed.

Lemma guard_passes_inv t :
  - 2 ^ 31 < t < 2 ^ 16 -> truthy (band t (t - 1)) = false ->
  t = 0 \/ exists n : nat, (n <= 15)%nat /\ t = 2 ^ Z.of_nat n.
Proof.
  intros Ht Hg. unfold truthy in Hg. apply negb_false_iff, Z.eqb_eq in Hg.
  unfold band in Hg.
  rewrite !toInt32_small in Hg by lia.
  destruct (Z.lt_trichotomy t 0) as [Hneg | [-> | Hpos]].
  - exfalso. assert (Z.land t (t - 1) < 0) by (apply Z.land_neg; lia). lia.
  - left. reflexivity.
  - right. pose proof (land_pred_zero t Hpos Hg) as Heq.
    pose proof (Z.log2_nonneg t) as Hk.
    exists (Z.to_nat (Z.log2 t)). rewrite Z2Nat.id by lia. split; [|exact Heq].
    assert (Z.log2 t <= 15); [|lia].
    destruct (Z.le_gt_cases (Z.log2 t) 15) as [|Hgt]; [assumption|exfalso].
    assert (2 ^ 16 <= 2 ^ Z.log2 t) by (apply Z.pow_le_mono_r; lia). lia.
Qed.

Lemma guard_pow2 (n : nat) :
  (n <= 30)%nat -> truthy (band (2 ^ Z.of_nat n) (2 ^ Z.of_nat n - 1)) = false.
Proof.
  intros Hn. pose proof (pow2_pos n).
  assert (2 ^ Z.of_nat n <= 2 ^ Z.of_nat 30) by (apply pow2_le; exact Hn).
  change (2 ^ Z.of_nat 30) with (2 ^ 30) in *.
  unfold truthy, band. rewrite !toInt32_small by lia.
  rewrite land_pred_pow2 by lia. reflexivity.
Qed.

(** ** What the constructor builds *)

Lemma Martini_new_inv g m :
  g - 1 < 2 ^ 16 -> Martini_new g = Done m ->
  exists n : nat, (n <= 15)%nat /\ g = 2 ^ Z.of_nat n + 1 /\ gridOf n m.
Proof.
  intros Hg. unfold Martini_new. cbn zeta.
  destruct (truthy (band (g - 1) (g - 1 - 1))) eqn:Hguard; [discriminate|].
  intros Hrun.
  apply bind_Done in Hrun as (ind & Hind & Hrun).
  apply bind_Done in Hrun as (c0 & Hc0 & Hrun).
  apply bind_Done in Hrun as (c1 & Hc1 & Hrun).
  injection Hrun as <-.
  apply newArray_inv in Hind as [Hgg ->]. apply newArray_inv in Hc0 as [HN ->].
  assert (- 2 ^ 31 < g - 1) as Hlow by nia.
  destruct (guard_passes_inv (g - 1) ltac:(lia) Hguard) as [H0 | (n & Hn & Hpow)].
  { exfalso. rewrite H0 in HN. lia. }
  exists n. split; [exact Hn|]. split; [lia|].
  pose proof (pow2_pos n) as Hp. rewrite Hpow in *. set (T := 2 ^ Z.of_nat n) in *.
  unfold gridOf. cbn [gridSize numTriangles numParentTriangles indices coords].
  fold T. replace g with (T + 1) by lia.
  split; [reflexivity|]. split; [reflexivity|]. split; [lia|].
  split; [rewrite length_replicate; lia|].
  destruct (fill_table T (Z.to_nat (T * T * 2 - 2))
              (replicate (Z.to_nat ((T * T * 2 - 2) * 4)) 0)) as (c' & Hrun & _ & Htab).
  { rewrite length_replicate. lia. }
  rewrite Z2Nat.id in Hrun, Htab by lia.
  rewrite Hrun in Hc1. injection Hc1 as <-. exact Htab.
Qed.

Lemma Martini_new_total (n : nat) :
  (n <= 15)%nat -> exists m, Martini_new (2 ^ Z.of_nat n + 1) = Done m.
Proof.
  intros Hn. pose proof (pow2_pos n) as Hp.
  assert (2 ^ Z.of_nat n <= 2 ^ Z.of_nat 15) as Hle by (apply pow2_le; exact Hn).
  change (2 ^ Z.of_nat 15) with (2 ^ 15) in Hle.
  unfold Martini_new. cbn zeta.
  replace (2 ^ Z.of_nat n + 1 - 1) with (2 ^ Z.of_nat n) by lia.
  rewrite guard_pow2 by lia. set (T := 2 ^ Z.of_nat n) in *.
  assert (T * T <= 2 ^ 15 * 2 ^ 15) by (apply Z.mul_le_mono_nonneg; lia).
  rewrite !newArray_Done by nia. cbn [bind].
  destruct (fill_table T (Z.to_nat (T * T * 2 - 2))
              (replicate (Z.to_nat ((T * T * 2 - 2) * 4)) 0)) as (c' & Hrun & _ & _).
  { rewrite length_replicate. nia. }
  rewrite Z2Nat.id in Hrun by nia. rewrite Hrun. cbn [bind]. eauto.
Qed.

(** ** Reading the table back *)

Lemma pixel_range T p :
  0 <= T -> inGrid T p -> 0 <= pixel (T + 1) p < (T + 1) * (T + 1).
Proof. destruct p as [x y]. unfold inGrid, pixel. cbn [fst snd]. nia. Qed.

Lemma pixel_inj T p q :
  inGrid T p -> inGrid T q -> pixel (T + 1) p = pixel (T + 1) q -> p = q.
Proof.
  destruct p as [x y], q as [x' y']. unfold inGrid, pixel. cbn [fst snd].
  intros Hp Hq H. assert (y = y') by nia. subst y'. f_equal. lia.
Qed.

Lemma corners_inGrid T t : inTile T t <-> Forall (inGrid T) (corners t).
Proof.
  destruct t as [ax ay bx by_ cx cy]. unfold inTile, corners, inGrid.
  rewrite !Forall_cons, Forall_nil. cbn [fst snd]. tauto.
Qed.

Section Grid.
Variable n : nat.
Hypothesis n_fits : (n <= 15)%nat.
Variable m : Martini.
Hypothesis m_grid : gridOf n m.

#[local] Abbreviation T := (2 ^ Z.of_nat n).

Lemma table_entry i :
  0 <= i < numTriangles m ->
  exists ax ay bx by_ cx cy,
    triangleOf T i = Tri ax ay bx by_ cx cy /\
    get (coords m) (i * 4 + 0) = Done ax /\
    get (coords m) (i * 4 + 1) = Done ay /\
    get (coords m) (i * 4 + 2) = Done bx /\
    get (coords m) (i * 4 + 3) = Done by_ /\
    inTile T (Tri ax ay bx by_ cx cy) /\
    shape (rankOf n i) (Tri ax ay bx by_ cx cy) /\
    apex ax ay bx by_ = (cx, cy).
Proof.
  destruct m_grid as (Hsize & HN & HP & Hind & Htab). intros Hi.
  pose proof (T_bounds n n_fits T eq_refl) as HT.
  rewrite HN in Hi.
  destruct (Htab i Hi) as (ax & ay & bx & by_ & cx & cy & Ht & G0 & G1 & G2 & G3).
  destruct (triangleOf_shape n n_fits T eq_refl i Hi) as [Hin Hsh].
  rewrite Ht in Hin, Hsh.
  exists ax, ay, bx, by_, cx, cy.
  pose proof Hin as Hin'. cbn [inTile] in Hin'.
  rewrite !toUint16_small in * by lia.
  repeat (split; [assumption|]).
  pose proof (rankOf_bounds n n_fits T eq_refl i Hi) as Hr.
  destruct (rankOf n i) as [|k] eqn:Hk; [lia|].
  apply (shape_apex T ltac:(lia) k); assumption.
Qed.

Lemma readTriangle_table i :
  0 <= i < numTriangles m -> readTriangle (coords m) i = Done (triangleOf T i).
Proof.
  intros Hi.
  destruct (table_entry i Hi)
    as (ax & ay & bx & by_ & cx & cy & Ht & G0 & G1 & G2 & G3 & _ & _ & Hc).
  unfold readTriangle. cbn zeta. rewrite G0, G1, G2, G3. cbn [bind].
  rewrite Hc, Ht. reflexivity.
Qed.
End Grid.

Lemma get_insert_cases {A} (arr : list A) i p v e :
  0 <= i < Z.of_nat (length arr) ->
  get (<[Z.to_nat i := v]> arr) p = Done e ->
  (p = i /\ e = v) \/ (p <> i /\ get arr p = Done e).
Proof.
  intros Hi Hget. destruct (Z.eq_dec p i) as [->|Hne].
  - left. rewrite get_insert_eq in Hget by lia. injection Hget as <-. auto.
  - right. split; [exact Hne|].
    apply get_Done in Hget as Hp. rewrite get_insert_ne in Hget by lia. exact Hget.
Qed.

(** ** Invariants of a downward loop *)

Lemma sweep_invariant {St} (Inv : Z -> St -> Prop) (body : Z -> St -> outcome St)
  (K : nat) :
  (forall k s, 0 <= k < Z.of_nat K -> Inv (k + 1) s ->
               exists s', body k s = Done s' /\ Inv k s') ->
  forall s, Inv (Z.of_nat K) s ->
    exists s', forEach body (reverse (seqZ 0 (Z.of_nat K))) s = Done s' /\ Inv 0 s'.
Proof.
  induction K as [|K IH]; intros Hstep s Hinv.
  - exists s. split; [reflexivity | exact Hinv].
  - rewrite seqZ_S, reverse_app. cbn [reverse rev_append app forEach].
    rewrite Z.add_0_l.
    destruct (Hstep (Z.of_nat K) s ltac:(lia)) as (s1 & Hs1 & Hinv1).
    { replace (Z.of_nat K + 1) with (Z.of_nat (S K)) by lia. exact Hinv. }
    rewrite Hs1. cbn [bind]. apply IH; [|exact Hinv1].
    intros k s0 Hk. apply Hstep. lia.
Qed.

(** ** One step of the error sweep *)

Section Sweep.
Variable n : nat.
Hypothesis n_fits : (n <= 15)%nat.
Variable m : Martini.
Hypothesis m_grid : gridOf n m.
Variable terrain : list Q.
Hypothesis terrain_size :
  Z.of_nat (length terrain) = gridSize m * gridSize m.

#[local] Abbreviation T := (2 ^ Z.of_nat n).
#[local] Abbreviation size := (2 ^ Z.of_nat n + 1).

(** the three pixels a step touches *)
#[local] Abbreviation middle i := (pixel size (mid (triangleOf T i))).
#[local] Abbreviation leftChild i := (pixel size (mid (firstHalf (triangleOf T i)))).
#[local] Abbreviation rightChild i := (pixel size (mid (secondHalf (triangleOf T i)))).

Lemma middle_class i :
  0 <= i < numTriangles m ->
  midClass (rankOf n i) (mid (triangleOf T i)) /\ inGrid T (mid (triangleOf T i)).
Proof.
  intros Hi. destruct m_grid as (Hsize & HN & HP & Hind & Htab).
  pose proof (T_bounds n n_fits T eq_refl) as HT. rewrite HN in Hi.
  destruct (triangleOf_shape n n_fits T eq_refl i Hi) as [Hin Hsh].
  pose proof (rankOf_bounds n n_fits T eq_refl i Hi) as Hr.
  split; [|apply mid_inGrid; [lia | assumption]].
  destruct (rankOf n i) as [|k]; [lia|].
  apply (shape_mid_class T ltac:(lia)); assumption.
Qed.

Lemma children_class i :
  0 <= i < numParentTriangles m ->
  (midClass (rankOf n i - 1) (mid (firstHalf (triangleOf T i))) /\
   inGrid T (mid (firstHalf (triangleOf T i)))) /\
  (midClass (rankOf n i - 1) (mid (secondHalf (triangleOf T i))) /\
   inGrid T (mid (secondHalf (triangleOf T i)))).
Proof.
  intros Hi. destruct m_grid as (Hsize & HN & HP & Hind & Htab).
  pose proof (T_bounds n n_fits T eq_refl) as HT. rewrite HP in Hi.
  destruct (triangleOf_shape n n_fits T eq_refl i ltac:(lia)) as [Hin Hsh].
  pose proof (rankOf_parent n n_fits T eq_refl i ltac:(lia) ltac:(lia)) as Hr.
  destruct (rankOf n i) as [|[|k]]; [lia | lia |].
  destruct (shape_halves T ltac:(lia) _ _ Hin Hsh) as [Hs1 Hs2].
  destruct (halves_inTile T ltac:(lia) _ Hin) as [Hi1 Hi2].
  replace (S (S k) - 1)%nat with (S k) by lia.
  split; (split; [apply (shape_mid_class T ltac:(lia)); assumption
                 | apply mid_inGrid; [lia | assumption]]).
Qed.

(** a child's middle is never the middle of a triangle the sweep still
    has to visit *)
Lemma child_not_middle i j :
  0 <= j <= i -> i < numParentTriangles m ->
  leftChild i <> middle j /\ rightChild i <> middle j.
Proof.
  intros Hj Hi. destruct m_grid as (Hsize & HN & HP & Hind & Htab).
  destruct (children_class i ltac:(lia)) as [[Hl Hli] [Hr Hri]].
  destruct (middle_class j ltac:(lia)) as [Hm Hmi].
  pose proof (rankOf_mono n n_fits i j Hj) as Hmono.
  pose proof (rankOf_parent n n_fits T eq_refl i ltac:(lia) ltac:(lia)) as Hrk.
  split; intros Heq; apply pixel_inj in Heq; try assumption.
  - rewrite Heq in Hl. pose proof (midClass_disjoint _ _ _ Hl Hm). lia.
  - rewrite Heq in Hr. pose proof (midClass_disjoint _ _ _ Hr Hm). lia.
Qed.

Lemma updateStep_spec (E : list Q) i :
  Z.of_nat (length E) = size * size ->
  0 <= i < numTriangles m ->
  exists ta tb tm e0 : Q,
    (exists ax ay bx by_ cx cy,
       triangleOf T i = Tri ax ay bx by_ cx cy /\
       get terrain (pixel size (ax, ay)) = Done ta /\
       get terrain (pixel size (bx, by_)) = Done tb) /\
    get terrain (middle i) = Done tm /\
    get E (middle i) = Done e0 /\
    let middleError := Qabs ((ta + tb) / 2 - tm)%Q in
    if i <? numParentTriangles m then
      exists el er : Q,
        get E (leftChild i) = Done el /\ get E (rightChild i) = Done er /\
        updateStep m terrain i E =
        Done (<[Z.to_nat (middle i) := Qmax (Qmax (Qmax e0 middleError) el) er]> E)
    else
      updateStep m terrain i E =
      Done (<[Z.to_nat (middle i) := Qmax e0 middleError]> E).
Proof.
  intros HE Hi. pose proof m_grid as (Hsize & HN & HP & Hind & Htab).
  pose proof (T_bounds n n_fits T eq_refl) as HT.
  rewrite Hsize in terrain_size.
  destruct (table_entry n n_fits m m_grid i Hi)
    as (ax & ay & bx & by_ & cx & cy & Ht & G0 & G1 & G2 & G3 & Hin & Hsh & Hc).
  destruct (middle_class i Hi) as [_ Hmid]. rewrite Ht in Hmid.
  pose proof (pixel_range T _ ltac:(lia) Hmid) as HM.
  apply corners_inGrid in Hin as Hcs. cbn [corners] in Hcs.
  rewrite !Forall_cons in Hcs. destruct Hcs as (Ha & Hb & Hcc & _).
  pose proof (pixel_range T _ ltac:(lia) Ha) as HA.
  pose proof (pixel_range T _ ltac:(lia) Hb) as HB.
  destruct (get_in_range terrain (pixel size (ax, ay)) ltac:(lia)) as [ta Hta].
  destruct (get_in_range terrain (pixel size (bx, by_)) ltac:(lia)) as [tb Htb].
  destruct (get_in_range terrain (pixel size (mid (Tri ax ay bx by_ cx cy))) ltac:(lia))
    as [tm Htm].
  destruct (get_in_range E (pixel size (mid (Tri ax ay bx by_ cx cy))) ltac:(lia))
    as [e0 He0].
  exists ta, tb, tm, e0. rewrite Ht.
  split; [exists ax, ay, bx, by_, cx, cy; auto|]. split; [assumption|].
  split; [assumption|]. cbn zeta.
  unfold updateStep. cbn zeta. rewrite G0, G1, G2, G3. cbn [bind].
  rewrite Hsize. unfold pixel, mid in *. cbn [fst snd] in *.
  rewrite Hta, Htb. cbn [bind]. rewrite Htm. cbn [bind]. rewrite He0. cbn [bind].
  rewrite set_Done by lia. cbn [bind].
  destruct (Z.ltb_spec i (numParentTriangles m)) as [Hpar|Hleaf]; [|reflexivity].
  destruct (children_class i ltac:(lia)) as [[_ Hli] [_ Hri]].
  destruct (child_not_middle i i ltac:(lia) Hpar) as [Hln Hrn].
  rewrite Ht in Hli, Hri, Hln, Hrn.
  pose proof (pixel_range T _ ltac:(lia) Hli) as HL.
  pose proof (pixel_range T _ ltac:(lia) Hri) as HR.
  unfold apex in Hc. injection Hc as Hcx Hcy.
  unfold pixel, mid, firstHalf, secondHalf in *. cbn [fst snd] in *.
  destruct (get_in_range E _ ltac:(rewrite HE; exact HL)) as [el Hel].
  destruct (get_in_range E _ ltac:(rewrite HE; exact HR)) as [er Her].
  exists el, er. split; [assumption|]. split; [assumption|].
  rewrite Hcx, Hcy.
  rewrite get_insert_eq by lia. cbn [bind].
  rewrite (Z.add_comm ay cy), (Z.add_comm ax cx).
  rewrite get_insert_ne by lia. rewrite Hel. cbn [bind].
  rewrite get_insert_ne by lia. rewrite Her. cbn [bind].
  rewrite set_Done by (rewrite length_insert; lia).
  rewrite list_insert_insert_eq. reflexivity.
Qed.

(** what a step does to the error field, in the terms the invariants use *)
Lemma updateStep_effect (E : list Q) i :
  Z.of_nat (length E) = size * size ->
  0 <= i < numTriangles m ->
  exists e0 v : Q,
    0 <= middle i < size * size /\
    get E (middle i) = Done e0 /\
    updateStep m terrain i E = Done (<[Z.to_nat (middle i) := v]> E) /\
    (e0 <= v)%Q /\
    (i < numParentTriangles m ->
     exists el er : Q,
       get E (leftChild i) = Done el /\ get E (rightChild i) = Done er /\
       (el <= v)%Q /\ (er <= v)%Q) /\
    (forall h : Q,
       (forall p t, get terrain p = Done t -> (t == h)%Q) ->
       (forall p e, get E p = Done e -> (e == 0)%Q) ->
       (v == 0)%Q).
Proof.
  intros HE Hi.
  destruct (updateStep_spec E i HE Hi)
    as (ta & tb & tm & e0 & (ax & ay & bx & by_ & cx & cy & Ht & Hta & Htb) & Htm & He0 & Hrun).
  cbn zeta in Hrun.
  destruct (middle_class i Hi) as [_ Hmid].
  pose proof (T_bounds n n_fits T eq_refl) as HT.
  pose proof (pixel_range T _ ltac:(lia) Hmid) as HM.
  assert (forall h : Q,
    (forall p t, get terrain p = Done t -> (t == h)%Q) ->
    (Qabs ((ta + tb) / 2 - tm) == 0)%Q) as Hflat.
  { intros h Hh.
    assert ((ta + tb) / 2 - tm == 0)%Q as H0.
    { rewrite (Hh _ _ Hta), (Hh _ _ Htb), (Hh _ _ Htm). field. }
    rewrite (Qabs_wd _ _ H0). reflexivity. }
  destruct (Z.ltb_spec i (numParentTriangles m)) as [Hpar|Hleaf].
  - destruct Hrun as (el & er & Hel & Her & Hrun).
    exists e0, (Qmax (Qmax (Qmax e0 (Qabs ((ta + tb) / 2 - tm))) el) er).
    split; [exact HM|]. split; [exact He0|]. split; [exact Hrun|].
    split.
    { eapply Qle_trans; [|apply Q.le_max_l].
      eapply Qle_trans; [|apply Q.le_max_l]. apply Q.le_max_l. }
    split.
    { intros _. exists el, er. split; [exact Hel|]. split; [exact Her|].
      split; [|apply Q.le_max_r].
      eapply Qle_trans; [|apply Q.le_max_l]. apply Q.le_max_r. }
    intros h Hh HE0.
    rewrite (Hflat h Hh), (HE0 _ _ He0), (HE0 _ _ Hel), (HE0 _ _ Her).
    reflexivity.
  - exists e0, (Qmax e0 (Qabs ((ta + tb) / 2 - tm))).
    split; [exact HM|]. split; [exact He0|]. split; [exact Hrun|].
    split; [apply Q.le_max_l|]. split; [lia|].
    intros h Hh HE0. rewrite (Hflat h Hh), (HE0 _ _ He0). reflexivity.
Qed.

(** the sweep keeps the field non-negative and leaves every parent at
    least as large as its two children *)
Lemma update_ordered (E0 : list Q) :
  Z.of_nat (length E0) = size * size ->
  (forall p e, get E0 p = Done e -> (0 <= e)%Q) ->
  exists E,
    update m terrain E0 = Done E /\
    Z.of_nat (length E) = size * size /\
    (forall p e, get E p = Done e -> (0 <= e)%Q) /\
    (forall i, 0 <= i < numParentTriangles m ->
       exists em el er : Q,
         get E (middle i) = Done em /\
         get E (leftChild i) = Done el /\ get E (rightChild i) = Done er /\
         (el <= em)%Q /\ (er <= em)%Q).
Proof.
  intros HE0 Hpos0. pose proof m_grid as (Hsize & HN & HP & Hind & Htab).
  pose proof (T_bounds n n_fits T eq_refl) as HT.
  unfold update. replace (numTriangles m) with (Z.of_nat (Z.to_nat (numTriangles m))) by lia.
  pose (Inv := fun (k : Z) (E : list Q) =>
    Z.of_nat (length E) = size * size /\
    (forall p e, get E p = Done e -> (0 <= e)%Q) /\
    (forall i, k <= i < numParentTriangles m ->
       exists em el er : Q,
         get E (middle i) = Done em /\
         get E (leftChild i) = Done el /\ get E (rightChild i) = Done er /\
         (el <= em)%Q /\ (er <= em)%Q)).
  destruct (sweep_invariant Inv (updateStep m terrain) (Z.to_nat (numTriangles m)))
    with (s := E0) as (E & Hrun & HlenE & HposE & HordE).
  - intros k E Hk (HlenE & HposE & HordE).
    destruct (updateStep_effect E k HlenE ltac:(lia))
      as (e0 & v & HM & He0 & Hrun & Hv & Hch & _).
    exists (<[Z.to_nat (middle k) := v]> E). split; [exact Hrun|].
    split; [rewrite length_insert; exact HlenE|]. split.
    + intros p e Hget.
      destruct (get_insert_cases E (middle k) p v e ltac:(lia) Hget)
        as [[_ ->] | [_ Hget']];
        [|eauto].
      eapply Qle_trans; [|exact Hv]. eauto.
    + intros i Hi.
      destruct (child_not_middle i k ltac:(lia) ltac:(lia)) as [Hln Hrn].
      destruct (children_class i ltac:(lia)) as [[_ Hli] [_ Hri]].
      pose proof (pixel_range T _ ltac:(lia) Hli) as HL.
      pose proof (pixel_range T _ ltac:(lia) Hri) as HR.
      destruct (middle_class i ltac:(lia)) as [_ Hmi].
      pose proof (pixel_range T _ ltac:(lia) Hmi) as HMi.
      rewrite !(get_insert_ne _ _ (leftChild i)) by lia.
      rewrite !(get_insert_ne _ _ (rightChild i)) by lia.
      assert (i = k \/ k + 1 <= i) as [-> | Hgt] by lia.
      * destruct (Hch ltac:(lia)) as (el & er & Hel & Her & Hlv & Hrv).
        exists v, el, er. rewrite get_insert_eq by lia. auto.
      * destruct (HordE i ltac:(lia)) as (em & el & er & Hem & Hel & Her & Hle & Hre).
        destruct (Z.eq_dec (middle i) (middle k)) as [Heq | Hne].
        -- exists v, el, er. rewrite Heq, get_insert_eq by lia.
           rewrite Heq, He0 in Hem. injection Hem as <-.
           repeat (split; [assumption || reflexivity|]).
           split; eapply Qle_trans; eauto.
        -- exists em, el, er. rewrite get_insert_ne by lia. auto.
  - split; [exact HE0|]. split; [exact Hpos0|].
    intros i Hi. lia.
  - exists E. auto.
Qed.

(** the four corner pixels of the tile are never written *)
Lemma update_corners (E0 : list Q) (x y : Z) :
  Z.of_nat (length E0) = size * size ->
  (x = 0 \/ x = T) -> (y = 0 \/ y = T) ->
  exists E,
    update m terrain E0 = Done E /\
    get E (pixel size (x, y)) = get E0 (pixel size (x, y)).
Proof.
  intros HE0 Hx Hy. pose proof m_grid as (Hsize & HN & HP & Hind & Htab).
  pose proof (T_bounds n n_fits T eq_refl) as HT.
  unfold update. replace (numTriangles m) with (Z.of_nat (Z.to_nat (numTriangles m))) by lia.
  pose (Inv := fun (k : Z) (E : list Q) =>
    Z.of_nat (length E) = size * size /\
    get E (pixel size (x, y)) = get E0 (pixel size (x, y))).
  destruct (sweep_invariant Inv (updateStep m terrain) (Z.to_nat (numTriangles m)))
    with (s := E0) as (E & Hrun & HlenE & Hsame).
  - intros k E Hk (HlenE & Hsame).
    destruct (updateStep_effect E k HlenE ltac:(lia))
      as (e0 & v & HM & He0 & Hrun & _).
    exists (<[Z.to_nat (middle k) := v]> E). split; [exact Hrun|].
    split; [rewrite length_insert; exact HlenE|].
    destruct (middle_class k ltac:(lia)) as [Hcl Hmi].
    pose proof (rankOf_bounds n n_fits T eq_refl k ltac:(lia)) as Hr.
    assert (inGrid T (x, y)) as Hxy by (unfold inGrid; cbn [fst snd]; lia).
    pose proof (pixel_range T _ ltac:(lia) Hxy) as Hp.
    rewrite get_insert_ne; [exact Hsame | lia | lia |].
    intros Heq. apply pixel_inj in Heq; [|assumption..].
    rewrite Heq in Hcl.
    exact (midClass_not_corner n _ x y Hcl ltac:(lia) Hx Hy).
  - split; [exact HE0 | reflexivity].
  - exists E. auto.
Qed.

(** on a flat terrain the sweep leaves a zero field zero *)
Lemma update_flat (E0 : list Q) (h : Q) :
  Z.of_nat (length E0) = size * size ->
  (forall p t, get terrain p = Done t -> (t == h)%Q) ->
  (forall p e, get E0 p = Done e -> (e == 0)%Q) ->
  exists E,
    update m terrain E0 = Done E /\
    Z.of_nat (length E) = size * size /\
    (forall p e, get E p = Done e -> (e == 0)%Q).
Proof.
  intros HE0 Hflat Hzero. pose proof m_grid as (Hsize & HN & HP & Hind & Htab).
  pose proof (T_bounds n n_fits T eq_refl) as HT.
  unfold update. replace (numTriangles m) with (Z.of_nat (Z.to_nat (numTriangles m))) by lia.
  pose (Inv := fun (k : Z) (E : list Q) =>
    Z.of_nat (length E) = size * size /\
    (forall p e, get E p = Done e -> (e == 0)%Q)).
  destruct (sweep_invariant Inv (updateStep m terrain) (Z.to_nat (numTriangles m)))
    with (s := E0) as (E & Hrun & HlenE & HzE).
  - intros k E Hk (HlenE & HzE).
    destruct (updateStep_effect E k HlenE ltac:(lia))
      as (e0 & v & HM & He0 & Hrun & _ & _ & Hv).
    exists (<[Z.to_nat (middle k) := v]> E). split; [exact Hrun|].
    split; [rewrite length_insert; exact HlenE|].
    intros p e Hget.
    destruct (get_insert_cases E (middle k) p v e ltac:(lia) Hget)
        as [[_ ->] | [_ Hget']];
      [|eauto].
    exact (Hv h Hflat HzE).
  - split; [exact HE0 | exact Hzero].
  - exists E. auto.
Qed.
End Sweep.

(** ** The two passes run over the same leaves *)

Section Passes.
Variable size : Z.
Variable errors : list Q.
Variable maxError maxScale : Q.

Lemma countElements_leaves fuel : forall t L st,
  leaves size errors maxError maxScale fuel t = Done L ->
  countElements size errors maxError maxScale fuel t st =
  forEach (countLeaf size) L st.
Proof.
  induction fuel as [|fuel IH]; intros t L st HL; [discriminate|].
  cbn [leaves countElements] in *.
  destruct (drillDown size errors maxError maxScale t) as [[|]|f]; cbn [bind] in *;
    [| injection HL as <-; cbn [forEach]; destruct (countLeaf size t st); reflexivity
     | discriminate].
  apply bind_Done in HL as (L1 & HL1 & HL).
  apply bind_Done in HL as (L2 & HL2 & HL). injection HL as <-.
  rewrite forEach_app, (IH _ _ _ HL1).
  destruct (forEach (countLeaf size) L1 st) as [st1|f]; cbn [bind]; [|reflexivity].
  apply IH. exact HL2.
Qed.

Lemma processTriangle_leaves indices fuel : forall t L st,
  leaves size errors maxError maxScale fuel t = Done L ->
  processTriangle size errors maxError maxScale indices fuel t st =
  forEach (fillLeaf size indices) L st.
Proof.
  induction fuel as [|fuel IH]; intros t L st HL; [discriminate|].
  cbn [leaves processTriangle] in *.
  destruct (drillDown size errors maxError maxScale t) as [[|]|f]; cbn [bind] in *;
    [| injection HL as <-; cbn [forEach]; destruct (fillLeaf size indices t st); reflexivity
     | discriminate].
  apply bind_Done in HL as (L1 & HL1 & HL).
  apply bind_Done in HL as (L2 & HL2 & HL). injection HL as <-.
  rewrite forEach_app, (IH _ _ _ HL1).
  destruct (forEach (fillLeaf size indices) L1 st) as [st1|f]; cbn [bind]; [|reflexivity].
  apply IH. exact HL2.
Qed.

Lemma leaves_more_fuel fuel : forall fuel' t L,
  (fuel <= fuel')%nat ->
  leaves size errors maxError maxScale fuel t = Done L ->
  leaves size errors maxError maxScale fuel' t = Done L.
Proof.
  induction fuel as [|fuel IH]; intros fuel' t L Hle HL; [discriminate|].
  destruct fuel' as [|fuel']; [lia|].
  cbn [leaves] in *.
  destruct (drillDown size errors maxError maxScale t) as [[|]|f]; cbn [bind] in *;
    [| exact HL | discriminate].
  apply bind_Done in HL as (L1 & HL1 & HL).
  apply bind_Done in HL as (L2 & HL2 & HL). injection HL as <-.
  rewrite (IH fuel' _ _ ltac:(lia) HL1), (IH fuel' _ _ ltac:(lia) HL2). reflexivity.
Qed.

(** every corner of a triangle is a corner of one of its leaves *)
Lemma corners_kept fuel : forall t L,
  leaves size errors maxError maxScale fuel t = Done L ->
  L <> [] /\ forall v, v ∈ corners t -> exists t', t' ∈ L /\ v ∈ corners t'.
Proof.
  induction fuel as [|fuel IH]; intros t L HL; [discriminate|].
  cbn [leaves] in HL.
  destruct (drillDown size errors maxError maxScale t) as [[|]|f]; cbn [bind] in HL;
    [| injection HL as <- | discriminate].
  - apply bind_Done in HL as (L1 & HL1 & HL).
    apply bind_Done in HL as (L2 & HL2 & HL). injection HL as <-.
    destruct (IH _ _ HL1) as [Hne1 Hc1]. destruct (IH _ _ HL2) as [Hne2 Hc2].
    split; [destruct L1; [congruence | discriminate]|].
    intros v Hv. destruct t as [ax ay bx by_ cx cy].
    cbn [corners firstHalf secondHalf] in *.
    rewrite !elem_of_cons in Hv. destruct Hv as [-> | [-> | [-> | Hv]]].
    + destruct (Hc1 (ax, ay)) as (t' & Ht' & Hv'); [rewrite !elem_of_cons; auto|].
      exists t'. split; [apply elem_of_app; auto | exact Hv'].
    + destruct (Hc2 (bx, by_)) as (t' & Ht' & Hv'); [rewrite !elem_of_cons; auto|].
      exists t'. split; [apply elem_of_app; auto | exact Hv'].
    + destruct (Hc1 (cx, cy)) as (t' & Ht' & Hv'); [rewrite !elem_of_cons; auto|].
      exists t'. split; [apply elem_of_app; auto | exact Hv'].
    + inversion Hv.
  - split; [discriminate|]. intros v Hv. exists t.
    split; [apply list_elem_of_singleton; reflexivity | exact Hv].
Qed.
End Passes.

(** ** The traversal stops *)

Lemma legOf_0 : legOf 0 = 1.
Proof. reflexivity. Qed.

Lemma legOf_S k : 2 <= legOf (S k).
Proof.
  unfold legOf. destruct ((S k + 1) / 2)%nat as [|e] eqn:He.
  - exfalso. assert (S k + 1 < 2)%nat; [|lia].
    apply Nat.div_small_iff; [lia | exact He].
  - rewrite pow2_S. pose proof (pow2_pos e). lia.
Qed.

Lemma Qgtb_true x y : Qgtb x y = true <-> (y < x)%Q.
Proof.
  unfold Qgtb. rewrite negb_true_iff. split.
  - intros H. apply Qnot_le_lt. intros Hle. apply Qle_bool_iff in Hle. congruence.
  - intros H. destruct (Qle_bool x y) eqn:E; [|reflexivity].
    apply Qle_bool_iff in E. exfalso. exact (Qlt_not_le _ _ H E).
Qed.

Lemma Qgtb_false x y : Qgtb x y = false <-> (x <= y)%Q.
Proof.
  unfold Qgtb. rewrite negb_false_iff. apply Qle_bool_iff.
Qed.

Section Traversal.
Variable T : Z.
Hypothesis T_fits : 0 <= T <= 2 ^ 15.
Variable errors : list Q.
Hypothesis errors_size : Z.of_nat (length errors) = (T + 1) * (T + 1).
Variable maxError maxScale : Q.

Lemma drillDown_shape k t :
  inTile T t -> shape k t ->
  exists e : Q,
    get errors (pixel (T + 1) (mid t)) = Done e /\
    drillDown (T + 1) errors maxError maxScale t =
    Done ((1 <? legOf k) && Qgtb e maxError || Qgtb (inject_Z (legOf k)) maxScale).
Proof.
  intros Hin Hsh.
  pose proof (mid_inGrid T T_fits t Hin) as Hmid.
  pose proof (pixel_range T _ ltac:(lia) Hmid) as Hp.
  destruct (get_in_range errors (pixel (T + 1) (mid t)) ltac:(lia)) as [e He].
  exists e. split; [exact He|].
  destruct t as [ax ay bx by_ cx cy]. unfold drillDown. cbn zeta.
  rewrite (shape_legLength k _ _ _ _ _ _ Hsh).
  unfold pixel, mid in He. cbn [fst snd] in He.
  destruct (1 <? legOf k); cbn [andb orb bind]; [|reflexivity].
  rewrite He. reflexivity.
Qed.

Lemma leaves_total (Hscale : (1 <= maxScale)%Q) fuel : forall k t,
  (k < fuel)%nat -> inTile T t -> shape k t ->
  exists L,
    leaves (T + 1) errors maxError maxScale fuel t = Done L /\
    Forall (inTile T) L /\
    Z.of_nat (length L) <= 2 ^ Z.of_nat k.
Proof.
  induction fuel as [|fuel IH]; intros k t Hk Hin Hsh; [lia|].
  cbn [leaves].
  destruct (drillDown_shape k t Hin Hsh) as (e & _ & ->). cbn [bind].
  destruct ((1 <? legOf k) && Qgtb e maxError || Qgtb (inject_Z (legOf k)) maxScale)
    eqn:Hdown.
  - destruct k as [|k].
    { exfalso. rewrite legOf_0 in Hdown. cbn [andb orb] in Hdown.
      change (1 <? 1) with false in Hdown. cbn [andb orb] in Hdown.
      apply Qgtb_true in Hdown. exact (Qlt_not_le _ _ Hdown Hscale). }
    destruct (shape_halves T T_fits _ _ Hin Hsh) as [Hs1 Hs2].
    destruct (halves_inTile T T_fits _ Hin) as [Hi1 Hi2].
    destruct (IH k _ ltac:(lia) Hi1 Hs1) as (L1 & -> & HF1 & Hc1).
    destruct (IH k _ ltac:(lia) Hi2 Hs2) as (L2 & -> & HF2 & Hc2).
    cbn [bind]. eexists. split; [reflexivity|].
    split; [apply Forall_app; auto|].
    rewrite length_app, pow2_S. lia.
  - exists [t]. split; [reflexivity|]. split; [apply Forall_singleton; exact Hin|].
    pose proof (pow2_pos k). cbn [length]. lia.
Qed.

(** with a negative [maxScale] the recursion never reaches a leaf *)
Lemma countElements_diverges (Hscale : (maxScale < 0)%Q) fuel : forall t st,
  inTile T t ->
  countElements (T + 1) errors maxError maxScale fuel t st = Fail OutOfFuel.
Proof.
  induction fuel as [|fuel IH]; intros t st Hin; [reflexivity|].
  cbn [countElements].
  assert (drillDown (T + 1) errors maxError maxScale t = Done true) as ->.
  { pose proof (mid_inGrid T T_fits t Hin) as Hmid.
    pose proof (pixel_range T _ ltac:(lia) Hmid) as Hp.
    destruct (get_in_range errors (pixel (T + 1) (mid t)) ltac:(lia)) as [e He].
    destruct t as [ax ay bx by_ cx cy]. unfold drillDown. cbn zeta.
    unfold pixel, mid in He. cbn [fst snd] in He.
    assert (Qgtb (inject_Z (Z.abs (ax - cx) + Z.abs (ay - cy))) maxScale = true) as ->.
    { apply Qgtb_true. eapply Qlt_le_trans; [exact Hscale|].
      change 0%Q with (inject_Z 0). rewrite <- Zle_Qle. lia. }
    destruct (1 <? Z.abs (ax - cx) + Z.abs (ay - cy)); cbn [bind];
      [rewrite He; cbn [bind]|]; rewrite orb_true_r; reflexivity. }
  cbn [bind]. destruct (halves_inTile T T_fits _ Hin) as [Hi1 _].
  rewrite (IH _ st Hi1). reflexivity.
Qed.
End Traversal.

(** ** Places in the list of vertices *)

Lemma indexOf_range v l : 0 <= indexOf v l <= Z.of_nat (length l).
Proof.
  induction l as [|w l IH]; cbn [indexOf length]; [lia|].
  destruct (decide (v = w)); lia.
Qed.

Lemma indexOf_elem v l : v ∈ l -> indexOf v l < Z.of_nat (length l).
Proof.
  induction l as [|w l IH]; cbn [indexOf length]; intros H.
  - inversion H.
  - destruct (decide (v = w)); [lia|].
    apply elem_of_cons in H as [->|H]; [congruence|]. specialize (IH H). lia.
Qed.

Lemma indexOf_app_l v l l' : v ∈ l -> indexOf v (l ++ l') = indexOf v l.
Proof.
  induction l as [|w l IH]; cbn [indexOf app]; intros H.
  - inversion H.
  - destruct (decide (v = w)); [reflexivity|].
    apply elem_of_cons in H as [->|H]; [congruence|]. rewrite IH by exact H. reflexivity.
Qed.

Lemma indexOf_app_new v l : v ∉ l -> indexOf v (l ++ [v]) = Z.of_nat (length l).
Proof.
  induction l as [|w l IH]; cbn [indexOf app length]; intros H.
  - destruct (decide (v = v)); [reflexivity | congruence].
  - apply not_elem_of_cons in H as [Hne H].
    destruct (decide (v = w)); [congruence|]. rewrite IH by exact H. lia.
Qed.

Lemma indexOf_lookup v l : v ∈ l -> l !! Z.to_nat (indexOf v l) = Some v.
Proof.
  induction l as [|w l IH]; cbn [indexOf]; intros H.
  - inversion H.
  - destruct (decide (v = w)) as [->|Hne]; [reflexivity|].
    apply elem_of_cons in H as [->|H]; [congruence|].
    pose proof (indexOf_range v l).
    replace (Z.to_nat (1 + indexOf v l)) with (S (Z.to_nat (indexOf v l))) by lia.
    exact (IH H).
Qed.

Lemma lookup_indexOf l : forall (k : nat) v,
  NoDup l -> l !! k = Some v -> indexOf v l = Z.of_nat k.
Proof.
  induction l as [|w l IH]; intros k v Hnd Hk; [discriminate|].
  apply NoDup_cons in Hnd as [Hw Hnd]. cbn [indexOf].
  destruct k as [|k]; cbn in Hk.
  - injection Hk as ->. destruct (decide (v = v)); [reflexivity | congruence].
  - destruct (decide (v = w)) as [->|Hne].
    + exfalso. apply Hw. eapply list_elem_of_lookup_2. exact Hk.
    + rewrite (IH k v Hnd Hk). lia.
Qed.

Lemma indexOf_inj v w l : v ∈ l -> w ∈ l -> indexOf v l = indexOf w l -> v = w.
Proof.
  intros Hv Hw Heq. apply indexOf_lookup in Hv, Hw. rewrite Heq in Hv. congruence.
Qed.

(** a duplicate-free list of pixels of the grid has at most
    [(T + 1) * (T + 1)] items *)
Lemma grid_count T (l : list point) :
  0 <= T -> NoDup l -> Forall (inGrid T) l ->
  Z.of_nat (length l) <= (T + 1) * (T + 1).
Proof.
  intros HT Hnd Hin.
  assert (NoDup (pixel (T + 1) <$> l)) as Hnd'.
  { apply NoDup_fmap_2_strong; [|exact Hnd].
    intros p q Hp Hq. rewrite Forall_forall in Hin.
    apply pixel_inj; auto. }
  assert (pixel (T + 1) <$> l ⊆+ seqZ 0 ((T + 1) * (T + 1))) as Hsub.
  { apply NoDup_submseteq; [exact Hnd'|].
    intros z Hz. apply list_elem_of_fmap in Hz as (p & -> & Hp).
    rewrite Forall_forall in Hin. apply elem_of_seqZ.
    pose proof (pixel_range T p HT (Hin p Hp)). lia. }
  apply submseteq_length in Hsub. rewrite length_fmap, length_seqZ in Hsub. lia.
Qed.

(** ** Pass 1 numbers the vertices in the order of first use *)

Section Pass1.
Variable T : Z.
Hypothesis T_fits : 0 <= T <= 2 ^ 15.

Lemma grid_fits32 : (T + 1) * (T + 1) < 2 ^ 32.
Proof.
  assert ((T + 1) * (T + 1) <= (2 ^ 15 + 1) * (2 ^ 15 + 1))
    by (apply Z.mul_le_mono_nonneg; lia).
  lia.
Qed.

Lemma useVertex_spec seen ind nt x y :
  indexed T seen ind -> inGrid T (x, y) ->
  exists ind',
    useVertex (T + 1) x y (mkCounts ind (Z.of_nat (length seen)) nt) =
    Done (mkCounts ind' (Z.of_nat (length (addVertex seen (x, y)))) nt) /\
    indexed T (addVertex seen (x, y)) ind'.
Proof.
  intros (Hlen & Hnd & Hall & Hget) Hp.
  pose proof grid_fits32 as H32.
  pose proof (pixel_range T _ ltac:(lia) Hp) as Hpos.
  pose proof (grid_count T seen ltac:(lia) Hnd Hall) as Hcount.
  unfold useVertex. cbn zeta. cbn [cnt_indices cnt_numVertices cnt_numTriangles].
  change (y * (T + 1) + x) with (pixel (T + 1) (x, y)).
  rewrite (Hget _ Hp). cbn [bind]. unfold addVertex.
  destruct (decide ((x, y) ∈ seen)) as [Hin | Hout];
    [rewrite !decide_True by exact Hin | rewrite !decide_False by exact Hout].
  - pose proof (indexOf_range (x, y) seen) as Hr.
    pose proof (indexOf_elem (x, y) seen Hin) as Hr'.
    replace (truthy (indexOf (x, y) seen + 1)) with true
      by (unfold truthy; destruct (Z.eqb_spec (indexOf (x, y) seen + 1) 0); [lia | reflexivity]).
    unfold set32. rewrite toUint32_small by lia. rewrite set_Done by lia. cbn [bind].
    exists ind. split.
    + rewrite list_insert_id; [reflexivity|].
      pose proof (Hget _ Hp) as Hg. rewrite decide_True in Hg by exact Hin.
      apply get_Done in Hg as [_ Hg]. exact Hg.
    + repeat split; assumption.
  - change (truthy 0) with false. cbv iota.
    assert (NoDup (seen ++ [(x, y)])) as Hnd'.
    { apply NoDup_app. split; [exact Hnd|]. split; [|apply NoDup_singleton].
      intros q Hq Hq'. apply list_elem_of_singleton in Hq' as ->. contradiction. }
    assert (Forall (inGrid T) (seen ++ [(x, y)])) as Hall'.
    { apply Forall_app. split; [exact Hall | apply Forall_singleton; exact Hp]. }
    pose proof (grid_count T _ ltac:(lia) Hnd' Hall') as Hcount'.
    rewrite length_app in Hcount'. cbn [length] in Hcount'.
    unfold set32. rewrite toUint32_small by lia. rewrite set_Done by lia. cbn [bind].
    eexists. split.
    + rewrite length_app. cbn [length]. do 2 f_equal. lia.
    + split; [rewrite length_insert; exact Hlen|]. split; [exact Hnd'|].
      split; [exact Hall'|]. intros q Hq.
      pose proof (pixel_range T _ ltac:(lia) Hq) as Hqpos.
      destruct (decide (q = (x, y))) as [->|Hne].
      * rewrite get_insert_eq by lia.
        rewrite decide_True by (apply elem_of_app; right; apply list_elem_of_singleton; reflexivity).
        rewrite indexOf_app_new by exact Hout. reflexivity.
      * rewrite get_insert_ne; [| lia | lia |].
        2:{ intros Heq. apply Hne. symmetry. apply (pixel_inj T); assumption. }
        rewrite (Hget _ Hq).
        destruct (decide (q ∈ seen)) as [Hqin | Hqout].
        -- rewrite decide_True by (apply elem_of_app; left; exact Hqin).
           rewrite indexOf_app_l by exact Hqin. reflexivity.
        -- rewrite decide_False; [reflexivity|].
           intros Hq'. apply elem_of_app in Hq' as [Hq' | Hq']; [contradiction|].
           apply list_elem_of_singleton in Hq'. contradiction.
Qed.

Lemma countLeaf_spec seen ind nt t :
  indexed T seen ind -> inTile T t ->
  exists ind',
    countLeaf (T + 1) t (mkCounts ind (Z.of_nat (length seen)) nt) =
    Done (mkCounts ind' (Z.of_nat (length (addCorners seen t))) (nt + 1)) /\
    indexed T (addCorners seen t) ind'.
Proof.
  intros Hind Hin. apply corners_inGrid in Hin.
  destruct t as [ax ay bx by_ cx cy]. cbn [corners] in Hin.
  rewrite !Forall_cons in Hin. destruct Hin as (Ha & Hb & Hc & _).
  unfold countLeaf, addCorners. cbn [corners foldl].
  destruct (useVertex_spec seen ind nt ax ay Hind Ha) as (i1 & -> & Hi1). cbn [bind].
  destruct (useVertex_spec _ i1 nt bx by_ Hi1 Hb) as (i2 & -> & Hi2). cbn [bind].
  destruct (useVertex_spec _ i2 nt cx cy Hi2 Hc) as (i3 & -> & Hi3). cbn [bind].
  exists i3. split; [reflexivity | exact Hi3].
Qed.

Lemma pass1_spec (L : list tri) : forall seen ind nt,
  indexed T seen ind -> Forall (inTile T) L ->
  exists ind',
    forEach (countLeaf (T + 1)) L (mkCounts ind (Z.of_nat (length seen)) nt) =
    Done (mkCounts ind' (Z.of_nat (length (seenAfter seen L)))
                   (nt + Z.of_nat (length L))) /\
    indexed T (seenAfter seen L) ind'.
Proof.
  induction L as [|t L IH]; intros seen ind nt Hind HL.
  - exists ind. cbn [forEach seenAfter foldl length]. rewrite Z.add_0_r. auto.
  - apply Forall_cons in HL as [Ht HL]. cbn [forEach seenAfter foldl].
    destruct (countLeaf_spec seen ind nt t Hind Ht) as (i1 & -> & Hi1). cbn [bind].
    destruct (IH _ i1 (nt + 1) Hi1 HL) as (i2 & -> & Hi2).
    exists i2. split; [|exact Hi2]. cbn [length]. do 2 f_equal. lia.
Qed.

Lemma indexed_empty (len : nat) :
  Z.of_nat len = (T + 1) * (T + 1) -> indexed T [] (replicate len 0).
Proof.
  intros Hlen. split; [rewrite length_replicate; exact Hlen|].
  split; [apply NoDup_nil_2|]. split; [apply Forall_nil_2|].
  intros p Hp. pose proof (pixel_range T _ ltac:(lia) Hp) as Hpos.
  rewrite decide_False by (intros H; inversion H).
  apply get_Done. split; [lia|]. apply lookup_replicate. split; [reflexivity | lia].
Qed.
End Pass1.

(** ** Pass 2 fills the buffers *)

Lemma insert_three {A} (pre rest : list A) (x0 x1 x2 a b c : A) (k : nat) :
  length pre = k ->
  <[S (S k) := c]> (<[S k := b]> (<[k := a]> (pre ++ x0 :: x1 :: x2 :: rest))) =
  (pre ++ [a; b; c]) ++ rest.
Proof.
  revert k. induction pre as [|p pre IH]; intros k Hk; cbn [length] in Hk; subst k.
  - reflexivity.
  - cbn. f_equal. apply IH. reflexivity.
Qed.

Lemma coordsOf_lookup (seen : list point) : forall k : nat,
  coordsOf seen !! (2 * k)%nat = fst <$> seen !! k /\
  coordsOf seen !! (2 * k + 1)%nat = snd <$> seen !! k.
Proof.
  induction seen as [|v seen IH]; intros k; [split; reflexivity|].
  destruct k as [|k]; [split; reflexivity|].
  replace (2 * S k)%nat with (S (S (2 * k))) by lia.
  replace (S (S (2 * k)) + 1)%nat with (S (S (2 * k + 1))) by lia.
  exact (IH k).
Qed.

Lemma coordsOf_length seen : length (coordsOf seen) = (2 * length seen)%nat.
Proof.
  induction seen as [|v seen IH]; [reflexivity|].
  unfold coordsOf in *. cbn [flat_map app length]. rewrite IH. lia.
Qed.

Lemma trisOf_app seen l1 l2 : trisOf seen (l1 ++ l2) = trisOf seen l1 ++ trisOf seen l2.
Proof. unfold trisOf. apply flat_map_app. Qed.

Lemma trisOf_length seen ts : length (trisOf seen ts) = (3 * length ts)%nat.
Proof.
  induction ts as [|t ts IH]; [reflexivity|].
  unfold trisOf in *. cbn [flat_map]. rewrite length_app, IH.
  destruct t. cbn. lia.
Qed.

Lemma seenAfter_app seen l1 l2 :
  seenAfter seen (l1 ++ l2) = seenAfter (seenAfter seen l1) l2.
Proof. unfold seenAfter. apply foldl_app. Qed.

Lemma addVertex_elem seen v q : q ∈ addVertex seen v <-> q ∈ seen \/ q = v.
Proof.
  unfold addVertex. destruct (decide (v ∈ seen)) as [Hin|Hout].
  - split; [auto|]. intros [H | ->]; assumption.
  - rewrite elem_of_app, list_elem_of_singleton. reflexivity.
Qed.

Lemma addCorners_elem seen t q : q ∈ addCorners seen t <-> q ∈ seen \/ q ∈ corners t.
Proof.
  destruct t as [ax ay bx by_ cx cy]. unfold addCorners. cbn [corners foldl].
  rewrite !addVertex_elem, !elem_of_cons, elem_of_nil. tauto.
Qed.

Lemma seenAfter_elem ts : forall seen q,
  q ∈ seenAfter seen ts <-> q ∈ seen \/ q ∈ cornersOf ts.
Proof.
  induction ts as [|t ts IH]; intros seen q.
  - cbn. rewrite elem_of_nil. tauto.
  - cbn [seenAfter foldl cornersOf flat_map].
    change (foldl addCorners (addCorners seen t) ts) with (seenAfter (addCorners seen t) ts).
    rewrite IH, addCorners_elem, elem_of_app. unfold cornersOf. tauto.
Qed.

Section Pass2.
Variable T : Z.
Hypothesis T_fits : 0 <= T <= 2 ^ 15.
Variable seen : list point.
Variable ind : list Z.
Hypothesis seen_indexed : indexed T seen ind.

Lemma write_pair W vs x y :
  placed seen W vs -> (x, y) ∈ seen ->
  exists vs1 vs2,
    set16 vs (2 * indexOf (x, y) seen) x = Done vs1 /\
    set16 vs1 (2 * indexOf (x, y) seen + 1) y = Done vs2 /\
    placed seen ((x, y) :: W) vs2.
Proof.
  intros (Hlen & Hw) Hin. destruct seen_indexed as (_ & Hnd & Hall & _).
  rewrite Forall_forall in Hall. pose proof (Hall _ Hin) as Hg.
  unfold inGrid in Hg. cbn [fst snd] in Hg.
  pose proof (indexOf_range (x, y) seen) as Hr.
  pose proof (indexOf_elem (x, y) seen Hin) as Hr'.
  set (a := indexOf (x, y) seen) in *.
  unfold set16. rewrite !toUint16_small by lia.
  rewrite set_Done by lia. eexists. eexists. split; [reflexivity|].
  rewrite set_Done by (rewrite length_insert; lia). split; [reflexivity|].
  split; [rewrite !length_insert; exact Hlen|].
  intros q Hq. apply elem_of_cons in Hq.
  destruct (decide (q = (x, y))) as [->|Hne].
  - split; [exact Hin|]. fold a. cbn [fst snd]. split.
    + rewrite get_insert_ne by lia. apply get_insert_eq. lia.
    + apply get_insert_eq. rewrite length_insert. lia.
  - destruct Hq as [->|Hq]; [congruence|].
    destruct (Hw q Hq) as (Hqin & Hq1 & Hq2). split; [exact Hqin|].
    pose proof (indexOf_range q seen) as Hrq.
    assert (indexOf q seen <> a) as Hidx
      by (intros Heq; apply Hne; apply (indexOf_inj _ _ seen); assumption).
    rewrite !get_insert_ne by lia. auto.
Qed.

Lemma fillLeaf_spec W vs pre (k : nat) t :
  placed seen W vs -> inTile T t -> Forall (fun v => v ∈ seen) (corners t) ->
  exists vs',
    fillLeaf (T + 1) ind t
      (mkBuffers vs (pre ++ replicate (3 * S k) 0) (Z.of_nat (length pre))) =
    Done (mkBuffers vs' ((pre ++ trisOf seen [t]) ++ replicate (3 * k) 0)
                    (Z.of_nat (length (pre ++ trisOf seen [t])))) /\
    placed seen (corners t ++ W) vs'.
Proof.
  intros Hpl Hin Hcs. pose proof seen_indexed as (Hlen & Hnd & Hall & Hget).
  pose proof (grid_fits32 T T_fits) as H32.
  pose proof (grid_count T seen ltac:(lia) Hnd Hall) as Hcount.
  apply corners_inGrid in Hin.
  destruct t as [ax ay bx by_ cx cy]. cbn [corners] in *.
  rewrite !Forall_cons in Hin, Hcs.
  destruct Hin as (Ha & Hb & Hc & _). destruct Hcs as (Sa & Sb & Sc & _).
  unfold fillLeaf. cbn zeta. cbn [buf_vertices buf_triangles buf_triIndex].
  change (ay * (T + 1) + ax) with (pixel (T + 1) (ax, ay)).
  change (by_ * (T + 1) + bx) with (pixel (T + 1) (bx, by_)).
  change (cy * (T + 1) + cx) with (pixel (T + 1) (cx, cy)).
  rewrite (Hget _ Ha), (Hget _ Hb), (Hget _ Hc). cbn [bind].
  rewrite !decide_True by assumption.
  replace (indexOf (ax, ay) seen + 1 - 1) with (indexOf (ax, ay) seen) by lia.
  replace (indexOf (bx, by_) seen + 1 - 1) with (indexOf (bx, by_) seen) by lia.
  replace (indexOf (cx, cy) seen + 1 - 1) with (indexOf (cx, cy) seen) by lia.
  destruct (write_pair W vs ax ay Hpl Sa) as (v1 & v2 & -> & E2 & Hp1). cbn [bind].
  rewrite E2. cbn [bind].
  destruct (write_pair _ v2 bx by_ Hp1 Sb) as (v3 & v4 & -> & E4 & Hp2). cbn [bind].
  rewrite E4. cbn [bind].
  destruct (write_pair _ v4 cx cy Hp2 Sc) as (v5 & v6 & -> & E6 & Hp3). cbn [bind].
  rewrite E6. cbn [bind].
  pose proof (indexOf_range (ax, ay) seen). pose proof (indexOf_elem _ _ Sa).
  pose proof (indexOf_range (bx, by_) seen). pose proof (indexOf_elem _ _ Sb).
  pose proof (indexOf_range (cx, cy) seen). pose proof (indexOf_elem _ _ Sc).
  unfold set32. rewrite !toUint32_small by lia.
  replace (3 * S k)%nat with (S (S (S (3 * k)))) by lia. cbn [replicate].
  rewrite set_Done by (rewrite length_app; cbn [length]; lia). cbn [bind].
  rewrite set_Done by (rewrite length_insert, length_app; cbn [length]; lia). cbn [bind].
  rewrite set_Done by (rewrite !length_insert, length_app; cbn [length]; lia). cbn [bind].
  exists v6. split.
  - replace (Z.to_nat (Z.of_nat (length pre))) with (length pre) by lia.
    replace (Z.to_nat (Z.of_nat (length pre) + 1)) with (S (length pre)) by lia.
    replace (Z.to_nat (Z.of_nat (length pre) + 2)) with (S (S (length pre))) by lia.
    rewrite insert_three by reflexivity.
    unfold trisOf. cbn [flat_map corners map app].
    f_equal. f_equal. rewrite length_app. cbn [length]. lia.
  - destruct Hp3 as [Hl3 Hw3]. split; [exact Hl3|].
    intros q Hq. apply Hw3. rewrite !elem_of_cons.
    rewrite elem_of_app, !elem_of_cons, elem_of_nil in Hq. tauto.
Qed.

Lemma pass2_spec (rest : list tri) : forall done vs,
  placed seen (cornersOf done) vs ->
  Forall (fun t => inTile T t /\ Forall (fun v => v ∈ seen) (corners t)) rest ->
  exists vs',
    forEach (fillLeaf (T + 1) ind) rest
      (mkBuffers vs (trisOf seen done ++ replicate (3 * length rest) 0)
                 (Z.of_nat (length (trisOf seen done)))) =
    Done (mkBuffers vs' (trisOf seen (done ++ rest))
                    (Z.of_nat (length (trisOf seen (done ++ rest))))) /\
    placed seen (cornersOf (done ++ rest)) vs'.
Proof.
  induction rest as [|t rest IH]; intros done vs Hpl Hrest.
  - exists vs. cbn [forEach length]. replace (3 * 0)%nat with 0%nat by lia.
    cbn [replicate]. rewrite !app_nil_r. auto.
  - apply Forall_cons in Hrest as [[Hin Hcs] Hrest]. cbn [forEach length].
    destruct (fillLeaf_spec (cornersOf done) vs (trisOf seen done) (length rest) t
                Hpl Hin Hcs) as (v1 & -> & Hp1).
    cbn [bind]. rewrite <- trisOf_app.
    destruct (IH (done ++ [t]) v1) as (v2 & Hrun & Hp2).
    { destruct Hp1 as [Hl Hw]. split; [exact Hl|]. intros q Hq. apply Hw.
      unfold cornersOf in Hq. rewrite flat_map_app, elem_of_app in Hq.
      cbn [flat_map] in Hq. rewrite app_nil_r in Hq.
      apply elem_of_app. unfold cornersOf. tauto. }
    { exact Hrest. }
    rewrite Hrun. rewrite <- !app_assoc. cbn [app].
    rewrite <- app_assoc in Hp2. cbn [app] in Hp2.
    exists v2. split; [reflexivity | exact Hp2].
Qed.

Lemma placed_all vs ts :
  placed seen (cornersOf ts) vs -> (forall q, q ∈ seen -> q ∈ cornersOf ts) ->
  vs = coordsOf seen.
Proof.
  intros (Hlen & Hw) Hall. destruct seen_indexed as (_ & Hnd & _).
  apply list_eq. intros i.
  assert (exists k r : nat, i = (2 * k + r)%nat /\ (r < 2)%nat) as (k & r & -> & Hr).
  { exists (i / 2)%nat, (i mod 2)%nat. split; [apply Nat.div_mod_eq|].
    apply Nat.mod_upper_bound. lia. }
  destruct (seen !! k) as [q|] eqn:Hk.
  - pose proof (list_elem_of_lookup_2 _ _ _ Hk) as Hq.
    destruct (Hw q (Hall q Hq)) as (_ & H1 & H2).
    rewrite (lookup_indexOf seen k q Hnd Hk) in H1, H2.
    apply get_Done in H1 as [_ H1]. apply get_Done in H2 as [_ H2].
    replace (Z.to_nat (2 * Z.of_nat k)) with (2 * k)%nat in H1 by lia.
    replace (Z.to_nat (2 * Z.of_nat k + 1)) with (2 * k + 1)%nat in H2 by lia.
    destruct (coordsOf_lookup seen k) as [C1 C2].
    unfold point in *. rewrite Hk in C1, C2.
    destruct r as [|[|r]]; [| | lia].
    + rewrite Nat.add_0_r, H1, C1. reflexivity.
    + rewrite H2, C2. reflexivity.
  - apply lookup_ge_None in Hk.
    rewrite (lookup_ge_None_2 vs) by lia.
    rewrite (lookup_ge_None_2 (coordsOf seen)) by (rewrite coordsOf_length; lia).
    reflexivity.
Qed.
End Pass2.

(** ** The two passes together *)

Lemma forEach_pair {St} (run1 run2 : St -> outcome St) (act : tri -> St -> outcome St)
  (L1 L2 : list tri) (st : St) :
  (forall st, run1 st = forEach act L1 st) ->
  (forall st, run2 st = forEach act L2 st) ->
  (let* st' := run1 st in run2 st') = forEach act (L1 ++ L2) st.
Proof.
  intros H1 H2. rewrite forEach_app, H1.
  destruct (forEach act L1 st); cbn [bind]; [apply H2 | reflexivity].
Qed.

Section TwoPasses.
Variable n : nat.
Hypothesis n_fits : (n <= 15)%nat.
Variable tile : Tile.
Hypothesis tile_grid : gridOf n (martini tile).
Variable maxError : Q.
Variable maxLength : option Q.
Variable fuel : nat.
Variable L1 L2 : list tri.

#[local] Abbreviation T := (2 ^ Z.of_nat n).
#[local] Abbreviation size := (2 ^ Z.of_nat n + 1).
#[local] Abbreviation maxScale := (maxScaleOf maxLength size).
#[local] Abbreviation root1 := (Tri 0 0 T T T 0).
#[local] Abbreviation root2 := (Tri T T 0 0 0 T).
#[local] Abbreviation st0 :=
  (mkCounts (replicate (length (indices (martini tile))) 0) 0 0).

Hypothesis leaves1 : leaves size (errors tile) maxError maxScale fuel root1 = Done L1.
Hypothesis leaves2 : leaves size (errors tile) maxError maxScale fuel root2 = Done L2.
Hypothesis leaves_inTile : Forall (inTile T) (L1 ++ L2).
Hypothesis leaves_count : Z.of_nat (length (L1 ++ L2)) <= 2 ^ 32.

Lemma two_passes :
  let L := L1 ++ L2 in
  let seen := seenAfter [] L in
  exists ind : list Z,
    indexed T seen ind /\
    (let* st := countElements size (errors tile) maxError maxScale fuel root1 st0 in
     countElements size (errors tile) maxError maxScale fuel root2 st) =
    forEach (countLeaf size) L st0 /\
    forEach (countLeaf size) L st0 =
    Done (mkCounts ind (Z.of_nat (length seen)) (Z.of_nat (length L))) /\
    (forall bs,
       (let* bs' :=
          processTriangle size (errors tile) maxError maxScale ind fuel root1 bs in
        processTriangle size (errors tile) maxError maxScale ind fuel root2 bs') =
       forEach (fillLeaf size ind) L bs) /\
    forEach (fillLeaf size ind) L
      (mkBuffers (replicate (Z.to_nat (Z.of_nat (length seen) * 2)) 0)
                 (replicate (Z.to_nat (Z.of_nat (length L) * 3)) 0) 0) =
    Done (mkBuffers (coordsOf seen) (trisOf seen L) (Z.of_nat (length L) * 3)) /\
    getMeshRun fuel tile maxError maxLength = Done (meshOf L, ind).
Proof.
  cbn zeta. pose proof tile_grid as (Hsize & HN & HP & Hind & Htab).
  pose proof (T_bounds n n_fits T eq_refl) as HT.
  set (L := L1 ++ L2) in *. set (seen := seenAfter [] L).
  destruct (pass1_spec T ltac:(lia) L [] _ 0 (indexed_empty T ltac:(lia) _ Hind)
              leaves_inTile) as (ind & Hrun1 & Hindexed).
  cbn [length] in Hrun1. rewrite Z.add_0_l in Hrun1. fold seen in Hrun1, Hindexed.
  change (Z.of_nat 0) with 0 in Hrun1.
  assert (forall bs,
    (let* bs' :=
       processTriangle size (errors tile) maxError maxScale ind fuel root1 bs in
     processTriangle size (errors tile) maxError maxScale ind fuel root2 bs') =
    forEach (fillLeaf size ind) L bs) as Hpass2.
  { intros bs. apply forEach_pair; intros st.
    - apply processTriangle_leaves. exact leaves1.
    - apply processTriangle_leaves. exact leaves2. }
  assert ((let* st := countElements size (errors tile) maxError maxScale fuel root1 st0 in
           countElements size (errors tile) maxError maxScale fuel root2 st) =
          forEach (countLeaf size) L st0) as Hpass1.
  { apply forEach_pair; intros st.
    - apply countElements_leaves. exact leaves1.
    - apply countElements_leaves. exact leaves2. }
  pose proof Hindexed as (_ & Hnd & Hall & _).
  pose proof (grid_count T seen ltac:(lia) Hnd Hall) as Hcount.
  pose proof (grid_fits32 T ltac:(lia)) as H32.
  destruct (pass2_spec T ltac:(lia) seen ind Hindexed L []
              (replicate (Z.to_nat (Z.of_nat (length seen) * 2)) 0))
    as (vs & Hrun2 & Hplaced).
  { split; [rewrite length_replicate; lia|]. intros q Hq. inversion Hq. }
  { rewrite Forall_forall in leaves_inTile |- *. intros t Ht.
    split; [apply leaves_inTile; exact Ht|].
    apply Forall_forall. intros v Hv. apply seenAfter_elem. right.
    unfold cornersOf. apply list_elem_of_In, in_flat_map.
    exists t. split; apply list_elem_of_In; assumption. }
  change ([] ++ L) with L in Hrun2, Hplaced.
  change (trisOf seen []) with (@nil Z) in Hrun2.
  cbn [app length] in Hrun2. change (Z.of_nat 0) with 0 in Hrun2.
  rewrite trisOf_length in Hrun2.
  replace (3 * length L)%nat with (Z.to_nat (Z.of_nat (length L) * 3)) in Hrun2 by lia.
  replace (Z.of_nat (Z.to_nat (Z.of_nat (length L) * 3)))
    with (Z.of_nat (length L) * 3) in Hrun2 by lia.
  assert (vs = coordsOf seen) as ->.
  { apply (placed_all T seen ind Hindexed vs L Hplaced).
    intros q Hq. apply seenAfter_elem in Hq as [Hq | Hq]; [inversion Hq | exact Hq]. }
  exists ind. split; [exact Hindexed|]. split; [exact Hpass1|].
  split; [exact Hrun1|]. split; [exact Hpass2|]. split; [exact Hrun2|].
  unfold getMeshRun. cbn zeta. rewrite Hsize.
  replace (size - 1) with T by lia.
  pose proof Hpass1 as Hp1. rewrite Hrun1 in Hp1.
  apply bind_Done in Hp1 as (s1 & Hc1 & Hc2). rewrite Hc1. cbn [bind].
  rewrite Hc2. cbn [bind cnt_numVertices cnt_numTriangles cnt_indices].
  rewrite !newArray_Done by lia. cbn [bind].
  pose proof (Hpass2 (mkBuffers (replicate (Z.to_nat (Z.of_nat (length seen) * 2)) 0)
                        (replicate (Z.to_nat (Z.of_nat (length L) * 3)) 0) 0)) as Hp2.
  rewrite Hrun2 in Hp2. apply bind_Done in Hp2 as (b1 & Hb1 & Hb2).
  rewrite Hb1. cbn [bind]. rewrite Hb2. cbn [bind buf_vertices buf_triangles].
  reflexivity.
Qed.
End TwoPasses.

(** ** What [createTile] builds *)

Lemma createTile_inv m terrain tile :
  createTile m terrain = Done tile ->
  Z.of_nat (length terrain) = gridSize m * gridSize m /\
  tile = mkTile terrain m (errors tile) /\
  update m terrain (replicate (length terrain) 0%Q) = Done (errors tile).
Proof.
  unfold createTile, Tile_new. cbn zeta.
  destruct (Z.eqb_spec (Z.of_nat (length terrain)) (gridSize m * gridSize m)) as [Hlen|];
    [|discriminate].
  cbn [negb]. intros Hrun.
  apply bind_Done in Hrun as (E0 & HE0 & Hrun).
  apply bind_Done in Hrun as (E & HE & Hrun).
  injection Hrun as <-. cbn [errors].
  apply newArray_inv in HE0 as [_ ->]. rewrite Nat2Z.id in HE.
  auto.
Qed.

Lemma get_replicate {A} (x v : A) (len : nat) p :
  get (replicate len x) p = Done v -> v = x.
Proof.
  intros H. apply get_Done in H as [_ H]. apply lookup_replicate in H as [-> _].
  reflexivity.
Qed.

(** ** Valid tiles *)

Lemma valid_tile g m terrain tile :
  g - 1 < 2 ^ 16 -> Martini_new g = Done m -> createTile m terrain = Done tile ->
  exists n : nat,
    (n <= 15)%nat /\ g = 2 ^ Z.of_nat n + 1 /\ gridOf n m /\
    martini tile = m /\
    Z.of_nat (length (errors tile)) = (2 ^ Z.of_nat n + 1) * (2 ^ Z.of_nat n + 1) /\
    (forall p e, get (errors tile) p = Done e -> (0 <= e)%Q).
Proof.
  intros Hg Hnew Htile.
  destruct (Martini_new_inv g m Hg Hnew) as (n & Hn & -> & Hgrid).
  destruct (createTile_inv m terrain tile Htile) as (Hlen & Heq & Hupd).
  pose proof Hgrid as (Hsize & _).
  destruct (update_ordered n Hn m Hgrid terrain Hlen (replicate (length terrain) 0%Q))
    as (E & HE & HlenE & Hpos & _).
  { rewrite length_replicate, Hlen, Hsize. reflexivity. }
  { intros p e Hget. apply get_replicate in Hget as ->. apply Qle_refl. }
  rewrite HE in Hupd. injection Hupd as <-.
  exists n. repeat (split; [assumption || reflexivity|]).
  split; [rewrite Heq; reflexivity|]. split; assumption.
Qed.

Lemma maxScale_ge_1 maxLength size :
  lengthBound maxLength -> 1 <= size -> (1 <= maxScaleOf maxLength size)%Q.
Proof.
  intros Hb Hs.
  assert (1 <= inject_Z size)%Q as Hsz
    by (change 1%Q with (inject_Z 1); rewrite <- Zle_Qle; exact Hs).
  destruct maxLength as [l|]; cbn [maxScaleOf lengthBound] in *; [|exact Hsz].
  destruct (Qeq_bool l 0) eqn:E; [exact Hsz|].
  destruct Hb as [H0 | H1]; [|exact H1].
  apply Qeq_bool_iff in H0. congruence.
Qed.

Lemma tile_leaves (n : nat) errors maxError maxScale :
  (n <= 15)%nat ->
  Z.of_nat (length errors) = (2 ^ Z.of_nat n + 1) * (2 ^ Z.of_nat n + 1) ->
  (1 <= maxScale)%Q ->
  let T := 2 ^ Z.of_nat n in
  exists L1 L2,
    Forall (inTile T) (L1 ++ L2) /\
    Z.of_nat (length (L1 ++ L2)) <= 2 ^ 32 /\
    forall fuel, (2 * n < fuel)%nat ->
      leaves (T + 1) errors maxError maxScale fuel (Tri 0 0 T T T 0) = Done L1 /\
      leaves (T + 1) errors maxError maxScale fuel (Tri T T 0 0 0 T) = Done L2.
Proof.
  intros Hn Hlen Hscale. cbn zeta.
  pose proof (T_bounds n Hn _ eq_refl) as HT.
  destruct (root_shapes n) as [Hs1 Hs2].
  destruct (root_inTile (2 ^ Z.of_nat n) ltac:(lia)) as [Hi1 Hi2].
  destruct (leaves_total (2 ^ Z.of_nat n) ltac:(lia) errors Hlen maxError maxScale
              Hscale (S (2 * n)) (2 * n) _ ltac:(lia) Hi1 Hs1) as (L1 & HL1 & HF1 & Hc1).
  destruct (leaves_total (2 ^ Z.of_nat n) ltac:(lia) errors Hlen maxError maxScale
              Hscale (S (2 * n)) (2 * n) _ ltac:(lia) Hi2 Hs2) as (L2 & HL2 & HF2 & Hc2).
  exists L1, L2. split; [apply Forall_app; auto|]. split.
  - rewrite length_app.
    assert (2 ^ Z.of_nat (2 * n) <= 2 ^ Z.of_nat 30) by (apply pow2_le; lia).
    change (2 ^ Z.of_nat 30) with (2 ^ 30) in *. lia.
  - intros fuel Hfuel. split; eapply leaves_more_fuel; try eassumption; lia.
Qed.

Lemma getMeshRun_negative (n : nat) tile maxError (l : Q) :
  (n <= 15)%nat -> gridOf n (martini tile) ->
  Z.of_nat (length (errors tile)) = (2 ^ Z.of_nat n + 1) * (2 ^ Z.of_nat n + 1) ->
  (l < 0)%Q ->
  forall fuel, getMeshRun fuel tile maxError (Some l) = Fail OutOfFuel.
Proof.
  intros Hn (Hsize & _) Hlen Hl fuel.
  pose proof (T_bounds n Hn _ eq_refl) as HT.
  unfold getMeshRun. cbn zeta. rewrite Hsize. cbn [maxScaleOf].
  destruct (Qeq_bool l 0) eqn:E.
  { apply Qeq_bool_iff in E. rewrite E in Hl. discriminate. }
  rewrite (countElements_diverges (2 ^ Z.of_nat n) ltac:(lia) _ Hlen maxError l Hl fuel).
  - reflexivity.
  - cbn [inTile]. lia.
Qed.

Lemma pow2_eq_2 (n : nat) : 2 ^ Z.of_nat n + 1 = 3 -> n = 1%nat.
Proof.
  destruct n as [|[|n]]; [vm_compute; discriminate | reflexivity |].
  rewrite !pow2_S. pose proof (pow2_pos n). lia.
Qed.

(** ** The mesh of the two root triangles *)

Ltac points :=
  repeat (rewrite elem_of_cons || rewrite elem_of_nil);
  intuition (try congruence);
  match goal with
  | H : (_, _) = (_, _) |- _ => injection H; intros; lia
  end.

Lemma addVertex_new seen v : v ∉ seen -> addVertex seen v = seen ++ [v].
Proof. intros H. unfold addVertex. rewrite decide_False by exact H. reflexivity. Qed.

Lemma addVertex_old seen v : v ∈ seen -> addVertex seen v = seen.
Proof. intros H. unfold addVertex. rewrite decide_True by exact H. reflexivity. Qed.

Lemma root_mesh T :
  1 <= T ->
  meshOf [Tri 0 0 T T T 0; Tri T T 0 0 0 T] =
  mkMesh [0; 0; T; T; T; 0; 0; T] [0; 1; 2; 1; 0; 3].
Proof.
  intros HT.
  assert (seenAfter [] [Tri 0 0 T T T 0; Tri T T 0 0 0 T] =
          [(0, 0); (T, T); (T, 0); (0, T)]) as Hseen.
  { unfold seenAfter, addCorners. cbn [foldl corners].
    rewrite (addVertex_new [] (0, 0)) by points. cbn [app].
    rewrite (addVertex_new [(0, 0) : point] (T, T)) by points. cbn [app].
    rewrite (addVertex_new [(0, 0) : point; (T, T) : point] (T, 0)) by points.
    cbn [app].
    rewrite (addVertex_old _ (T, T)) by points.
    rewrite (addVertex_old _ (0, 0)) by points.
    rewrite (addVertex_new _ (0, T)) by points. reflexivity. }
  unfold meshOf. cbn zeta. rewrite Hseen.
  unfold coordsOf, trisOf. cbn [flat_map map corners app fst snd indexOf].
  repeat first [rewrite decide_True by points | rewrite decide_False by points].
  reflexivity.
Qed.

Lemma legOf_even (n : nat) : legOf (2 * n) = 2 ^ Z.of_nat n.
Proof.
  unfold legOf. do 2 f_equal. symmetry. apply Nat.div_unique with 1%nat; lia.
Qed.

(** ** A smaller threshold refines the mesh *)

Section Refinement.
Variable size : Z.
Variable errors : list Q.
Variable e1 e2 : Q.
Hypothesis e1_le_e2 : (e1 <= e2)%Q.
Variable maxScale : Q.

Lemma drillDown_mono t b1 :
  drillDown size errors e2 maxScale t = Done true ->
  drillDown size errors e1 maxScale t = Done b1 -> b1 = true.
Proof.
  destruct t as [ax ay bx by_ cx cy]. unfold drillDown. cbn zeta.
  destruct (1 <? Z.abs (ax - cx) + Z.abs (ay - cy)); cbn [bind].
  - destruct (get errors _) as [e|]; cbn [bind]; [|discriminate].
    intros [= H2] [= <-].
    apply orb_true_iff in H2 as [H2 | H2]; [|rewrite H2; apply orb_true_r].
    apply Qgtb_true in H2.
    assert (Qgtb e e1 = true) as ->; [|reflexivity].
    apply Qgtb_true. eapply Qle_lt_trans; eassumption.
  - intros [= H2] [= <-]. exact H2.
Qed.

Lemma leaves_refine fuel : forall t Lf Lc,
  leaves size errors e1 maxScale fuel t = Done Lf ->
  leaves size errors e2 maxScale fuel t = Done Lc ->
  (length Lc <= length Lf)%nat /\
  forall v, v ∈ cornersOf Lc -> v ∈ cornersOf Lf.
Proof.
  induction fuel as [|fuel IH]; intros t Lf Lc Hf Hc; [discriminate|].
  pose proof (corners_kept size errors e1 maxScale _ _ _ Hf) as [Hne Hkept].
  cbn [leaves] in Hf, Hc.
  destruct (drillDown size errors e2 maxScale t) as [[|]|] eqn:D2; cbn [bind] in Hc;
    [| | discriminate].
  - destruct (drillDown size errors e1 maxScale t) as [b1|] eqn:D1; cbn [bind] in Hf;
      [|discriminate].
    rewrite (drillDown_mono t b1 D2 D1) in Hf.
    apply bind_Done in Hf as (F1 & HF1 & Hf). apply bind_Done in Hf as (F2 & HF2 & Hf).
    apply bind_Done in Hc as (C1 & HC1 & Hc). apply bind_Done in Hc as (C2 & HC2 & Hc).
    injection Hf as <-. injection Hc as <-.
    destruct (IH _ _ _ HF1 HC1) as [Hl1 Hv1]. destruct (IH _ _ _ HF2 HC2) as [Hl2 Hv2].
    split; [rewrite !length_app; lia|].
    intros v. unfold cornersOf in *. rewrite !flat_map_app, !elem_of_app.
    intros [H | H]; [left; apply Hv1 | right; apply Hv2]; exact H.
  - injection Hc as <-. split.
    + destruct Lf; [congruence | cbn [length]; lia].
    + intros v Hv. unfold cornersOf in Hv. cbn [flat_map] in Hv. rewrite app_nil_r in Hv.
      destruct (Hkept v Hv) as (t' & Ht' & Hv').
      unfold cornersOf. apply list_elem_of_In, in_flat_map.
      exists t'. split; apply list_elem_of_In; assumption.
Qed.
End Refinement.

Lemma meshVertex_meshOf L v : meshVertex (meshOf L) v <-> v ∈ cornersOf L.
Proof.
  unfold meshVertex, meshOf. cbn [vertices].
  set (seen := seenAfter [] L).
  assert (v ∈ cornersOf L <-> v ∈ seen) as ->
    by (unfold seen; rewrite seenAfter_elem, elem_of_nil; tauto).
  split.
  - intros (k & Hk & G1 & G2).
    apply get_Done in G1 as [_ G1]. apply get_Done in G2 as [_ G2].
    destruct (coordsOf_lookup seen (Z.to_nat k)) as [C1 C2].
    replace (Z.to_nat (2 * k)) with (2 * Z.to_nat k)%nat in G1 by lia.
    replace (Z.to_nat (2 * k + 1)) with (2 * Z.to_nat k + 1)%nat in G2 by lia.
    rewrite G1 in C1. rewrite G2 in C2.
    destruct (seen !! Z.to_nat k) as [w|] eqn:Hw; [|discriminate].
    cbn in C1, C2. injection C1 as C1. injection C2 as C2.
    assert (w = v) as <- by (destruct w, v; cbn [fst snd] in *; congruence).
    eapply list_elem_of_lookup_2. exact Hw.
  - intros Hv. exists (indexOf v seen).
    pose proof (indexOf_range v seen) as Hr. split; [lia|].
    pose proof (indexOf_lookup v seen Hv) as Hl.
    destruct (coordsOf_lookup seen (Z.to_nat (indexOf v seen))) as [C1 C2].
    unfold point in *. rewrite Hl in C1, C2. cbn in C1, C2.
    split; apply get_Done; (split; [lia|]).
    + replace (Z.to_nat (2 * indexOf v seen))
        with (2 * Z.to_nat (indexOf v seen))%nat by lia. exact C1.
    + replace (Z.to_nat (2 * indexOf v seen + 1))
        with (2 * Z.to_nat (indexOf v seen) + 1)%nat by lia. exact C2.
Qed.

(** ** The full subdivision reaches every pixel *)

Lemma legsAt_legsOnAxes L d t : legsAt L d t -> legsOnAxes L t.
Proof.
  destruct t as [ax ay bx by_ cx cy]. cbn [legsAt legsOnAxes].
  intros ((i & j & Hcx & Hcy) & H). exists d, i, j. tauto.
Qed.

Section Quarters.
Variable T : Z.
Hypothesis T_fits : 0 <= T <= 2 ^ 15.

Lemma quarters s d t :
  0 < s -> inTile T t -> legsAt (2 * s) d t ->
  legsAt s (turn (turn (turn d))) (firstHalf (firstHalf t)) /\
  legsAt s d (secondHalf (firstHalf t)) /\
  legsAt s d (firstHalf (secondHalf t)) /\
  legsAt s (turn d) (secondHalf (secondHalf t)) /\
  (forall i j, reach (turn (turn (turn d))) (firstHalf (firstHalf t)) i j =
               reach d t (s - j) i) /\
  (forall i j, reach d (secondHalf (firstHalf t)) i j = reach d t (i + s) j) /\
  (forall i j, reach d (firstHalf (secondHalf t)) i j = reach d t i (j + s)) /\
  (forall i j, reach (turn d) (secondHalf (secondHalf t)) i j =
               reach d t j (s - i)).
Proof.
  destruct t as [ax ay bx by_ cx cy].
  cbn [legsAt inTile firstHalf secondHalf reach].
  intros Hs Hin ((i0 & j0 & Hcx & Hcy) & Hax & Hay & Hbx & Hby).
  assert (Hmx : sar (ax + bx) 1 = cx + s * dx d - s * dx (turn d)).
  { replace (ax + bx) with (2 * (cx + s * dx d - s * dx (turn d))) by lia.
    apply sar_1_double. destruct d; cbn [dx dy turn] in *; lia. }
  assert (Hmy : sar (ay + by_) 1 = cy + s * dy d - s * dy (turn d)).
  { replace (ay + by_) with (2 * (cy + s * dy d - s * dy (turn d))) by lia.
    apply sar_1_double. destruct d; cbn [dx dy turn] in *; lia. }
  assert (Hux : sar (cx + ax) 1 = cx + s * dx d).
  { replace (cx + ax) with (2 * (cx + s * dx d)) by lia.
    apply sar_1_double. destruct d; cbn [dx dy turn] in *; lia. }
  assert (Huy : sar (cy + ay) 1 = cy + s * dy d).
  { replace (cy + ay) with (2 * (cy + s * dy d)) by lia.
    apply sar_1_double. destruct d; cbn [dx dy turn] in *; lia. }
  assert (Hvx : sar (bx + cx) 1 = cx - s * dx (turn d)).
  { replace (bx + cx) with (2 * (cx - s * dx (turn d))) by lia.
    apply sar_1_double. destruct d; cbn [dx dy turn] in *; lia. }
  assert (Hvy : sar (by_ + cy) 1 = cy - s * dy (turn d)).
  { replace (by_ + cy) with (2 * (cy - s * dy (turn d))) by lia.
    apply sar_1_double. destruct d; cbn [dx dy turn] in *; lia. }
  rewrite Hmx, Hmy, Hux, Huy, Hvx, Hvy.
  assert (exists i j, cx + s * dx d = s * i /\ cy + s * dy d = s * j) as Hu
    by (exists (2 * i0 + dx d), (2 * j0 + dy d); lia).
  assert (exists i j, cx - s * dx (turn d) = s * i /\ cy - s * dy (turn d) = s * j) as Hv
    by (exists (2 * i0 - dx (turn d)), (2 * j0 - dy (turn d)); lia).
  repeat split; try assumption; intros;
    destruct d; cbn [dx dy turn] in *; try lia; f_equal; lia.
Qed.
End Quarters.

Lemma leaves_split size errors maxError maxScale fuel t L :
  drillDown size errors maxError maxScale t = Done true ->
  leaves size errors maxError maxScale (S fuel) t = Done L ->
  exists A B,
    leaves size errors maxError maxScale fuel (firstHalf t) = Done A /\
    leaves size errors maxError maxScale fuel (secondHalf t) = Done B /\
    L = A ++ B.
Proof.
  intros Hd HL. cbn [leaves] in HL. rewrite Hd in HL. cbn [bind] in HL.
  apply bind_Done in HL as (A & HA & HL). apply bind_Done in HL as (B & HB & HL).
  injection HL as <-. eauto.
Qed.

Lemma cornersOf_app l1 l2 v : v ∈ cornersOf (l1 ++ l2) <-> v ∈ cornersOf l1 \/ v ∈ cornersOf l2.
Proof. unfold cornersOf. rewrite flat_map_app, elem_of_app. reflexivity. Qed.

Section Full.
Variable n : nat.
Hypothesis n_fits : (n <= 15)%nat.
Variable errors : list Q.
Hypothesis errors_size :
  Z.of_nat (length errors) = (2 ^ Z.of_nat n + 1) * (2 ^ Z.of_nat n + 1).
Variable maxError maxScale : Q.
Hypothesis rough : roughEverywhere (2 ^ Z.of_nat n) errors maxError.
Hypothesis scale_ge_1 : (1 <= maxScale)%Q.

#[local] Abbreviation T := (2 ^ Z.of_nat n).
#[local] Abbreviation run := (leaves (2 ^ Z.of_nat n + 1) errors maxError maxScale).

Lemma drillDown_rough k t :
  (S k <= 2 * n)%nat -> inTile T t -> shape (S k) t ->
  drillDown (T + 1) errors maxError maxScale t = Done true.
Proof.
  intros Hk Hin Hsh. pose proof (T_bounds n n_fits T eq_refl) as HT.
  destruct (drillDown_shape T ltac:(lia) errors errors_size maxError maxScale
              (S k) t Hin Hsh) as (e & He & ->).
  pose proof (legOf_S k) as Hleg.
  pose proof (shape_mid_class T ltac:(lia) k t Hin Hsh) as Hcl.
  pose proof (mid_inGrid T ltac:(lia) t Hin) as Hmid.
  destruct (rough (mid t) Hmid) as (e' & He' & Hlt).
  { intros [Hx Hy]. destruct (mid t) as [x y]. cbn [fst snd] in *.
    exact (midClass_not_corner n (S k) x y Hcl Hk Hx Hy). }
  rewrite He in He'. injection He' as <-.
  replace (1 <? legOf (S k)) with true by (symmetry; apply Z.ltb_lt; lia).
  replace (Qgtb e maxError) with true by (symmetry; apply Qgtb_true; exact Hlt).
  reflexivity.
Qed.

Lemma drillDown_unit t :
  inTile T t -> shape 0 t ->
  drillDown (T + 1) errors maxError maxScale t = Done false.
Proof.
  intros Hin Hsh. pose proof (T_bounds n n_fits T eq_refl) as HT.
  destruct (drillDown_shape T ltac:(lia) errors errors_size maxError maxScale
              0 t Hin Hsh) as (e & He & ->).
  rewrite legOf_0. change (1 <? 1) with false. cbn [andb orb].
  replace (Qgtb (inject_Z 1) maxScale) with false; [reflexivity|].
  symmetry. apply Qgtb_false. exact scale_ge_1.
Qed.

Lemma leaves_full fuel : forall k t,
  (k < fuel)%nat -> (k <= 2 * n)%nat -> inTile T t -> shape k t ->
  exists L, run fuel t = Done L /\ Z.of_nat (length L) = 2 ^ Z.of_nat k.
Proof.
  pose proof (T_bounds n n_fits T eq_refl) as HT.
  induction fuel as [|fuel IH]; intros k t Hfuel Hk Hin Hsh; [lia|].
  cbn [leaves]. destruct k as [|k].
  - rewrite (drillDown_unit t Hin Hsh). cbn [bind]. exists [t]. auto.
  - rewrite (drillDown_rough k t Hk Hin Hsh). cbn [bind].
    destruct (shape_halves T ltac:(lia) _ _ Hin Hsh) as [Hs1 Hs2].
    destruct (halves_inTile T ltac:(lia) _ Hin) as [Hi1 Hi2].
    destruct (IH k _ ltac:(lia) ltac:(lia) Hi1 Hs1) as (L1 & -> & Hl1).
    destruct (IH k _ ltac:(lia) ltac:(lia) Hi2 Hs2) as (L2 & -> & Hl2).
    cbn [bind]. eexists. split; [reflexivity|].
    rewrite length_app, pow2_S. lia.
Qed.

Lemma leaves_cover (e : nat) : forall fuel t d L,
  (2 * e < fuel)%nat -> (e <= n)%nat -> inTile T t -> legsAt (2 ^ Z.of_nat e) d t ->
  run fuel t = Done L ->
  forall i j, 0 <= i -> 0 <= j -> i + j <= 2 ^ Z.of_nat e ->
    reach d t i j ∈ cornersOf L.
Proof.
  pose proof (T_bounds n n_fits T eq_refl) as HT.
  induction e as [|e IH]; intros fuel t d L Hfuel He Hin Hlegs HL i j Hi Hj Hij.
  - assert (shape 0 t) as Hsh
      by (exists 0%nat; left; split; [reflexivity | eapply legsAt_legsOnAxes; exact Hlegs]).
    destruct fuel as [|fuel]; [lia|]. cbn [leaves] in HL.
    rewrite (drillDown_unit t Hin Hsh) in HL. cbn [bind] in HL. injection HL as <-.
    change (2 ^ Z.of_nat 0) with 1 in *.
    destruct t as [ax ay bx by_ cx cy]. cbn [legsAt] in Hlegs.
    destruct Hlegs as (_ & Hax & Hay & Hbx & Hby).
    unfold cornersOf. cbn [flat_map corners app reach].
    rewrite !elem_of_cons.
    assert ((i = 0 /\ j = 0) \/ (i = 1 /\ j = 0) \/ (i = 0 /\ j = 1))
      as [[-> ->] | [[-> ->] | [-> ->]]] by lia.
    + right. right. left. f_equal; lia.
    + left. f_equal; lia.
    + right. left. f_equal; lia.
  - rewrite pow2_S in Hlegs, Hij. pose proof (pow2_pos e) as Hs.
    set (s := 2 ^ Z.of_nat e) in *.
    assert (shape (S (S (2 * e))) t) as Hsh.
    { exists (S e). left. split; [lia|]. rewrite pow2_S.
      eapply legsAt_legsOnAxes. exact Hlegs. }
    destruct (shape_halves T ltac:(lia) _ _ Hin Hsh) as [Hs1 Hs2].
    destruct (halves_inTile T ltac:(lia) _ Hin) as [Hi1 Hi2].
    destruct (halves_inTile T ltac:(lia) _ Hi1) as [Hi11 Hi12].
    destruct (halves_inTile T ltac:(lia) _ Hi2) as [Hi21 Hi22].
    destruct fuel as [|[|fuel]]; [lia | lia |].
    destruct (leaves_split _ _ _ _ _ _ _
                (drillDown_rough (S (2 * e)) t ltac:(lia) Hin Hsh) HL) as (A & B & HA & HB & ->).
    destruct (leaves_split _ _ _ _ _ _ _
                (drillDown_rough (2 * e) _ ltac:(lia) Hi1 Hs1) HA) as (A1 & A2 & HA1 & HA2 & ->).
    destruct (leaves_split _ _ _ _ _ _ _
                (drillDown_rough (2 * e) _ ltac:(lia) Hi2 Hs2) HB) as (B1 & B2 & HB1 & HB2 & ->).
    destruct (quarters T ltac:(lia) s d t Hs Hin Hlegs)
      as (Q11 & Q12 & Q21 & Q22 & R11 & R12 & R21 & R22).
    rewrite !cornersOf_app.
    destruct (Z_le_gt_dec s i) as [Hbig | Hsmall].
    { left. right. rewrite <- (Z.sub_add s i), <- R12.
      apply (IH fuel _ d); try assumption; lia. }
    destruct (Z_le_gt_dec s j) as [Hbig | Hsmall'].
    { right. left. rewrite <- (Z.sub_add s j), <- R21.
      apply (IH fuel _ d); try assumption; lia. }
    destruct (Z_le_gt_dec j i) as [Hji | Hij'].
    + left. left. replace i with (s - (s - i)) by lia. rewrite <- R11.
      apply (IH fuel _ (turn (turn (turn d)))); try assumption; lia.
    + right. right. replace j with (s - (s - j)) by lia. rewrite <- R22.
      apply (IH fuel _ (turn d)); try assumption; lia.
Qed.
End Full.

(** a duplicate-free list that holds every pixel of the grid has
    [(T + 1) * (T + 1)] items *)
Lemma grid_full T (l : list point) :
  0 <= T -> NoDup l -> Forall (inGrid T) l -> (forall p, inGrid T p -> p ∈ l) ->
  Z.of_nat (length l) = (T + 1) * (T + 1).
Proof.
  intros HT Hnd Hin Hall.
  pose proof (grid_count T l HT Hnd Hin) as Hle.
  assert (seqZ 0 ((T + 1) * (T + 1)) ⊆+ pixel (T + 1) <$> l) as Hsub.
  { apply NoDup_submseteq; [apply NoDup_seqZ|].
    intros z Hz. apply elem_of_seqZ in Hz.
    assert (inGrid T (z mod (T + 1), z / (T + 1))) as Hp.
    { unfold inGrid. cbn [fst snd].
      pose proof (Z.mod_pos_bound z (T + 1) ltac:(lia)).
      assert (0 <= z / (T + 1)) by (apply Z.div_pos; lia).
      assert (z / (T + 1) < T + 1) by (apply Z.div_lt_upper_bound; lia).
      lia. }
    replace z with (pixel (T + 1) (z mod (T + 1), z / (T + 1))).
    - apply list_elem_of_fmap_2. apply Hall. exact Hp.
    - unfold pixel. cbn [fst snd].
      rewrite (Z.div_mod z (T + 1)) at 3 by lia. lia. }
  apply submseteq_length in Hsub. rewrite length_fmap, length_seqZ in Hsub. lia.
Qed.

Lemma roots_cover (n : nat) errors maxError maxScale fuel L1 L2 :
  (n <= 15)%nat ->
  Z.of_nat (length errors) = (2 ^ Z.of_nat n + 1) * (2 ^ Z.of_nat n + 1) ->
  roughEverywhere (2 ^ Z.of_nat n) errors maxError -> (1 <= maxScale)%Q ->
  (2 * n < fuel)%nat ->
  let T := 2 ^ Z.of_nat n in
  leaves (T + 1) errors maxError maxScale fuel (Tri 0 0 T T T 0) = Done L1 ->
  leaves (T + 1) errors maxError maxScale fuel (Tri T T 0 0 0 T) = Done L2 ->
  Z.of_nat (length (L1 ++ L2)) = 2 * T * T /\
  forall p, inGrid T p -> p ∈ cornersOf (L1 ++ L2).
Proof.
  intros Hn Hlen Hrough Hscale Hfuel. cbn zeta. intros H1 H2.
  pose proof (T_bounds n Hn _ eq_refl) as HT. set (T := 2 ^ Z.of_nat n) in *.
  destruct (root_shapes n) as [Hs1 Hs2]. fold T in Hs1, Hs2.
  destruct (root_inTile T ltac:(lia)) as [Hi1 Hi2].
  split.
  - destruct (leaves_full n Hn errors Hlen maxError maxScale Hrough Hscale fuel
                (2 * n) _ Hfuel ltac:(lia) Hi1 Hs1) as (L1' & E1 & Hl1).
    destruct (leaves_full n Hn errors Hlen maxError maxScale Hrough Hscale fuel
                (2 * n) _ Hfuel ltac:(lia) Hi2 Hs2) as (L2' & E2 & Hl2).
    fold T in E1, E2. rewrite H1 in E1. rewrite H2 in E2.
    injection E1 as <-. injection E2 as <-.
    rewrite length_app.
    replace (Z.of_nat (2 * n)) with (Z.of_nat n + Z.of_nat n) in Hl1, Hl2 by lia.
    rewrite Z.pow_add_r in Hl1, Hl2 by lia. fold T in Hl1, Hl2. lia.
  - intros [x y] [Hx Hy]. cbn [fst snd] in Hx, Hy. apply cornersOf_app.
    destruct (Z_le_gt_dec y x) as [Hyx | Hxy].
    + left.
      replace (x, y) with (reach West (Tri 0 0 T T T 0) (T - x) y)
        by (cbn [reach dx dy turn]; f_equal; lia).
      apply (leaves_cover n Hn errors Hlen maxError maxScale Hrough Hscale n fuel);
        try assumption; try lia.
      cbn [legsAt dx dy turn]. split; [exists 1, 0; lia | lia].
    + right.
      replace (x, y) with (reach East (Tri T T 0 0 0 T) x (T - y))
        by (cbn [reach dx dy turn]; f_equal; lia).
      apply (leaves_cover n Hn errors Hlen maxError maxScale Hrough Hscale n fuel);
        try assumption; try lia.
      cbn [legsAt dx dy turn]. split; [exists 0, 1; lia | lia].
Qed.

(** ** A length between 0 and 1 *)

Lemma useVertex_total T x y st :
  0 <= T -> inGrid T (x, y) ->
  Z.of_nat (length (cnt_indices st)) = (T + 1) * (T + 1) ->
  exists st',
    useVertex (T + 1) x y st = Done st' /\
    length (cnt_indices st') = length (cnt_indices st).
Proof.
  intros HT Hp Hlen. pose proof (pixel_range T _ HT Hp) as Hpx.
  unfold pixel in Hpx. cbn [fst snd] in Hpx.
  unfold useVertex. cbn zeta.
  destruct (get_in_range (cnt_indices st) (y * (T + 1) + x) ltac:(lia)) as [v ->].
  cbn [bind]. unfold set32.
  destruct (truthy v); rewrite set_Done by lia; cbn [bind]; eexists;
    (split; [reflexivity|]); cbn [cnt_indices]; apply length_insert.
Qed.

Lemma countLeaf_total T t st :
  0 <= T -> inTile T t ->
  Z.of_nat (length (cnt_indices st)) = (T + 1) * (T + 1) ->
  exists st',
    countLeaf (T + 1) t st = Done st' /\
    length (cnt_indices st') = length (cnt_indices st).
Proof.
  intros HT Hin Hlen. apply corners_inGrid in Hin.
  destruct t as [ax ay bx by_ cx cy]. cbn [corners] in Hin.
  rewrite !Forall_cons in Hin. destruct Hin as (Ha & Hb & Hc & _).
  unfold countLeaf.
  destruct (useVertex_total T ax ay st HT Ha Hlen) as (s1 & -> & H1). cbn [bind].
  destruct (useVertex_total T bx by_ s1 HT Hb ltac:(lia)) as (s2 & -> & H2). cbn [bind].
  destruct (useVertex_total T cx cy s2 HT Hc ltac:(lia)) as (s3 & -> & H3). cbn [bind].
  eexists. split; [reflexivity|]. cbn [cnt_indices]. lia.
Qed.

Lemma countElements_S size errors maxError maxScale fuel t st :
  countElements size errors maxError maxScale (S fuel) t st =
  (let* down := drillDown size errors maxError maxScale t in
   if down : bool then
     let* st' := countElements size errors maxError maxScale fuel (firstHalf t) st in
     countElements size errors maxError maxScale fuel (secondHalf t) st'
   else countLeaf size t st).
Proof. reflexivity. Qed.

(** on the 2 x 2 grid with [maxLength = 1/2] the recursion returns to the
    first root triangle after two calls *)
Lemma half_length_cycle (fuel : nat) : forall st,
  length (cnt_indices st) = 4%nat ->
  countElements 2 (replicate 4 0%Q) 0 (1 # 2) fuel (Tri 0 0 1 1 1 0) st = Fail OutOfFuel.
Proof.
  induction fuel as [fuel IH] using lt_wf_ind. intros st Hlen.
  destruct fuel as [|fuel]; [reflexivity|].
  rewrite countElements_S.
  change (drillDown 2 (replicate 4 0%Q) 0 (1 # 2) (Tri 0 0 1 1 1 0)) with (@Done bool true).
  cbn [bind]. change (firstHalf (Tri 0 0 1 1 1 0)) with (Tri 1 0 0 0 0 0).
  change (secondHalf (Tri 0 0 1 1 1 0)) with (Tri 1 1 1 0 0 0).
  destruct fuel as [|fuel]; [reflexivity|].
  rewrite (countElements_S _ _ _ _ _ (Tri 1 0 0 0 0 0)).
  change (drillDown 2 (replicate 4 0%Q) 0 (1 # 2) (Tri 1 0 0 0 0 0)) with (@Done bool true).
  cbn [bind]. change (firstHalf (Tri 1 0 0 0 0 0)) with (Tri 0 0 1 0 0 0).
  change (secondHalf (Tri 1 0 0 0 0 0)) with (Tri 0 0 0 0 0 0).
  destruct fuel as [|fuel]; [reflexivity|].
  rewrite (countElements_S _ _ _ _ _ (Tri 0 0 1 0 0 0)).
  change (drillDown 2 (replicate 4 0%Q) 0 (1 # 2) (Tri 0 0 1 0 0 0)) with (@Done bool false).
  cbn [bind].
  destruct (countLeaf_total 1 (Tri 0 0 1 0 0 0) st ltac:(lia)) as (s1 & E1 & H1);
    [cbn [inTile]; lia | lia |].
  change (1 + 1) with 2 in E1. rewrite E1. cbn [bind].
  rewrite (countElements_S _ _ _ _ _ (Tri 0 0 0 0 0 0)).
  change (drillDown 2 (replicate 4 0%Q) 0 (1 # 2) (Tri 0 0 0 0 0 0)) with (@Done bool false).
  cbn [bind].
  destruct (countLeaf_total 1 (Tri 0 0 0 0 0 0) s1 ltac:(lia)) as (s2 & E2 & H2);
    [cbn [inTile]; lia | lia |].
  change (1 + 1) with 2 in E2. rewrite E2. cbn [bind].
  rewrite (countElements_S _ _ _ _ _ (Tri 1 1 1 0 0 0)).
  change (drillDown 2 (replicate 4 0%Q) 0 (1 # 2) (Tri 1 1 1 0 0 0)) with (@Done bool true).
  cbn [bind]. change (firstHalf (Tri 1 1 1 0 0 0)) with (Tri 0 0 1 1 1 0).
  rewrite (IH (S fuel) ltac:(lia) s2 ltac:(lia)). reflexivity.
Qed.

(** * The claims *)

(** C9: for every grid the constructor returns, [numTriangles] is
    [2 * T * T - 2] and [numParentTriangles] is [T * T - 2], where
    [T = gridSize - 1]. *)
Theorem table_sizes (g : Z) (m : Martini) :
  Martini_new g = Done m ->
  let T := gridSize m - 1 in
  gridSize m = g /\
  numTriangles m = 2 * T * T - 2 /\ numParentTriangles m = T * T - 2.
Proof.
  unfold Martini_new. cbn zeta.
  destruct (truthy _); [discriminate|]. intros Hrun.
  apply bind_Done in Hrun as (ind & _ & Hrun).
  apply bind_Done in Hrun as (c0 & _ & Hrun).
  apply bind_Done in Hrun as (c1 & _ & Hrun).
  injection Hrun as <-. cbn [gridSize numTriangles numParentTriangles]. lia.
Qed.

Lemma table_sizes_witness :
  Martini_new 5 = Done peakGrid /\
  (let T := gridSize peakGrid - 1 in
   gridSize peakGrid = 5 /\
   numTriangles peakGrid = 2 * T * T - 2 /\ numParentTriangles peakGrid = T * T - 2).
Proof.
  split; [vm_compute; reflexivity|].
  apply (table_sizes 5 peakGrid). vm_compute. reflexivity.
Defined.

(** C8: for every triangle of the table of a grid, the sums [ax + bx] and
    [ay + by] are even, the corner [c] that lines 75-78 rebuild from the
    entry lies in the tile, and [a], [b], [c] are pairwise distinct. *)
Theorem table_triangles (g : Z) (m : Martini) (i : Z) :
  g - 1 < 2 ^ 16 -> Martini_new g = Done m -> 0 <= i < numTriangles m ->
  exists ax ay bx by_ : Z,
    get (coords m) (i * 4 + 0) = Done ax /\ get (coords m) (i * 4 + 1) = Done ay /\
    get (coords m) (i * 4 + 2) = Done bx /\ get (coords m) (i * 4 + 3) = Done by_ /\
    (ax + bx) mod 2 = 0 /\ (ay + by_) mod 2 = 0 /\
    let T := g - 1 in
    let mx := (ax + bx) / 2 in
    let my := (ay + by_) / 2 in
    let cx := mx + (my - ay) in
    let cy := my + (ax - mx) in
    apex ax ay bx by_ = (cx, cy) /\
    (0 <= cx <= T /\ 0 <= cy <= T) /\
    (ax, ay) <> (bx, by_) /\ (ax, ay) <> (cx, cy) /\ (bx, by_) <> (cx, cy).
Proof.
  intros Hg Hnew Hi.
  destruct (Martini_new_inv g m Hg Hnew) as (n & Hn & -> & Hgrid).
  destruct (table_entry n Hn m Hgrid i Hi)
    as (ax & ay & bx & by_ & cx & cy & Ht & G0 & G1 & G2 & G3 & Hin & Hsh & Hc).
  pose proof (T_bounds n Hn _ eq_refl) as HT.
  exists ax, ay, bx, by_. repeat (split; [assumption|]).
  destruct Hgrid as (_ & HN & _). rewrite HN in Hi.
  pose proof (rankOf_bounds n Hn _ eq_refl i Hi) as Hr.
  set (T := 2 ^ Z.of_nat n) in *.
  destruct (rankOf n i) as [|k] eqn:Hk; [lia|].
  pose proof (shape_distinct _ _ _ _ _ _ _ Hsh) as Hd.
  pose proof Hc as Hapex. unfold apex in Hc. cbn [fst snd inTile] in *.
  rewrite !sar_1_small in Hc by lia.
  injection Hc as Hcx Hcy.
  assert ((ax + bx) mod 2 = 0 /\ (ay + by_) mod 2 = 0) as [Hex Hey].
  { clear Hd Hcx Hcy.
    destruct Hsh as [e' [[Hk' Hl] | [Hk' Hh]]].
    - destruct Hl as (d & i' & j' & Hcx & Hcy & Hax & Hay & Hbx & Hby).
      destruct e' as [|e']; [lia|]. rewrite pow2_S in *.
      set (s := 2 ^ Z.of_nat e') in *.
      split; destruct d; cbn [dx dy turn] in *; Z.div_mod_to_equations; lia.
    - destruct Hh as (w & i' & j' & Hcx & Hcy & Hax & Hay & Hbx & Hby).
      set (s := 2 ^ Z.of_nat e') in *.
      split; destruct w; cbn [dx dy turn] in *; Z.div_mod_to_equations; lia. }
  split; [assumption|]. split; [assumption|]. cbn zeta.
  replace ((ax + bx) / 2 + ((ay + by_) / 2 - ay)) with cx by lia.
  replace ((ay + by_) / 2 + (ax - (ax + bx) / 2)) with cy by lia.
  split; [exact Hapex|]. split; [lia|]. exact Hd.
Qed.

Lemma table_triangles_witness :
  5 - 1 < 2 ^ 16 /\ Martini_new 5 = Done peakGrid /\
  0 <= 7 < numTriangles peakGrid /\
  exists ax ay bx by_ : Z,
    get (coords peakGrid) (7 * 4 + 0) = Done ax /\
    get (coords peakGrid) (7 * 4 + 1) = Done ay /\
    get (coords peakGrid) (7 * 4 + 2) = Done bx /\
    get (coords peakGrid) (7 * 4 + 3) = Done by_ /\
    (ax + bx) mod 2 = 0 /\ (ay + by_) mod 2 = 0 /\
    let T := 5 - 1 in
    let mx := (ax + bx) / 2 in
    let my := (ay + by_) / 2 in
    let cx := mx + (my - ay) in
    let cy := my + (ax - mx) in
    apex ax ay bx by_ = (cx, cy) /\
    (0 <= cx <= T /\ 0 <= cy <= T) /\
    (ax, ay) <> (bx, by_) /\ (ax, ay) <> (cx, cy) /\ (bx, by_) <> (cx, cy).
Proof.
  split; [lia|]. split; [vm_compute; reflexivity|]. split; [vm_compute; split; congruence|].
  apply (table_triangles 5 peakGrid 7); [lia | vm_compute; reflexivity |].
  vm_compute; split; congruence.
Defined.

(** C5: at [gridSize = 1] the test of line 6 lets the size through
    ([0 & -1] is [0]), and the constructor stops at line 15 on the table
    length [-8], not with the error that reports the grid size. *)
Theorem constructor_at_one :
  Martini_new 1 = Fail (RangeError (-8)) /\
  Martini_new 1 <> Fail (InvalidGridSize 1).
Proof. split; [vm_compute; reflexivity | vm_compute; discriminate]. Qed.

(** X1: every other size whose coordinates fit the table is handled as
    the error message of line 7 says: a size [2^n + 1] is accepted, any
    other is reported. *)
Lemma constructor_elsewhere (g : Z) :
  - 2 ^ 31 < g - 1 < 2 ^ 16 -> g <> 1 ->
  (exists n : nat, g = 2 ^ Z.of_nat n + 1 /\ exists m, Martini_new g = Done m) \/
  ((forall n : nat, g <> 2 ^ Z.of_nat n + 1) /\
   Martini_new g = Fail (InvalidGridSize g)).
Proof.
  intros Hg Hne.
  destruct (truthy (band (g - 1) (g - 1 - 1))) eqn:Hguard.
  - right. split.
    + intros n ->. replace (2 ^ Z.of_nat n + 1 - 1) with (2 ^ Z.of_nat n) in * by lia.
      assert (n <= 15)%nat as Hn.
      { destruct (Nat.le_gt_cases n 15) as [|Hgt]; [assumption|exfalso].
        assert (2 ^ Z.of_nat 16 <= 2 ^ Z.of_nat n) by (apply pow2_le; lia).
        change (2 ^ Z.of_nat 16) with (2 ^ 16) in *. lia. }
      rewrite guard_pow2 in Hguard by lia. discriminate.
    + unfold Martini_new. cbn zeta. rewrite Hguard. reflexivity.
  - left. destruct (guard_passes_inv (g - 1) Hg Hguard) as [H0 | (n & Hn & Hpow)]; [lia|].
    exists n. split; [lia|]. replace g with (2 ^ Z.of_nat n + 1) by lia.
    apply Martini_new_total. exact Hn.
Qed.

Lemma constructor_elsewhere_witness :
  - 2 ^ 31 < 6 - 1 < 2 ^ 16 /\ 6 <> 1 /\
  ((exists n : nat, 6 = 2 ^ Z.of_nat n + 1 /\ exists m, Martini_new 6 = Done m) \/
   ((forall n : nat, 6 <> 2 ^ Z.of_nat n + 1) /\
    Martini_new 6 = Fail (InvalidGridSize 6))).
Proof.
  split; [lia|]. split; [lia|]. apply (constructor_elsewhere 6); lia.
Defined.

(** C2: after the sweep of the constructor every error is non-negative,
    and at every parent triangle of the table the error at the middle of
    its long edge is at least the error at the middles of its two
    halves. *)
Theorem errors_dominate (g : Z) (m : Martini) (terrain : list Q) (tile : Tile) :
  g - 1 < 2 ^ 16 -> Martini_new g = Done m -> createTile m terrain = Done tile ->
  (forall p, 0 <= p < g * g ->
     exists e : Q, get (errors tile) p = Done e /\ (0 <= e)%Q) /\
  (forall i, 0 <= i < numParentTriangles m ->
     exists (t : tri) (em el er : Q),
       readTriangle (coords m) i = Done t /\
       get (errors tile) (pixel g (mid t)) = Done em /\
       get (errors tile) (pixel g (mid (firstHalf t))) = Done el /\
       get (errors tile) (pixel g (mid (secondHalf t))) = Done er /\
       (el <= em)%Q /\ (er <= em)%Q).
Proof.
  intros Hg Hnew Htile.
  destruct (Martini_new_inv g m Hg Hnew) as (n & Hn & -> & Hgrid).
  destruct (createTile_inv m terrain tile Htile) as (Hlen & _ & Hupd).
  pose proof Hgrid as (Hsize & HN & HP & _).
  destruct (update_ordered n Hn m Hgrid terrain Hlen (replicate (length terrain) 0%Q))
    as (E & HE & HlenE & Hpos & Hord).
  { rewrite length_replicate, Hlen, Hsize. reflexivity. }
  { intros p e Hget. apply get_replicate in Hget as ->. apply Qle_refl. }
  rewrite HE in Hupd. injection Hupd as <-. split.
  - intros p Hp. destruct (get_in_range E p ltac:(lia)) as [e He].
    exists e. split; [exact He | exact (Hpos p e He)].
  - intros i Hi. destruct (Hord i Hi) as (em & el & er & Hem & Hel & Her & Hle & Hre).
    exists (triangleOf (2 ^ Z.of_nat n) i), em, el, er.
    split; [|auto]. apply (readTriangle_table n Hn m Hgrid). lia.
Qed.

Lemma errors_dominate_witness :
  5 - 1 < 2 ^ 16 /\ Martini_new 5 = Done peakGrid /\
  createTile peakGrid peakTerrain = Done peakTile /\
  (forall p, 0 <= p < 5 * 5 ->
     exists e : Q, get (errors peakTile) p = Done e /\ (0 <= e)%Q) /\
  (forall i, 0 <= i < numParentTriangles peakGrid ->
     exists (t : tri) (em el er : Q),
       readTriangle (coords peakGrid) i = Done t /\
       get (errors peakTile) (pixel 5 (mid t)) = Done em /\
       get (errors peakTile) (pixel 5 (mid (firstHalf t))) = Done el /\
       get (errors peakTile) (pixel 5 (mid (secondHalf t))) = Done er /\
       (el <= em)%Q /\ (er <= em)%Q).
Proof.
  split; [lia|]. split; [vm_compute; reflexivity|]. split; [vm_compute; reflexivity|].
  apply (errors_dominate 5 peakGrid peakTerrain peakTile);
    [lia | vm_compute; reflexivity | vm_compute; reflexivity].
Defined.

(** C4, as the code has it: the four corner pixels of the tile keep the
    error 0 for every terrain. *)
Theorem corner_errors_zero (g : Z) (m : Martini) (terrain : list Q) (tile : Tile)
  (x y : Z) :
  g - 1 < 2 ^ 16 -> Martini_new g = Done m -> createTile m terrain = Done tile ->
  (x = 0 \/ x = g - 1) -> (y = 0 \/ y = g - 1) ->
  get (errors tile) (pixel g (x, y)) = Done 0%Q.
Proof.
  intros Hg Hnew Htile Hx Hy.
  destruct (Martini_new_inv g m Hg Hnew) as (n & Hn & -> & Hgrid).
  destruct (createTile_inv m terrain tile Htile) as (Hlen & _ & Hupd).
  pose proof Hgrid as (Hsize & HN & HP & _).
  pose proof (T_bounds n Hn _ eq_refl) as HT.
  destruct (update_corners n Hn m Hgrid terrain Hlen
              (replicate (length terrain) 0%Q) x y) as (E & HE & Hsame).
  { rewrite length_replicate, Hlen, Hsize. reflexivity. }
  { lia. } { lia. }
  rewrite HE in Hupd. injection Hupd as <-. rewrite Hsame.
  assert (inGrid (2 ^ Z.of_nat n) (x, y)) as Hxy by (unfold inGrid; cbn [fst snd]; lia).
  pose proof (pixel_range (2 ^ Z.of_nat n) _ ltac:(lia) Hxy) as Hp.
  apply get_Done. split; [lia|]. apply lookup_replicate. split; [reflexivity|].
  rewrite Hsize in Hlen. lia.
Qed.

Lemma corner_errors_zero_witness :
  5 - 1 < 2 ^ 16 /\ Martini_new 5 = Done peakGrid /\
  createTile peakGrid peakTerrain = Done peakTile /\
  (4 = 0 \/ 4 = 5 - 1) /\ (0 = 0 \/ 0 = 5 - 1) /\
  get (errors peakTile) (pixel 5 (4, 0)) = Done 0%Q.
Proof.
  split; [lia|]. split; [vm_compute; reflexivity|]. split; [vm_compute; reflexivity|].
  split; [right; reflexivity|]. split; [left; reflexivity|].
  apply (corner_errors_zero 5 peakGrid peakTerrain peakTile 4 0);
    [lia | vm_compute; reflexivity | vm_compute; reflexivity | right; reflexivity
    | left; reflexivity].
Defined.

(** C4 as stated fails: on the 3 x 3 grid with a bump at the pixel (1, 0)
    of the lower edge, that pixel gets the error 1. *)
Lemma edge_error_counterexample :
  exists (m : Martini) (tile : Tile) (e : Q),
    Martini_new 3 = Done m /\
    createTile m (map inject_Z [0; 1; 0;  0; 0; 0;  0; 0; 0]) = Done tile /\
    get (errors tile) (pixel 3 (1, 0)) = Done e /\ ~ (e == 0)%Q.
Proof.
  eexists _, _, _. split; [vm_compute; reflexivity|].
  split; [vm_compute; reflexivity|]. split; [vm_compute; reflexivity|].
  intros H. vm_compute in H. discriminate.
Qed.

(** C10: [maxLength = 0] is read as no length constraint: the call returns
    what the call without [maxLength] returns. *)
Theorem zero_length_is_none (g : Z) (m : Martini) (terrain : list Q) (tile : Tile)
  (maxError : Q) :
  g - 1 < 2 ^ 16 -> Martini_new g = Done m -> createTile m terrain = Done tile ->
  (forall fuel,
     getMeshRun fuel tile maxError (Some 0%Q) = getMeshRun fuel tile maxError None) /\
  exists (fuel0 : nat) (mesh : Mesh),
    forall fuel, (fuel0 <= fuel)%nat ->
      getMesh fuel tile maxError (Some 0%Q) = Done mesh /\
      getMesh fuel tile maxError None = Done mesh.
Proof.
  intros Hg Hnew Htile. split; [reflexivity|].
  destruct (valid_tile g m terrain tile Hg Hnew Htile)
    as (n & Hn & -> & Hgrid & Hm & Hlen & _).
  pose proof (T_bounds n Hn _ eq_refl) as HT. subst m.
  destruct (tile_leaves n (errors tile) maxError
              (maxScaleOf None (2 ^ Z.of_nat n + 1)) Hn Hlen
              (maxScale_ge_1 None (2 ^ Z.of_nat n + 1) I ltac:(lia))) as (L1 & L2 & HF & Hc & Hleaves).
  exists (S (2 * n)), (meshOf (L1 ++ L2)). intros fuel Hfuel.
  destruct (Hleaves fuel ltac:(lia)) as [H1 H2].
  destruct (two_passes n Hn tile Hgrid maxError None fuel L1 L2 H1 H2 HF Hc)
    as (ind & _ & _ & _ & _ & _ & Hrun).
  unfold getMesh.
  change (getMeshRun fuel tile maxError (Some 0%Q))
    with (getMeshRun fuel tile maxError None).
  rewrite Hrun. split; reflexivity.
Qed.

Lemma zero_length_is_none_witness :
  5 - 1 < 2 ^ 16 /\ Martini_new 5 = Done peakGrid /\
  createTile peakGrid peakTerrain = Done peakTile /\
  (forall fuel,
     getMeshRun fuel peakTile 0 (Some 0%Q) = getMeshRun fuel peakTile 0 None) /\
  exists (fuel0 : nat) (mesh : Mesh),
    forall fuel, (fuel0 <= fuel)%nat ->
      getMesh fuel peakTile 0 (Some 0%Q) = Done mesh /\
      getMesh fuel peakTile 0 None = Done mesh.
Proof.
  split; [lia|]. split; [vm_compute; reflexivity|]. split; [vm_compute; reflexivity|].
  apply (zero_length_is_none 5 peakGrid peakTerrain peakTile 0);
    [lia | vm_compute; reflexivity | vm_compute; reflexivity].
Defined.

(** C1, for the lengths for which the recursion stops ([maxLength] absent,
    zero, or at least 1): the two passes run over the same leaves in the
    same order, pass 2 writes [3 * numTriangles] entries, each below
    [numVertices], the indices are dense and one per used vertex, every
    slot of [vertices] is filled, and no access leaves a buffer. *)
Theorem two_pass_extraction (g : Z) (m : Martini) (terrain : list Q) (tile : Tile)
  (maxError : Q) (maxLength : option Q) :
  g - 1 < 2 ^ 16 -> Martini_new g = Done m -> createTile m terrain = Done tile ->
  lengthBound maxLength ->
  twoPassRun g m tile maxError maxLength.
Proof.
  intros Hg Hnew Htile Hbound.
  destruct (valid_tile g m terrain tile Hg Hnew Htile)
    as (n & Hn & -> & Hgrid & Hm & Hlen & _).
  pose proof (T_bounds n Hn _ eq_refl) as HT. subst m.
  set (T := 2 ^ Z.of_nat n) in *.
  destruct (tile_leaves n (errors tile) maxError (maxScaleOf maxLength (T + 1)) Hn Hlen
              (maxScale_ge_1 maxLength (T + 1) Hbound ltac:(lia)))
    as (L1 & L2 & HF & Hc & Hleaves).
  fold T in HF, Hleaves.
  destruct (Hleaves (S (2 * n)) ltac:(lia)) as [H1 H2].
  destruct (two_passes n Hn tile Hgrid maxError maxLength _ L1 L2 H1 H2 HF Hc)
    as (ind & Hindexed & _).
  fold T in Hindexed. set (L := L1 ++ L2) in *. set (seen := seenAfter [] L) in *.
  pose proof Hindexed as (Hilen & Hnd & Hall & Hget).
  assert (forall v, v ∈ cornersOf L <-> v ∈ seen) as Hseen.
  { intros v. unfold seen. rewrite seenAfter_elem, elem_of_nil. tauto. }
  exists (S (2 * n)), L, ind. cbn zeta. fold seen.
  replace (T + 1 - 1) with T by lia.
  split; [|split; [|split; [|split; [|split; [|split; [|split]]]]]].
  - intros fuel Hfuel. destruct (Hleaves fuel ltac:(lia)) as [H1' H2'].
    destruct (two_passes n Hn tile Hgrid maxError maxLength fuel L1 L2 H1' H2' HF Hc)
      as (ind' & Hindexed' & P1 & R1 & P2 & R2 & Hrun).
    fold T L seen in Hindexed', P1, R1, P2, R2, Hrun.
    assert (ind' = ind) as ->.
    { destruct Hindexed' as (Hilen' & _ & _ & Hget').
      apply list_eq. intros i.
      destruct (Z.lt_ge_cases (Z.of_nat i) ((T + 1) * (T + 1))) as [Hi | Hi].
      - assert (inGrid T (Z.of_nat i mod (T + 1), Z.of_nat i / (T + 1))) as Hp.
        { unfold inGrid. cbn [fst snd].
          pose proof (Z.mod_pos_bound (Z.of_nat i) (T + 1) ltac:(lia)).
          assert (0 <= Z.of_nat i / (T + 1)) by (apply Z.div_pos; lia).
          assert (Z.of_nat i / (T + 1) < T + 1)
            by (apply Z.div_lt_upper_bound; lia).
          lia. }
        pose proof (Hget _ Hp) as G1. pose proof (Hget' _ Hp) as G2.
        rewrite <- G1 in G2. unfold pixel in G1, G2. cbn [fst snd] in G1, G2.
        replace (Z.of_nat i / (T + 1) * (T + 1) + Z.of_nat i mod (T + 1))
          with (Z.of_nat i) in G1, G2
          by (rewrite (Z.div_mod (Z.of_nat i) (T + 1)) at 1 by lia; lia).
        unfold get in G1, G2. destruct (Z.ltb_spec (Z.of_nat i) 0); [lia|].
        rewrite Nat2Z.id in G1, G2.
        destruct (ind' !! i), (ind !! i); congruence.
      - rewrite !lookup_ge_None_2 by lia. reflexivity. }
    auto.
  - rewrite trisOf_length. lia.
  - rewrite coordsOf_length. lia.
  - unfold trisOf. apply Forall_forall. intros a Ha.
    apply list_elem_of_In, in_flat_map in Ha as (t & Ht & Ha).
    apply in_map_iff in Ha as (v & <- & Hv).
    assert (v ∈ seen) as Hvs.
    { apply Hseen. unfold cornersOf. apply list_elem_of_In, in_flat_map. eauto. }
    pose proof (indexOf_range v seen). pose proof (indexOf_elem v seen Hvs). lia.
  - intros k Hk.
    destruct (lookup_lt_is_Some_2 seen (Z.to_nat k) ltac:(lia)) as [v Hv].
    pose proof (list_elem_of_lookup_2 _ _ _ Hv) as Hvs.
    rewrite Forall_forall in Hall.
    exists v. split; [apply Hall; exact Hvs|]. split; [apply Hseen; exact Hvs|].
    split.
    + rewrite (Hget v (Hall v Hvs)), decide_True by exact Hvs.
      rewrite (lookup_indexOf seen _ v Hnd Hv). do 2 f_equal. lia.
    + destruct (coordsOf_lookup seen (Z.to_nat k)) as [C1 C2].
      unfold point in *. rewrite Hv in C1, C2. cbn [fmap option_fmap option_map] in C1, C2.
      split; apply get_Done; (split; [lia|]).
      * replace (Z.to_nat (2 * k)) with (2 * Z.to_nat k)%nat by lia. exact C1.
      * replace (Z.to_nat (2 * k + 1)) with (2 * Z.to_nat k + 1)%nat by lia. exact C2.
  - intros v Hv. apply Hseen in Hv. rewrite Forall_forall in Hall.
    exists (indexOf v seen).
    pose proof (indexOf_range v seen). pose proof (indexOf_elem v seen Hv).
    split; [lia|]. rewrite (Hget v (Hall v Hv)), decide_True by exact Hv. reflexivity.
  - intros v w k Hv Hw Hk Gv Gw.
    rewrite (Hget v Hv) in Gv. rewrite (Hget w Hw) in Gw.
    destruct (decide (v ∈ seen)) as [Sv|]; [|injection Gv; lia].
    destruct (decide (w ∈ seen)) as [Sw|]; [|injection Gw; lia].
    apply (indexOf_inj v w seen Sv Sw). injection Gv. injection Gw. lia.
  - intros v Hv Hout. rewrite (Hget v Hv).
    rewrite decide_False; [reflexivity|]. intros Hin. apply Hout, Hseen. exact Hin.
Qed.

Lemma two_pass_extraction_witness :
  5 - 1 < 2 ^ 16 /\ Martini_new 5 = Done peakGrid /\
  createTile peakGrid peakTerrain = Done peakTile /\
  lengthBound (Some 2%Q) /\
  twoPassRun 5 peakGrid peakTile 0 (Some 2%Q).
Proof.
  split; [lia|]. split; [vm_compute; reflexivity|]. split; [vm_compute; reflexivity|].
  split; [right; vm_compute; discriminate|].
  apply (two_pass_extraction 5 peakGrid peakTerrain peakTile 0 (Some 2%Q));
    [lia | vm_compute; reflexivity | vm_compute; reflexivity
    | right; vm_compute; discriminate].
Defined.

(** C1 as stated, for every [maxLength], fails: with [maxLength = -1]
    every triangle has [legLength > maxScale], the recursion of pass 1
    never reaches a leaf, and the call returns no mesh. *)
Lemma negative_length_counterexample :
  exists (m : Martini) (tile : Tile),
    Martini_new 3 = Done m /\
    createTile m (replicate 9 0%Q) = Done tile /\
    (forall fuel, getMeshRun fuel tile 0 (Some (-1)%Q) = Fail OutOfFuel) /\
    ~ twoPassRun 3 m tile 0 (Some (-1)%Q).
Proof.
  destruct (Martini_new 3) as [m|] eqn:Hm; [|vm_compute in Hm; discriminate].
  destruct (createTile m (replicate 9 0%Q)) as [tile|] eqn:Ht;
    [|vm_compute in Hm; injection Hm as <-; vm_compute in Ht; discriminate].
  exists m, tile. split; [reflexivity|]. split; [exact Ht|].
  destruct (valid_tile 3 m _ tile ltac:(lia) Hm Ht) as (n & Hn & H3 & Hgrid & <- & Hlen & _).
  symmetry in H3. apply pow2_eq_2 in H3 as ->.
  pose proof (getMeshRun_negative 1 tile 0 (-1)%Q ltac:(lia) Hgrid Hlen eq_refl) as Hrun.
  split; [exact Hrun|].
  intros (fuel0 & L & ind & H & _). cbn zeta in H.
  destruct (H fuel0 (le_n _)) as (_ & _ & _ & _ & Hmesh).
  rewrite Hrun in Hmesh. discriminate.
Qed.

(** A length strictly between 0 and 1 has the same effect: on the 2 x 2
    grid with [maxLength = 1/2] the unit triangles are split again and
    again, and the call returns no mesh. *)
Lemma fractional_length_diverges :
  exists (m : Martini) (tile : Tile),
    Martini_new 2 = Done m /\
    createTile m (replicate 4 0%Q) = Done tile /\
    forall fuel, getMeshRun fuel tile 0 (Some (1 # 2)%Q) = Fail OutOfFuel.
Proof.
  eexists _, _. split; [vm_compute; reflexivity|]. split; [vm_compute; reflexivity|].
  intros fuel. unfold getMeshRun. cbn zeta.
  cbn [martini gridSize errors indices maxScaleOf].
  change (Qeq_bool (1 # 2) 0) with false. cbv iota.
  change (2 - 1) with 1.
  rewrite (half_length_cycle fuel); reflexivity.
Qed.

(** C7: on a flat terrain every error is 0, and [getMesh(0)] returns the
    two root triangles on the four corners of the tile. *)
Theorem flat_terrain_mesh (g : Z) (m : Martini) (terrain : list Q) (tile : Tile)
  (h : Q) :
  g - 1 < 2 ^ 16 -> Martini_new g = Done m -> createTile m terrain = Done tile ->
  Forall (fun v => (v == h)%Q) terrain ->
  (forall p, 0 <= p < g * g ->
     exists e : Q, get (errors tile) p = Done e /\ (e == 0)%Q) /\
  forall fuel, (1 <= fuel)%nat ->
    let T := g - 1 in
    getMesh fuel tile 0 None =
    Done (mkMesh [0; 0; T; T; T; 0; 0; T] [0; 1; 2; 1; 0; 3]).
Proof.
  intros Hg Hnew Htile Hflat.
  destruct (valid_tile g m terrain tile Hg Hnew Htile)
    as (n & Hn & -> & Hgrid & Hm & Hlen & _).
  pose proof (T_bounds n Hn _ eq_refl) as HT.
  destruct (createTile_inv m terrain tile Htile) as (Hterr & _ & Hupd).
  pose proof Hgrid as (Hsize & _).
  destruct (update_flat n Hn m Hgrid terrain Hterr (replicate (length terrain) 0%Q) h)
    as (E & HE & HlenE & Hzero).
  { rewrite length_replicate, Hterr, Hsize. reflexivity. }
  { intros p t Hget. apply get_Done in Hget as [_ Hget].
    rewrite Forall_forall in Hflat. apply Hflat.
    eapply list_elem_of_lookup_2. exact Hget. }
  { intros p e Hget. apply get_replicate in Hget as ->. reflexivity. }
  rewrite HE in Hupd. injection Hupd as ->. subst m.
  set (T := 2 ^ Z.of_nat n) in *. split.
  - intros p Hp. destruct (get_in_range (errors tile) p ltac:(lia)) as [e He].
    exists e. split; [exact He | exact (Hzero p e He)].
  - intros fuel Hfuel. cbn zeta. replace (T + 1 - 1) with T by lia.
    destruct (root_shapes n) as [Hs1 Hs2]. fold T in Hs1, Hs2.
    destruct (root_inTile T ltac:(lia)) as [Hi1 Hi2].
    assert (forall t, inTile T t -> shape (2 * n) t ->
              leaves (T + 1) (errors tile) 0 (maxScaleOf None (T + 1)) fuel t = Done [t])
      as Hleaf.
    { intros t Hin Hsh. apply (leaves_more_fuel _ _ _ _ 1%nat); [exact Hfuel|].
      cbn [leaves].
      destruct (drillDown_shape T ltac:(lia) (errors tile) Hlen 0 (maxScaleOf None (T + 1))
                  (2 * n) t Hin Hsh) as (e & He & ->).
      rewrite legOf_even. fold T. cbn [bind maxScaleOf].
      assert (Qgtb e 0 = false) as ->
        by (apply Qgtb_false; rewrite (Hzero _ _ He); apply Qle_refl).
      assert (Qgtb (inject_Z T) (inject_Z (T + 1)) = false) as ->
        by (apply Qgtb_false; rewrite <- Zle_Qle; lia).
      rewrite andb_false_r. reflexivity. }
    destruct (two_passes n Hn tile Hgrid 0 None fuel
                [Tri 0 0 T T T 0] [Tri T T 0 0 0 T]) as (ind & _ & _ & _ & _ & _ & Hrun).
    + apply Hleaf; assumption.
    + apply Hleaf; assumption.
    + cbn [app]. apply Forall_cons. split; [assumption|].
      apply Forall_singleton. assumption.
    + cbn. lia.
    + unfold getMesh. rewrite Hrun. cbn [bind fst app]. fold T.
      rewrite root_mesh by lia. reflexivity.
Qed.

Lemma flat_terrain_mesh_witness :
  5 - 1 < 2 ^ 16 /\ Martini_new 5 = Done peakGrid /\
  createTile peakGrid flatTerrain = Done flatTile /\
  Forall (fun v => (v == 7 # 2)%Q) flatTerrain /\
  (forall p, 0 <= p < 5 * 5 ->
     exists e : Q, get (errors flatTile) p = Done e /\ (e == 0)%Q) /\
  forall fuel, (1 <= fuel)%nat ->
    let T := 5 - 1 in
    getMesh fuel flatTile 0 None =
    Done (mkMesh [0; 0; T; T; T; 0; 0; T] [0; 1; 2; 1; 0; 3]).
Proof.
  assert (Forall (fun v => (v == 7 # 2)%Q) flatTerrain) as Hflat.
  { apply Forall_forall. intros v Hv. apply elem_of_replicate in Hv as [-> _].
    reflexivity. }
  split; [lia|]. split; [vm_compute; reflexivity|]. split; [vm_compute; reflexivity|].
  split; [exact Hflat|].
  apply (flat_terrain_mesh 5 peakGrid flatTerrain flatTile (7 # 2)%Q);
    [lia | vm_compute; reflexivity | vm_compute; reflexivity | exact Hflat].
Defined.

(** C6: with [e1 <= e2] and no length constraint, the mesh for [e1] has at
    least as many triangles as the mesh for [e2], and every vertex of the
    mesh for [e2] is a vertex of the mesh for [e1]. *)
Theorem threshold_monotone (g : Z) (m : Martini) (terrain : list Q) (tile : Tile)
  (e1 e2 : Q) :
  g - 1 < 2 ^ 16 -> Martini_new g = Done m -> createTile m terrain = Done tile ->
  (e1 <= e2)%Q ->
  exists (fuel0 : nat) (fine coarse : Mesh),
    (forall fuel, (fuel0 <= fuel)%nat ->
       getMesh fuel tile e1 None = Done fine /\
       getMesh fuel tile e2 None = Done coarse) /\
    (length (triangles coarse) <= length (triangles fine))%nat /\
    (length (triangles fine) `mod` 3 = 0)%nat /\
    (length (triangles coarse) `mod` 3 = 0)%nat /\
    forall v, meshVertex coarse v -> meshVertex fine v.
Proof.
  intros Hg Hnew Htile Hle.
  destruct (valid_tile g m terrain tile Hg Hnew Htile)
    as (n & Hn & -> & Hgrid & Hm & Hlen & _).
  pose proof (T_bounds n Hn _ eq_refl) as HT. subst m.
  set (T := 2 ^ Z.of_nat n) in *.
  pose proof (maxScale_ge_1 None (T + 1) I ltac:(lia)) as Hscale.
  destruct (tile_leaves n (errors tile) e1 (maxScaleOf None (T + 1)) Hn Hlen Hscale)
    as (F1 & F2 & HFF & HFc & HFleaves).
  destruct (tile_leaves n (errors tile) e2 (maxScaleOf None (T + 1)) Hn Hlen Hscale)
    as (C1 & C2 & HCF & HCc & HCleaves).
  fold T in HFF, HCF, HFleaves, HCleaves.
  exists (S (2 * n)), (meshOf (F1 ++ F2)), (meshOf (C1 ++ C2)).
  destruct (HFleaves (S (2 * n)) ltac:(lia)) as [HF1 HF2].
  destruct (HCleaves (S (2 * n)) ltac:(lia)) as [HC1 HC2].
  destruct (leaves_refine _ _ e1 e2 Hle _ _ _ _ _ HF1 HC1) as [Hl1 Hv1].
  destruct (leaves_refine _ _ e1 e2 Hle _ _ _ _ _ HF2 HC2) as [Hl2 Hv2].
  split; [|split; [|split; [|split]]].
  - intros fuel Hfuel.
    destruct (HFleaves fuel ltac:(lia)) as [HF1' HF2'].
    destruct (HCleaves fuel ltac:(lia)) as [HC1' HC2'].
    destruct (two_passes n Hn tile Hgrid e1 None fuel F1 F2 HF1' HF2' HFF HFc)
      as (ind1 & _ & _ & _ & _ & _ & Hrun1).
    destruct (two_passes n Hn tile Hgrid e2 None fuel C1 C2 HC1' HC2' HCF HCc)
      as (ind2 & _ & _ & _ & _ & _ & Hrun2).
    unfold getMesh. rewrite Hrun1, Hrun2. split; reflexivity.
  - unfold meshOf. cbn [triangles]. rewrite !trisOf_length, !length_app. lia.
  - unfold meshOf. cbn [triangles]. rewrite trisOf_length.
    rewrite Nat.mul_comm. apply Nat.Div0.mod_mul.
  - unfold meshOf. cbn [triangles]. rewrite trisOf_length.
    rewrite Nat.mul_comm. apply Nat.Div0.mod_mul.
  - intros v. rewrite !meshVertex_meshOf. unfold cornersOf.
    rewrite !flat_map_app, !elem_of_app.
    intros [H | H]; [left; apply Hv1 | right; apply Hv2]; exact H.
Qed.

Lemma threshold_monotone_witness :
  5 - 1 < 2 ^ 16 /\ Martini_new 5 = Done peakGrid /\
  createTile peakGrid peakTerrain = Done peakTile /\
  (0 <= 100)%Q /\
  exists (fuel0 : nat) (fine coarse : Mesh),
    (forall fuel, (fuel0 <= fuel)%nat ->
       getMesh fuel peakTile 0 None = Done fine /\
       getMesh fuel peakTile 100 None = Done coarse) /\
    (length (triangles coarse) <= length (triangles fine))%nat /\
    (length (triangles fine) `mod` 3 = 0)%nat /\
    (length (triangles coarse) `mod` 3 = 0)%nat /\
    forall v, meshVertex coarse v -> meshVertex fine v.
Proof.
  split; [lia|]. split; [vm_compute; reflexivity|]. split; [vm_compute; reflexivity|].
  split; [vm_compute; discriminate|].
  apply (threshold_monotone 5 peakGrid peakTerrain peakTile 0 100);
    [lia | vm_compute; reflexivity | vm_compute; reflexivity | vm_compute; discriminate].
Defined.

(** C3, as the code has it: when [maxError] is negative, or is zero while
    the error field is positive at every pixel that is not a corner of the
    tile, [getMesh(maxError)] returns all [2 * T * T] unit triangles on all
    [(T + 1) * (T + 1)] pixels. *)
Theorem full_mesh (g : Z) (m : Martini) (terrain : list Q) (tile : Tile)
  (maxError : Q) :
  g - 1 < 2 ^ 16 -> Martini_new g = Done m -> createTile m terrain = Done tile ->
  (maxError < 0)%Q \/
  ((maxError == 0)%Q /\ roughEverywhere (g - 1) (errors tile) maxError) ->
  exists (fuel0 : nat) (mesh : Mesh),
    (forall fuel, (fuel0 <= fuel)%nat -> getMesh fuel tile maxError None = Done mesh) /\
    let T := g - 1 in
    Z.of_nat (length (triangles mesh)) = 3 * (2 * T * T) /\
    Z.of_nat (length (vertices mesh)) = 2 * ((T + 1) * (T + 1)).
Proof.
  intros Hg Hnew Htile Hcase.
  destruct (valid_tile g m terrain tile Hg Hnew Htile)
    as (n & Hn & -> & Hgrid & Hm & Hlen & Hpos).
  pose proof (T_bounds n Hn _ eq_refl) as HT. subst m.
  replace (2 ^ Z.of_nat n + 1 - 1) with (2 ^ Z.of_nat n) in * by lia.
  set (T := 2 ^ Z.of_nat n) in *.
  assert (roughEverywhere T (errors tile) maxError) as Hrough.
  { destruct Hcase as [Hneg | [_ Hr]]; [|exact Hr].
    intros p Hp _. pose proof (pixel_range T p ltac:(lia) Hp) as Hpx.
    destruct (get_in_range (errors tile) (pixel (T + 1) p) ltac:(lia)) as [e He].
    exists e. split; [exact He|]. eapply Qlt_le_trans; [exact Hneg|]. eauto. }
  pose proof (maxScale_ge_1 None (T + 1) I ltac:(lia)) as Hscale.
  destruct (tile_leaves n (errors tile) maxError (maxScaleOf None (T + 1)) Hn Hlen Hscale)
    as (L1 & L2 & HF & Hc & Hleaves).
  fold T in HF, Hleaves.
  destruct (Hleaves (S (2 * n)) ltac:(lia)) as [H1 H2].
  destruct (roots_cover n (errors tile) maxError _ _ L1 L2 Hn Hlen Hrough Hscale
              (Nat.lt_succ_diag_r _) H1 H2) as [Hcount Hcover].
  fold T in Hcount, Hcover.
  exists (S (2 * n)), (meshOf (L1 ++ L2)). split.
  - intros fuel Hfuel. destruct (Hleaves fuel ltac:(lia)) as [H1' H2'].
    destruct (two_passes n Hn tile Hgrid maxError None fuel L1 L2 H1' H2' HF Hc)
      as (ind & _ & _ & _ & _ & _ & Hrun).
    unfold getMesh. rewrite Hrun. reflexivity.
  - destruct (two_passes n Hn tile Hgrid maxError None _ L1 L2 H1 H2 HF Hc)
      as (ind & (_ & Hnd & Hall & _) & _).
    fold T in Hnd, Hall. cbn zeta. unfold meshOf. cbn [triangles vertices].
    rewrite trisOf_length, coordsOf_length. split; [lia|].
    rewrite Nat2Z.inj_mul. f_equal.
    apply (grid_full T); [lia | exact Hnd | exact Hall |].
    intros p Hp. apply seenAfter_elem. right. apply Hcover. exact Hp.
Qed.

Lemma full_mesh_witness :
  5 - 1 < 2 ^ 16 /\ Martini_new 5 = Done peakGrid /\
  createTile peakGrid peakTerrain = Done peakTile /\
  ((-1 < 0)%Q \/
   ((-1 == 0)%Q /\ roughEverywhere (5 - 1) (errors peakTile) (-1))) /\
  exists (fuel0 : nat) (mesh : Mesh),
    (forall fuel, (fuel0 <= fuel)%nat -> getMesh fuel peakTile (-1) None = Done mesh) /\
    let T := 5 - 1 in
    Z.of_nat (length (triangles mesh)) = 3 * (2 * T * T) /\
    Z.of_nat (length (vertices mesh)) = 2 * ((T + 1) * (T + 1)).
Proof.
  split; [lia|]. split; [vm_compute; reflexivity|]. split; [vm_compute; reflexivity|].
  split; [left; reflexivity|].
  apply (full_mesh 5 peakGrid peakTerrain peakTile (-1));
    [lia | vm_compute; reflexivity | vm_compute; reflexivity | left; reflexivity].
Defined.

(** C3 as stated fails for [maxError = 0] on a terrain that is not flat:
    on the 3 x 3 ramp every error is 0 and the mesh is the two root
    triangles on the four corners, not 8 triangles on 9 pixels. *)
Lemma ramp_counterexample :
  exists (m : Martini) (tile : Tile),
    Martini_new 3 = Done m /\
    createTile m (map inject_Z [0; 1; 2;  0; 1; 2;  0; 1; 2]) = Done tile /\
    ~ (inject_Z 0 == inject_Z 1)%Q /\
    forall fuel, (1 <= fuel)%nat ->
      getMesh fuel tile 0 None =
      Done (mkMesh [0; 0; 2; 2; 2; 0; 0; 2] [0; 1; 2; 1; 0; 3]).
Proof.
  eexists _, _. split; [vm_compute; reflexivity|]. split; [vm_compute; reflexivity|].
  split; [intros H; vm_compute in H; discriminate|].
  match goal with |- forall fuel, _ -> getMesh fuel ?t _ _ = _ => set (tile := t) end.
  assert (Martini_new 3 = Done (martini tile)) as Hm by (vm_compute; reflexivity).
  assert (createTile (martini tile) (map inject_Z [0; 1; 2;  0; 1; 2;  0; 1; 2]) = Done tile)
    as Ht by (vm_compute; reflexivity).
  destruct (valid_tile 3 _ _ tile ltac:(lia) Hm Ht) as (n & Hn & H3 & Hgrid & _ & Hlen & _).
  symmetry in H3. apply pow2_eq_2 in H3 as ->.
  intros fuel Hfuel.
  assert (forall t,
    leaves 3 (errors tile) 0 (inject_Z 3) 1 t = Done [t] ->
    leaves (2 ^ Z.of_nat 1 + 1) (errors tile) 0
      (maxScaleOf None (2 ^ Z.of_nat 1 + 1)) fuel t = Done [t]) as Hmore.
  { intros t H. apply (leaves_more_fuel _ _ _ _ 1%nat); [exact Hfuel | exact H]. }
  destruct (two_passes 1 ltac:(lia) tile Hgrid 0 None fuel
              [Tri 0 0 2 2 2 0] [Tri 2 2 0 0 0 2]) as (ind & _ & _ & _ & _ & _ & Hrun).
  - apply Hmore. vm_compute. reflexivity.
  - apply Hmore. vm_compute. reflexivity.
  - cbn [app]. apply Forall_cons. split; [cbn; lia|].
    apply Forall_singleton. cbn. lia.
  - cbn. lia.
  - unfold getMesh. rewrite Hrun. cbn [bind fst app].
    change (2 ^ Z.of_nat 1) with 2. rewrite (root_mesh 2) by lia. reflexivity.
Qed.

(** * Further properties *)

(** ** The table as a binary tree *)

Lemma descend_stop id t : 2 <= id <= 3 -> descend id t = t.
Proof.
  intros H. rewrite descend_eq. rewrite sar_1_small by lia.
  destruct (Z_lt_dec 1 (id / 2)) as [Hlt|]; [|reflexivity].
  exfalso. Z.div_mod_to_equations. lia.
Qed.

Lemma descend_next id t :
  4 <= id < 2 ^ 31 -> descend id t = descend (id / 2) (descendStep (id / 2) t).
Proof.
  intros H. rewrite descend_eq. rewrite sar_1_small by lia.
  destruct (Z_lt_dec 1 (id / 2)) as [|Hn]; [reflexivity|].
  exfalso. Z.div_mod_to_equations. lia.
Qed.

Lemma descendStep_parity id id' t :
  0 <= id < 2 ^ 31 -> 0 <= id' < 2 ^ 31 -> id mod 2 = id' mod 2 ->
  descendStep id t = descendStep id' t.
Proof.
  intros H H' Hp. rewrite !descendStep_halves, !band_1_small by lia.
  rewrite Hp. reflexivity.
Qed.

Lemma descend_child (k : nat) : forall id t,
  2 ^ Z.of_nat (S k) <= id < 2 ^ Z.of_nat (S (S k)) ->
  id + 2 * 2 ^ Z.of_nat (S k) < 2 ^ 31 ->
  descend (id + 2 ^ Z.of_nat (S k)) t = secondHalf (descend id t) /\
  descend (id + 2 * 2 ^ Z.of_nat (S k)) t = firstHalf (descend id t).
Proof.
  induction k as [|k IH]; intros id t Hid Hfit.
  - change (2 ^ Z.of_nat 1) with 2 in *. change (2 ^ Z.of_nat 2) with 4 in *.
    rewrite (descend_stop id) by lia.
    rewrite (descend_next (id + 2)), (descend_next (id + 2 * 2)) by lia.
    assert (id = 2 \/ id = 3) as [-> | ->] by lia.
    + change ((2 + 2) / 2) with 2. change ((2 + 2 * 2) / 2) with 3.
      rewrite !descend_stop by lia. rewrite !descendStep_halves. split; reflexivity.
    + change ((3 + 2) / 2) with 2. change ((3 + 2 * 2) / 2) with 3.
      rewrite !descend_stop by lia. rewrite !descendStep_halves. split; reflexivity.
  - rewrite (pow2_S (S (S k))), (pow2_S (S k)) in *.
    pose proof (pow2_pos (S k)) as Hp.
    assert (2 <= 2 ^ Z.of_nat (S k)) as Hp2 by (rewrite pow2_S; pose proof (pow2_pos k); lia).
    set (P := 2 ^ Z.of_nat (S k)) in *.
    rewrite (descend_next id), (descend_next (id + 2 * P)),
      (descend_next (id + 2 * (2 * P))) by lia.
    replace ((id + 2 * P) / 2) with (id / 2 + P) by (Z.div_mod_to_equations; lia).
    replace ((id + 2 * (2 * P)) / 2) with (id / 2 + 2 * P) by (Z.div_mod_to_equations; lia).
    assert (P mod 2 = 0) as Hev.
    { unfold P. rewrite pow2_S. rewrite Z.mul_comm. apply Z.mod_mul. lia. }
    assert (2 * P <= id / 2 * 2 + 1 /\ id / 2 < 2 * P) as Hh
      by (Z.div_mod_to_equations; lia).
    rewrite (descendStep_parity (id / 2 + P) (id / 2)),
      (descendStep_parity (id / 2 + 2 * P) (id / 2)).
    + apply IH; [fold P|fold P]; Z.div_mod_to_equations; lia.
    + Z.div_mod_to_equations; lia.
    + Z.div_mod_to_equations; lia.
    + Z.div_mod_to_equations; lia.
    + Z.div_mod_to_equations; lia.
    + Z.div_mod_to_equations; lia.
    + Z.div_mod_to_equations; lia.
Qed.

Lemma rootTriangle_parity T id id' :
  0 <= id < 2 ^ 31 -> 0 <= id' < 2 ^ 31 -> id mod 2 = id' mod 2 ->
  rootTriangle T id = rootTriangle T id'.
Proof.
  intros H H' Hp. unfold rootTriangle. rewrite !band_1_small by lia.
  rewrite Hp. reflexivity.
Qed.

Lemma triangleOf_children T i :
  0 <= i -> leftChildPos i + 2 < 2 ^ 31 ->
  triangleOf T (rightChildPos i) = secondHalf (triangleOf T i) /\
  triangleOf T (leftChildPos i) = firstHalf (triangleOf T i).
Proof.
  intros Hi Hfit. unfold leftChildPos, rightChildPos in *.
  destruct (Z.log2_spec (i + 2) ltac:(lia)) as [Hlo Hhi].
  assert (1 <= Z.log2 (i + 2)) as Hk.
  { change 1 with (Z.log2 2). apply Z.log2_le_mono. lia. }
  destruct (Z.to_nat (Z.log2 (i + 2))) as [|k] eqn:Hn; [lia|].
  replace (Z.log2 (i + 2)) with (Z.of_nat (S k)) in * by lia.
  replace (Z.succ (Z.of_nat (S k))) with (Z.of_nat (S (S k))) in Hhi by lia.
  pose proof (pow2_pos k) as Hp. rewrite (pow2_S k) in *.
  set (P := 2 ^ Z.of_nat k) in *.
  unfold triangleOf. cbn zeta.
  rewrite (rootTriangle_parity T (i + 2 * P + 2) (i + 2)),
    (rootTriangle_parity T (i + 2 * (2 * P) + 2) (i + 2));
    try (Z.div_mod_to_equations; lia).
  replace (i + 2 * P + 2) with (i + 2 + 2 * P) by lia.
  replace (i + 2 * (2 * P) + 2) with (i + 2 + 2 * (2 * P)) by lia.
  pose proof (descend_child k (i + 2) (rootTriangle T (i + 2))) as H.
  rewrite (pow2_S k) in H. fold P in H. apply H; [lia|lia].
Qed.

Lemma log2_pos_spec i :
  0 <= i -> exists k : nat,
    Z.log2 (i + 2) = Z.of_nat (S k) /\
    2 * 2 ^ Z.of_nat k <= i + 2 < 2 * (2 * 2 ^ Z.of_nat k).
Proof.
  intros Hi. destruct (Z.log2_spec (i + 2) ltac:(lia)) as [Hlo Hhi].
  assert (1 <= Z.log2 (i + 2)) as Hk.
  { change 1 with (Z.log2 2). apply Z.log2_le_mono. lia. }
  exists (Z.to_nat (Z.log2 (i + 2) - 1)).
  assert (Z.log2 (i + 2) = Z.of_nat (S (Z.to_nat (Z.log2 (i + 2) - 1)))) as E by lia.
  split; [exact E|]. rewrite E in Hlo, Hhi.
  replace (Z.succ (Z.of_nat (S (Z.to_nat (Z.log2 (i + 2) - 1)))))
    with (Z.of_nat (S (S (Z.to_nat (Z.log2 (i + 2) - 1))))) in Hhi by lia.
  rewrite !pow2_S in *. lia.
Qed.

Lemma log2_between (k : nat) z :
  2 ^ Z.of_nat k <= z < 2 * 2 ^ Z.of_nat k -> Z.log2 z = Z.of_nat k.
Proof.
  intros H. apply Z.log2_unique; [lia|].
  replace (Z.succ (Z.of_nat k)) with (Z.of_nat (S k)) by lia.
  rewrite pow2_S. exact H.
Qed.

Lemma square_pow2 (n : nat) : 2 ^ Z.of_nat n * 2 ^ Z.of_nat n = 2 ^ Z.of_nat (2 * n).
Proof. rewrite <- Z.pow_add_r by lia. f_equal. lia. Qed.

Lemma parentPos_spec i :
  2 <= i ->
  0 <= parentPos i < i /\
  parentPos i + 2 < 2 ^ Z.log2 (i + 2) /\
  (i = rightChildPos (parentPos i) \/ i = leftChildPos (parentPos i)).
Proof.
  intros Hi. unfold parentPos, rightChildPos, leftChildPos. cbn zeta.
  destruct (log2_pos_spec i ltac:(lia)) as (k & -> & Hlo & Hhi).
  replace (Z.of_nat (S k) - 1) with (Z.of_nat k) by lia. rewrite (pow2_S k).
  destruct k as [|k]; [change (2 ^ Z.of_nat 0) with 1 in *; lia|].
  pose proof (pow2_pos (S k)) as Hp. set (P := 2 ^ Z.of_nat (S k)) in *.
  assert (2 <= (i + 2) / P <= 3) as Hc.
  { split; [apply Z.div_le_lower_bound; lia|].
    assert ((i + 2) / P < 4); [apply Z.div_lt_upper_bound; lia|lia]. }
  pose proof (Z.div_mod (i + 2) P ltac:(lia)) as Hdm.
  pose proof (Z.mod_pos_bound (i + 2) P ltac:(lia)) as Hr.
  set (r := (i + 2) mod P) in *. set (c := (i + 2) / P) in *.
  replace (P + r - 2 + 2) with (P + r) by lia.
  rewrite (log2_between (S k) (P + r)) by (fold P; lia). fold P.
  split; [nia|]. split; [lia|].
  assert (c = 2 \/ c = 3) as [E | E] by lia; rewrite E in Hdm; [left|right]; lia.
Qed.

Lemma parent_in_table (n : nat) i :
  let T := 2 ^ Z.of_nat n in
  2 <= i < T * T * 2 - 2 -> 0 <= parentPos i < T * T - 2.
Proof.
  cbn zeta. intros Hi. destruct (parentPos_spec i ltac:(lia)) as (H1 & H2 & _).
  split; [lia|]. rewrite square_pow2 in *.
  destruct (Z.log2_spec (i + 2) ltac:(lia)) as [Hlo _].
  assert (Z.log2 (i + 2) <= Z.of_nat (2 * n)) as Hk.
  { destruct (Z.le_gt_cases (Z.log2 (i + 2)) (Z.of_nat (2 * n))) as [|Hgt]; [assumption|].
    exfalso. assert (Z.of_nat (S (2 * n)) <= Z.log2 (i + 2)) as Hge by lia.
    pose proof (Z.pow_le_mono_r 2 _ _ ltac:(lia) Hge) as Hp. rewrite pow2_S in Hp. lia. }
  pose proof (Z.pow_le_mono_r 2 _ _ ltac:(lia) Hk). lia.
Qed.

Lemma children_in_table (n : nat) i :
  let T := 2 ^ Z.of_nat n in
  0 <= i < T * T - 2 ->
  i < rightChildPos i < leftChildPos i /\ leftChildPos i < T * T * 2 - 2 /\
  Z.log2 (rightChildPos i + 2) = Z.log2 (i + 2) + 1 /\
  Z.log2 (leftChildPos i + 2) = Z.log2 (i + 2) + 1.
Proof.
  cbn zeta. intros Hi. unfold rightChildPos, leftChildPos.
  destruct (log2_pos_spec i ltac:(lia)) as (k & E & Hlo & Hhi). rewrite E.
  rewrite square_pow2 in *.
  rewrite pow2_S. pose proof (pow2_pos k) as Hp. set (P := 2 ^ Z.of_nat k) in *.
  assert (S k < 2 * n)%nat as Hk.
  { destruct (Nat.lt_ge_cases (S k) (2 * n)) as [|Hge]; [assumption|exfalso].
    pose proof (pow2_le (2 * n) (S k) Hge) as Hle. rewrite pow2_S in Hle. fold P in Hle. lia. }
  pose proof (pow2_le (S (S k)) (2 * n) ltac:(lia)) as Hle.
  rewrite !pow2_S in Hle. fold P in Hle.
  split; [lia|]. split; [lia|].
  replace (Z.of_nat (S k) + 1) with (Z.of_nat (S (S k))) by lia.
  split; apply log2_between; rewrite !pow2_S; fold P; lia.
Qed.

(** X2: the table [coords] is the binary tree that [getMesh] walks: positions
    1 and 0 hold the two triangles of lines 128-129, and the two halves of
    the triangle at a parent position [i] are at the positions
    [i + 2^k] and [i + 2 * 2^k], where [k] is the bit length of [i + 2]
    less one. *)
Theorem table_tree (g : Z) (m : Martini) :
  g - 1 < 2 ^ 16 -> Martini_new g = Done m ->
  let T := g - 1 in
  (2 <= T ->
   readTriangle (coords m) 1 = Done (Tri 0 0 T T T 0) /\
   readTriangle (coords m) 0 = Done (Tri T T 0 0 0 T)) /\
  (forall i, 0 <= i < numParentTriangles m ->
    i < rightChildPos i < leftChildPos i /\ leftChildPos i < numTriangles m /\
    exists t,
      readTriangle (coords m) i = Done t /\
      readTriangle (coords m) (rightChildPos i) = Done (secondHalf t) /\
      readTriangle (coords m) (leftChildPos i) = Done (firstHalf t)) /\
  forall i, 2 <= i < numTriangles m ->
    0 <= parentPos i < numParentTriangles m /\
    (i = rightChildPos (parentPos i) \/ i = leftChildPos (parentPos i)).
Proof.
  intros Hg Hnew. cbn zeta.
  destruct (Martini_new_inv g m Hg Hnew) as (n & Hn & -> & Hgrid).
  pose proof (T_bounds n Hn _ eq_refl) as HT.
  pose proof Hgrid as (_ & HN & HP & _).
  replace (2 ^ Z.of_nat n + 1 - 1) with (2 ^ Z.of_nat n) by lia.
  set (T := 2 ^ Z.of_nat n) in *.
  assert (T * T <= 2 ^ 15 * 2 ^ 15) as Hsq by (apply Z.mul_le_mono_nonneg; lia).
  split; [|split].
  - intros H2. assert (4 <= T * T) by nia.
    rewrite !(readTriangle_table n Hn m Hgrid) by lia. fold T.
    unfold triangleOf. cbn zeta. rewrite !descend_stop by lia.
    split; reflexivity.
  - intros i Hi. rewrite HP in Hi. rewrite HN.
    destruct (children_in_table n i Hi) as (H1 & H2 & _). fold T in H2.
    split; [exact H1|]. split; [exact H2|].
    exists (triangleOf T i).
    rewrite !(readTriangle_table n Hn m Hgrid) by lia. fold T.
    destruct (triangleOf_children T i ltac:(lia) ltac:(lia)) as [-> ->].
    repeat split.
  - intros i Hi. rewrite HN in Hi. rewrite HP.
    split; [apply (parent_in_table n i); fold T; lia|].
    destruct (parentPos_spec i ltac:(lia)) as (_ & _ & H). exact H.
Qed.

Lemma table_tree_witness :
  5 - 1 < 2 ^ 16 /\ Martini_new 5 = Done peakGrid /\
  (let T := 5 - 1 in
   (2 <= T ->
    readTriangle (coords peakGrid) 1 = Done (Tri 0 0 T T T 0) /\
    readTriangle (coords peakGrid) 0 = Done (Tri T T 0 0 0 T)) /\
   (forall i, 0 <= i < numParentTriangles peakGrid ->
     i < rightChildPos i < leftChildPos i /\ leftChildPos i < numTriangles peakGrid /\
     exists t,
       readTriangle (coords peakGrid) i = Done t /\
       readTriangle (coords peakGrid) (rightChildPos i) = Done (secondHalf t) /\
       readTriangle (coords peakGrid) (leftChildPos i) = Done (firstHalf t)) /\
   forall i, 2 <= i < numTriangles peakGrid ->
     0 <= parentPos i < numParentTriangles peakGrid /\
     (i = rightChildPos (parentPos i) \/ i = leftChildPos (parentPos i))).
Proof.
  split; [lia|]. split; [vm_compute; reflexivity|].
  apply (table_tree 5 peakGrid); [lia | vm_compute; reflexivity].
Defined.

(** ** What the error sweep computes *)

Lemma Qmax_cases (a b : Q) : Qmax a b = a \/ Qmax a b = b.
Proof.
  unfold Qmax, GenericMinMax.gmax. destruct (a ?= b)%Q; auto.
Qed.

Lemma Qmax_left (a b : Q) : (b <= a)%Q -> Qmax a b = a.
Proof.
  intros H. unfold Qmax, GenericMinMax.gmax.
  destruct (a ?= b)%Q eqn:E; try reflexivity.
  apply Qlt_alt in E. exfalso. exact (Qlt_not_le _ _ E H).
Qed.

Lemma middleErrorOf_inv (heights : list Q) size t me :
  middleErrorOf heights size t = Done me ->
  exists ta tb tm : Q, me = Qabs ((ta + tb) / 2 - tm)%Q /\
    let '(Tri ax ay bx by_ _ _) := t in
    get heights (ay * size + ax) = Done ta /\
    get heights (by_ * size + bx) = Done tb /\
    get heights (sar (ay + by_) 1 * size + sar (ax + bx) 1) = Done tm.
Proof.
  intros Hme. unfold middleErrorOf in Hme. destruct t as [ax ay bx by_ cx cy].
  apply bind_Done in Hme as (ta & Hta & Hme). apply bind_Done in Hme as (tb & Htb & Hme).
  apply bind_Done in Hme as (tm & Htm & Hme).
  exists ta, tb, tm. split; [congruence | auto].
Qed.

Lemma middleErrorOf_nonneg (heights : list Q) size t me :
  middleErrorOf heights size t = Done me -> (0 <= me)%Q.
Proof.
  intros H. apply middleErrorOf_inv in H as (ta & tb & tm & -> & _). apply Qabs_nonneg.
Qed.

Section SweepValues.
Variable n : nat.
Hypothesis n_fits : (n <= 15)%nat.
Variable m : Martini.
Hypothesis m_grid : gridOf n m.
Variable terrain : list Q.
Hypothesis terrain_size :
  Z.of_nat (length terrain) = gridSize m * gridSize m.

#[local] Abbreviation T := (2 ^ Z.of_nat n).
#[local] Abbreviation size := (2 ^ Z.of_nat n + 1).
#[local] Abbreviation middle i := (pixel size (mid (triangleOf T i))).
#[local] Abbreviation leftChild i := (pixel size (mid (firstHalf (triangleOf T i)))).
#[local] Abbreviation rightChild i := (pixel size (mid (secondHalf (triangleOf T i)))).

(** a step of the sweep, with the value it stores named by
    [middleErrorOf] *)
Lemma updateStep_value (E : list Q) i :
  Z.of_nat (length E) = size * size ->
  0 <= i < numTriangles m ->
  exists me e0 : Q,
    middleErrorOf terrain size (triangleOf T i) = Done me /\
    (0 <= me)%Q /\
    0 <= middle i < size * size /\
    get E (middle i) = Done e0 /\
    if i <? numParentTriangles m then
      exists el er : Q,
        get E (leftChild i) = Done el /\ get E (rightChild i) = Done er /\
        updateStep m terrain i E =
        Done (<[Z.to_nat (middle i) := Qmax (Qmax (Qmax e0 me) el) er]> E)
    else
      updateStep m terrain i E = Done (<[Z.to_nat (middle i) := Qmax e0 me]> E).
Proof.
  intros HE Hi.
  destruct (updateStep_spec n n_fits m m_grid terrain terrain_size E i HE Hi)
    as (ta & tb & tm & e0 & (ax & ay & bx & by_ & cx & cy & Ht & Hta & Htb) & Htm & He0 & Hrun).
  cbn zeta in Hrun.
  destruct (middle_class n n_fits m m_grid terrain i Hi) as [_ Hmid].
  pose proof (T_bounds n n_fits _ eq_refl) as HT.
  pose proof (pixel_range T _ ltac:(lia) Hmid) as HM.
  exists (Qabs ((ta + tb) / 2 - tm))%Q, e0.
  split.
  { rewrite Ht in *. unfold middleErrorOf, pixel, mid in *. cbn [fst snd] in *.
    rewrite Hta, Htb. cbn [bind]. rewrite Htm. reflexivity. }
  split; [apply Qabs_nonneg|]. split; [exact HM|]. split; [exact He0|].
  exact Hrun.
Qed.

(** what one run of the sweep does to an error field [E0] of the right
    length *)
Lemma update_sweep (E0 : list Q) :
  Z.of_nat (length E0) = size * size ->
  exists E,
    update m terrain E0 = Done E /\
    Z.of_nat (length E) = size * size /\
    (forall p e0, get E0 p = Done e0 -> exists e, get E p = Done e /\ (e0 <= e)%Q) /\
    (forall i, 0 <= i < numTriangles m ->
       exists me e : Q,
         middleErrorOf terrain size (triangleOf T i) = Done me /\
         get E (middle i) = Done e /\ (me <= e)%Q) /\
    (forall i, 0 <= i < numParentTriangles m ->
       exists em el er : Q,
         get E (middle i) = Done em /\
         get E (leftChild i) = Done el /\ get E (rightChild i) = Done er /\
         (el <= em)%Q /\ (er <= em)%Q) /\
    (forall p e, get E p = Done e ->
       (exists q, get E0 q = Done e) \/
       (exists i, 0 <= i < numTriangles m /\
                  middleErrorOf terrain size (triangleOf T i) = Done e)).
Proof.
  intros HE0. pose proof m_grid as (Hsize & HN & HP & Hind & Htab).
  pose proof (T_bounds n n_fits _ eq_refl) as HT.
  assert (update m terrain E0 =
          forEach (updateStep m terrain)
            (reverse (seqZ 0 (Z.of_nat (Z.to_nat (numTriangles m))))) E0) as ->
    by (unfold update; rewrite Z2Nat.id by lia; reflexivity).
  pose (Inv := fun (k : Z) (E : list Q) =>
    Z.of_nat (length E) = size * size /\
    (forall p e0, get E0 p = Done e0 -> exists e, get E p = Done e /\ (e0 <= e)%Q) /\
    (forall i, k <= i < numTriangles m ->
       exists me e : Q,
         middleErrorOf terrain size (triangleOf T i) = Done me /\
         get E (middle i) = Done e /\ (me <= e)%Q) /\
    (forall i, k <= i < numParentTriangles m ->
       exists em el er : Q,
         get E (middle i) = Done em /\
         get E (leftChild i) = Done el /\ get E (rightChild i) = Done er /\
         (el <= em)%Q /\ (er <= em)%Q) /\
    (forall p e, get E p = Done e ->
       (exists q, get E0 q = Done e) \/
       (exists i, 0 <= i < numTriangles m /\
                  middleErrorOf terrain size (triangleOf T i) = Done e))).
  destruct (sweep_invariant Inv (updateStep m terrain) (Z.to_nat (numTriangles m)))
    with (s := E0) as (E & Hrun & HlenE & HmonoE & HcovE & HordE & HattE).
  - intros k E Hk (HlenE & HmonoE & HcovE & HordE & HattE).
    destruct (updateStep_value E k HlenE ltac:(lia))
      as (me & e0 & Hme & Hme0 & HM & He0 & Hrun).
    assert (exists v,
      updateStep m terrain k E = Done (<[Z.to_nat (middle k) := v]> E) /\
      (e0 <= v)%Q /\ (me <= v)%Q /\
      (k < numParentTriangles m ->
       exists el er : Q,
         get E (leftChild k) = Done el /\ get E (rightChild k) = Done er /\
         (el <= v)%Q /\ (er <= v)%Q) /\
      (v = me \/ exists q, get E q = Done v)) as (v & Hv & Hv0 & Hvm & Hch & Hvc).
    { destruct (Z.ltb_spec k (numParentTriangles m)) as [Hpar | Hleaf].
      - destruct Hrun as (el & er & Hel & Her & Hrun).
        exists (Qmax (Qmax (Qmax e0 me) el) er). split; [exact Hrun|].
        split.
        { eapply Qle_trans; [|apply Q.le_max_l].
          eapply Qle_trans; [|apply Q.le_max_l]. apply Q.le_max_l. }
        split.
        { eapply Qle_trans; [|apply Q.le_max_l].
          eapply Qle_trans; [|apply Q.le_max_l]. apply Q.le_max_r. }
        split.
        { intros _. exists el, er. split; [exact Hel|]. split; [exact Her|].
          split; [|apply Q.le_max_r].
          eapply Qle_trans; [|apply Q.le_max_l]. apply Q.le_max_r. }
        destruct (Qmax_cases (Qmax (Qmax e0 me) el) er) as [-> | ->]; [|eauto].
        destruct (Qmax_cases (Qmax e0 me) el) as [-> | ->]; [|eauto].
        destruct (Qmax_cases e0 me) as [-> | ->]; eauto.
      - exists (Qmax e0 me). split; [exact Hrun|].
        split; [apply Q.le_max_l|]. split; [apply Q.le_max_r|].
        split; [lia|].
        destruct (Qmax_cases e0 me) as [-> | ->]; eauto. }
    exists (<[Z.to_nat (middle k) := v]> E). split; [exact Hv|].
    split; [rewrite length_insert; exact HlenE|]. split; [|split; [|split]].
    + intros p e Hget. destruct (HmonoE p e Hget) as (e' & He' & Hle).
      destruct (Z.eq_dec p (middle k)) as [-> | Hne].
      * exists v. rewrite get_insert_eq by lia. split; [reflexivity|].
        rewrite He0 in He'. injection He' as <-. eapply Qle_trans; eauto.
      * exists e'. apply get_Done in He' as Hp.
        rewrite get_insert_ne by lia. auto.
    + intros i Hi.
      assert (i = k \/ k + 1 <= i) as [-> | Hgt] by lia.
      * exists me, v. rewrite get_insert_eq by lia. auto.
      * destruct (HcovE i ltac:(lia)) as (mi & e & Hmi & He & Hle).
        destruct (Z.eq_dec (middle i) (middle k)) as [Heq | Hne].
        -- exists mi, v. rewrite Heq, get_insert_eq by lia.
           rewrite Heq, He0 in He. injection He as <-.
           split; [exact Hmi|]. split; [reflexivity|]. eapply Qle_trans; eauto.
        -- exists mi, e. apply get_Done in He as Hp.
           rewrite get_insert_ne by lia. auto.
    + intros i Hi.
      destruct (child_not_middle n n_fits m m_grid terrain i k ltac:(lia) ltac:(lia))
        as [Hln Hrn].
      destruct (children_class n n_fits m m_grid terrain i ltac:(lia))
        as [[_ Hli] [_ Hri]].
      pose proof (pixel_range T _ ltac:(lia) Hli) as HL.
      pose proof (pixel_range T _ ltac:(lia) Hri) as HR.
      destruct (middle_class n n_fits m m_grid terrain i ltac:(lia)) as [_ Hmi].
      pose proof (pixel_range T _ ltac:(lia) Hmi) as HMi.
      rewrite !(get_insert_ne _ _ (leftChild i)) by lia.
      rewrite !(get_insert_ne _ _ (rightChild i)) by lia.
      assert (i = k \/ k + 1 <= i) as [-> | Hgt] by lia.
      * destruct (Hch ltac:(lia)) as (el & er & Hel & Her & Hlv & Hrv).
        exists v, el, er. rewrite get_insert_eq by lia. auto.
      * destruct (HordE i ltac:(lia)) as (em & el & er & Hem & Hel & Her & Hle & Hre).
        destruct (Z.eq_dec (middle i) (middle k)) as [Heq | Hne].
        -- exists v, el, er. rewrite Heq, get_insert_eq by lia.
           rewrite Heq, He0 in Hem. injection Hem as <-.
           repeat (split; [assumption || reflexivity|]).
           split; eapply Qle_trans; eauto.
        -- exists em, el, er. rewrite get_insert_ne by lia. auto.
    + intros p e Hget.
      destruct (get_insert_cases E (middle k) p v e ltac:(lia) Hget)
        as [[_ ->] | [_ Hget']]; [|eauto].
      destruct Hvc as [-> | (q & Hq)]; [right; exists k; split; [lia|exact Hme]|eauto].
  - split; [exact HE0|]. split; [intros p e Hp; exists e; split; [exact Hp|apply Qle_refl]|].
    split; [intros i Hi; lia|]. split; [intros i Hi; lia|]. intros p e Hp. left. eauto.
  - exists E. auto 10.
Qed.


(** a field on which every step is a no-op: it covers the error of every
    triangle and every parent covers its two children *)
Lemma update_fixed (E : list Q) :
  Z.of_nat (length E) = size * size ->
  (forall i, 0 <= i < numTriangles m ->
     exists me e : Q,
       middleErrorOf terrain size (triangleOf T i) = Done me /\
       get E (middle i) = Done e /\ (me <= e)%Q) ->
  (forall i, 0 <= i < numParentTriangles m ->
     exists em el er : Q,
       get E (middle i) = Done em /\
       get E (leftChild i) = Done el /\ get E (rightChild i) = Done er /\
       (el <= em)%Q /\ (er <= em)%Q) ->
  update m terrain E = Done E.
Proof.
  intros HE Hcov Hord. unfold update.
  assert (forall l : list Z, Forall (fun i => 0 <= i < numTriangles m) l ->
            forEach (updateStep m terrain) l E = Done E) as Hall.
  { induction l as [|i l IH]; intros Hl; [reflexivity|].
    apply Forall_cons in Hl as [Hi Hl]. cbn [forEach].
    assert (updateStep m terrain i E = Done E) as ->; [|cbn [bind]; auto].
    destruct (updateStep_value E i HE Hi) as (me & e0 & Hme & _ & HM & He0 & Hrun).
    destruct (Hcov i Hi) as (me' & e & Hme' & He & Hle).
    rewrite Hme in Hme'. injection Hme' as <-. rewrite He0 in He. injection He as <-.
    assert (<[Z.to_nat (middle i) := e0]> E = E) as Hid.
    { apply list_insert_id. apply get_Done in He0. tauto. }
    destruct (Z.ltb_spec i (numParentTriangles m)) as [Hpar | Hleaf].
    - destruct Hrun as (el & er & Hel & Her & ->).
      destruct (Hord i ltac:(lia)) as (em & el' & er' & Hem & Hel' & Her' & Hl1 & Hr1).
      rewrite He0 in Hem. injection Hem as <-.
      rewrite Hel in Hel'. injection Hel' as <-. rewrite Her in Her'. injection Her' as <-.
      rewrite (Qmax_left e0 me Hle), (Qmax_left e0 el Hl1), (Qmax_left e0 er Hr1).
      rewrite Hid. reflexivity.
    - rewrite Hrun, (Qmax_left e0 me Hle), Hid. reflexivity. }
  apply Hall. apply Forall_forall. intros i Hi.
  apply elem_of_reverse, elem_of_seqZ in Hi. lia.
Qed.
End SweepValues.

(** ** Tiles *)

Lemma createTile_total (n : nat) m heights :
  (n <= 15)%nat -> gridOf n m ->
  Z.of_nat (length heights) = gridSize m * gridSize m ->
  exists E,
    update m heights (replicate (length heights) 0%Q) = Done E /\
    createTile m heights = Done (mkTile heights m E).
Proof.
  intros Hn Hgrid Hlen. pose proof Hgrid as (Hsize & _).
  pose proof (T_bounds n Hn _ eq_refl) as HT.
  destruct (update_sweep n Hn m Hgrid heights Hlen (replicate (length heights) 0%Q))
    as (E & HE & _).
  { rewrite length_replicate, Hlen, Hsize. reflexivity. }
  exists E. split; [exact HE|].
  unfold createTile, Tile_new. cbn zeta.
  rewrite (proj2 (Z.eqb_eq _ _) Hlen). cbn [negb].
  rewrite newArray_Done by (rewrite Hlen, Hsize; nia).
  cbn [bind]. rewrite Nat2Z.id, HE. reflexivity.
Qed.

(** X3: [createTile] takes exactly the terrains of [gridSize * gridSize]
    heights: on such a terrain it returns a tile that holds the terrain,
    the grid and an error field of the same length; on any other it stops
    with the error of lines 55-56, which reports both lengths. *)
Theorem createTile_checks_length (g : Z) (m : Martini) (heights : list Q) :
  g - 1 < 2 ^ 16 -> Martini_new g = Done m ->
  let len := Z.of_nat (length heights) in
  if len =? g * g then
    exists tile,
      createTile m heights = Done tile /\
      terrain tile = heights /\ martini tile = m /\
      Z.of_nat (length (errors tile)) = g * g
  else createTile m heights = Fail (TerrainSizeMismatch (g * g) len).
Proof.
  intros Hg Hnew. cbn zeta.
  destruct (Martini_new_inv g m Hg Hnew) as (n & Hn & -> & Hgrid).
  pose proof Hgrid as (Hsize & _).
  destruct (Z.eqb_spec (Z.of_nat (length heights))
              ((2 ^ Z.of_nat n + 1) * (2 ^ Z.of_nat n + 1))) as [Hlen | Hlen].
  - rewrite <- Hsize in Hlen.
    destruct (createTile_total n m heights Hn Hgrid Hlen) as (E & HE & Hrun).
    exists (mkTile heights m E). split; [exact Hrun|]. cbn [terrain martini errors].
    split; [reflexivity|]. split; [reflexivity|].
    destruct (update_sweep n Hn m Hgrid heights Hlen (replicate (length heights) 0%Q))
      as (E' & HE' & HlenE & _).
    { rewrite length_replicate, Hlen, Hsize. reflexivity. }
    rewrite HE in HE'. injection HE' as <-. exact HlenE.
  - unfold createTile, Tile_new. cbn zeta. rewrite Hsize.
    rewrite (proj2 (Z.eqb_neq _ _) Hlen). reflexivity.
Qed.

Lemma createTile_checks_length_witness :
  5 - 1 < 2 ^ 16 /\ Martini_new 5 = Done peakGrid /\
  (exists tile,
     createTile peakGrid peakTerrain = Done tile /\
     terrain tile = peakTerrain /\ martini tile = peakGrid /\
     Z.of_nat (length (errors tile)) = 5 * 5) /\
  createTile peakGrid [1%Q; 2%Q] = Fail (TerrainSizeMismatch (5 * 5) 2).
Proof.
  split; [lia|]. split; [vm_compute; reflexivity|]. split.
  - apply (createTile_checks_length 5 peakGrid peakTerrain); [lia | vm_compute; reflexivity].
  - apply (createTile_checks_length 5 peakGrid [1%Q; 2%Q]); [lia | vm_compute; reflexivity].
Defined.

(** X4: [update] can be run on any error field of the right length, also
    after the heights have changed: it keeps the length and never lowers an
    entry, so errors of an earlier terrain stay in the field. *)
Theorem update_never_lowers (g : Z) (m : Martini) (heights E0 : list Q) :
  g - 1 < 2 ^ 16 -> Martini_new g = Done m ->
  Z.of_nat (length heights) = g * g -> Z.of_nat (length E0) = g * g ->
  exists E,
    update m heights E0 = Done E /\
    length E = length E0 /\
    forall p e0, get E0 p = Done e0 -> exists e, get E p = Done e /\ (e0 <= e)%Q.
Proof.
  intros Hg Hnew Hlen HE0.
  destruct (Martini_new_inv g m Hg Hnew) as (n & Hn & -> & Hgrid).
  pose proof Hgrid as (Hsize & _). rewrite <- Hsize in Hlen at 1 2.
  destruct (update_sweep n Hn m Hgrid heights Hlen E0 HE0)
    as (E & HE & HlenE & Hmono & _).
  exists E. split; [exact HE|]. split; [lia | exact Hmono].
Qed.

Lemma update_never_lowers_witness :
  5 - 1 < 2 ^ 16 /\ Martini_new 5 = Done peakGrid /\
  Z.of_nat (length flatTerrain) = 5 * 5 /\
  Z.of_nat (length (errors peakTile)) = 5 * 5 /\
  exists E,
    update peakGrid flatTerrain (errors peakTile) = Done E /\
    length E = length (errors peakTile) /\
    forall p e0, get (errors peakTile) p = Done e0 ->
      exists e, get E p = Done e /\ (e0 <= e)%Q.
Proof.
  split; [lia|]. split; [vm_compute; reflexivity|].
  split; [vm_compute; reflexivity|]. split; [vm_compute; reflexivity|].
  apply (update_never_lowers 5 peakGrid flatTerrain (errors peakTile));
    [lia | vm_compute; reflexivity | vm_compute; reflexivity | vm_compute; reflexivity].
Defined.

(** X5: running [update] again on the field it has produced, with the same
    heights, changes nothing. *)
Theorem update_idempotent (g : Z) (m : Martini) (heights E0 E : list Q) :
  g - 1 < 2 ^ 16 -> Martini_new g = Done m ->
  Z.of_nat (length heights) = g * g -> Z.of_nat (length E0) = g * g ->
  update m heights E0 = Done E ->
  update m heights E = Done E.
Proof.
  intros Hg Hnew Hlen HE0 Hrun.
  destruct (Martini_new_inv g m Hg Hnew) as (n & Hn & -> & Hgrid).
  pose proof Hgrid as (Hsize & _). rewrite <- Hsize in Hlen at 1 2.
  destruct (update_sweep n Hn m Hgrid heights Hlen E0 HE0)
    as (E' & HE' & HlenE & _ & Hcov & Hord & _).
  rewrite Hrun in HE'. injection HE' as <-.
  apply (update_fixed n Hn m Hgrid heights Hlen E HlenE Hcov Hord).
Qed.

Lemma update_idempotent_witness :
  5 - 1 < 2 ^ 16 /\ Martini_new 5 = Done peakGrid /\
  Z.of_nat (length peakTerrain) = 5 * 5 /\
  Z.of_nat (length (replicate 25 0%Q)) = 5 * 5 /\
  update peakGrid peakTerrain (replicate 25 0%Q) = Done (errors peakTile) /\
  update peakGrid peakTerrain (errors peakTile) = Done (errors peakTile).
Proof.
  split; [lia|]. split; [vm_compute; reflexivity|].
  split; [vm_compute; reflexivity|]. split; [vm_compute; reflexivity|].
  split; [vm_compute; reflexivity|].
  apply (update_idempotent 5 peakGrid peakTerrain (replicate 25 0%Q) (errors peakTile));
    [lia | vm_compute; reflexivity | vm_compute; reflexivity | vm_compute; reflexivity
    | vm_compute; reflexivity].
Defined.

Lemma tile_sweep (n : nat) m heights tile :
  (n <= 15)%nat -> gridOf n m -> createTile m heights = Done tile ->
  let T := 2 ^ Z.of_nat n in
  Z.of_nat (length heights) = (T + 1) * (T + 1) /\
  Z.of_nat (length (errors tile)) = (T + 1) * (T + 1) /\
  (forall i, 0 <= i < numTriangles m ->
     exists me e : Q,
       middleErrorOf heights (T + 1) (triangleOf T i) = Done me /\
       get (errors tile) (pixel (T + 1) (mid (triangleOf T i))) = Done e /\
       (me <= e)%Q) /\
  (forall i, 0 <= i < numParentTriangles m ->
     exists em el er : Q,
       get (errors tile) (pixel (T + 1) (mid (triangleOf T i))) = Done em /\
       get (errors tile) (pixel (T + 1) (mid (firstHalf (triangleOf T i)))) = Done el /\
       get (errors tile) (pixel (T + 1) (mid (secondHalf (triangleOf T i)))) = Done er /\
       (el <= em)%Q /\ (er <= em)%Q) /\
  (forall p e, get (errors tile) p = Done e ->
     e = 0%Q \/
     (exists i, 0 <= i < numTriangles m /\
                middleErrorOf heights (T + 1) (triangleOf T i) = Done e)).
Proof.
  intros Hn Hgrid Htile. cbn zeta.
  destruct (createTile_inv m heights tile Htile) as (Hlen & Heq & Hupd).
  pose proof Hgrid as (Hsize & _).
  destruct (update_sweep n Hn m Hgrid heights Hlen (replicate (length heights) 0%Q))
    as (E & HE & HlenE & _ & Hcov & Hord & Hatt).
  { rewrite length_replicate, Hlen, Hsize. reflexivity. }
  rewrite HE in Hupd. injection Hupd as <-.
  split; [rewrite Hlen, Hsize; reflexivity|]. split; [exact HlenE|].
  split; [exact Hcov|]. split; [exact Hord|].
  intros p e Hp. destruct (Hatt p e Hp) as [(q & Hq) | H]; [|right; exact H].
  left. apply get_replicate in Hq. exact Hq.
Qed.










(** ** Two sweeps side by side *)



Section Affine.
Variable n : nat.
Hypothesis n_fits : (n <= 15)%nat.
Variable m : Martini.
Hypothesis m_grid : gridOf n m.
Variable heights heights' : list Q.
Hypothesis heights_size : Z.of_nat (length heights) = gridSize m * gridSize m.
Hypothesis heights_size' : Z.of_nat (length heights') = gridSize m * gridSize m.
Variable a c : Q.
Hypothesis heights_affine :
  forall p h h', get heights p = Done h -> get heights' p = Done h' ->
    (h' == a * h + c)%Q.

#[local] Abbreviation T := (2 ^ Z.of_nat n).
#[local] Abbreviation size := (2 ^ Z.of_nat n + 1).



End Affine.



(** ** The vertices and the triangles of a mesh *)

Lemma vertexAt_coordsOf seen v :
  v ∈ seen -> vertexAt (coordsOf seen) (indexOf v seen) = v.
Proof.
  intros Hv. pose proof (indexOf_lookup v seen Hv) as Hl.
  pose proof (indexOf_range v seen) as Hr.
  destruct (coordsOf_lookup seen (Z.to_nat (indexOf v seen))) as [H0 H1].
  unfold point in *. rewrite Hl in H0, H1. cbn [fmap option_fmap option_map] in H0, H1.
  unfold vertexAt.
  replace (Z.to_nat (2 * indexOf v seen)) with (2 * Z.to_nat (indexOf v seen))%nat by lia.
  replace (Z.to_nat (2 * indexOf v seen + 1))
    with (2 * Z.to_nat (indexOf v seen) + 1)%nat by lia.
  rewrite (nth_lookup_Some _ _ _ _ H0), (nth_lookup_Some _ _ _ _ H1).
  destruct v; reflexivity.
Qed.

Lemma trianglesOf_trisOf seen (L : list tri) :
  (forall v, v ∈ cornersOf L -> v ∈ seen) ->
  trianglesOf (coordsOf seen) (trisOf seen L) = L.
Proof.
  induction L as [|t L IH]; intros Hin; [reflexivity|].
  destruct t as [ax ay bx by_ cx cy].
  assert (forall v, v ∈ corners (Tri ax ay bx by_ cx cy) -> v ∈ seen) as Ht.
  { intros v Hv. apply Hin. unfold cornersOf. cbn [flat_map]. apply elem_of_app. auto. }
  unfold trisOf. cbn [flat_map corners map app trianglesOf]. fold (trisOf seen L).
  rewrite !vertexAt_coordsOf by (apply Ht; cbn [corners]; rewrite !elem_of_cons; auto).
  cbn [fst snd]. f_equal. apply IH. intros v Hv. apply Hin.
  unfold cornersOf. cbn [flat_map]. apply elem_of_app. auto.
Qed.

Lemma meshTriangles_meshOf (L : list tri) : meshTriangles (meshOf L) = L.
Proof.
  unfold meshTriangles, meshOf. cbn [vertices triangles].
  apply trianglesOf_trisOf. intros v Hv. apply seenAfter_elem. auto.
Qed.

(** ** Geometry of the triangles *)

Section Shapes.
Variable T : Z.
Hypothesis T_fits : 0 <= T <= 2 ^ 15.

Lemma shape_mid_exact k ax ay bx by_ cx cy :
  inTile T (Tri ax ay bx by_ cx cy) -> shape (S k) (Tri ax ay bx by_ cx cy) ->
  2 * sar (ax + bx) 1 = ax + bx /\ 2 * sar (ay + by_) 1 = ay + by_.
Proof.
  intros Hin Hsh. cbn [inTile] in Hin. rewrite !sar_1_small by lia.
  destruct Hsh as [e [[Hk Hl] | [Hk Hh]]].
  - destruct Hl as (d & i & j & Hcx & Hcy & Hax & Hay & Hbx & Hby).
    destruct e as [|e]; [lia|]. rewrite pow2_S in *.
    set (s := 2 ^ Z.of_nat e) in *.
    split; destruct d; cbn [dx dy turn] in *; Z.div_mod_to_equations; lia.
  - destruct Hh as (w & i & j & Hcx & Hcy & Hax & Hay & Hbx & Hby).
    set (s := 2 ^ Z.of_nat e) in *.
    split; destruct w; cbn [dx dy turn] in *; Z.div_mod_to_equations; lia.
Qed.

Lemma shape_area k t : shape k t -> signedArea2 t = - 2 ^ Z.of_nat k.
Proof.
  destruct t as [ax ay bx by_ cx cy]. intros [e [[-> Hl] | [-> Hh]]].
  - destruct Hl as (d & i & j & Hcx & Hcy & Hax & Hay & Hbx & Hby).
    rewrite <- square_pow2. set (s := 2 ^ Z.of_nat e) in *.
    unfold signedArea2, cross. cbn [fst snd].
    destruct d; cbn [dx dy turn] in *; subst ax ay bx by_; ring.
  - destruct Hh as (w & i & j & Hcx & Hcy & Hax & Hay & Hbx & Hby).
    replace (Z.of_nat (2 * e + 1)) with (Z.of_nat (S (2 * e))) by lia.
    rewrite pow2_S, <- square_pow2. set (s := 2 ^ Z.of_nat e) in *.
    unfold signedArea2, cross. cbn [fst snd].
    destruct w; cbn [dx dy turn] in *; subst ax ay bx by_; ring.
Qed.

Lemma within_halves k t p :
  inTile T t -> shape (S k) t -> within t p ->
  within (firstHalf t) p \/ within (secondHalf t) p.
Proof.
  destruct t as [ax ay bx by_ cx cy]. intros Hin Hsh Hw.
  destruct (shape_mid_exact k _ _ _ _ _ _ Hin Hsh) as [Hx Hy].
  unfold firstHalf, secondHalf, within in *.
  set (mx := sar (ax + bx) 1) in *. set (my := sar (ay + by_) 1) in *.
  destruct p as [x y]. unfold cross in *. cbn [fst snd] in *.
  destruct Hw as (H1 & H2 & H3).
  assert (2 * ((ax - cx) * (my - cy) - (ay - cy) * (mx - cx)) =
          (ax - cx) * (2 * my - 2 * cy) - (ay - cy) * (2 * mx - 2 * cx)) as E0 by ring.
  assert (2 * ((mx - ax) * (y - ay) - (my - ay) * (x - ax)) =
          (bx - ax) * (y - ay) - (by_ - ay) * (x - ax)) as E1.
  { replace bx with (2 * mx - ax) by lia. replace by_ with (2 * my - ay) by lia. ring. }
  assert (2 * ((bx - mx) * (y - my) - (by_ - my) * (x - mx)) =
          (bx - ax) * (y - ay) - (by_ - ay) * (x - ax)) as E2.
  { replace ax with (2 * mx - bx) by lia. replace ay with (2 * my - by_) by lia. ring. }
  assert ((cx - mx) * (y - my) - (cy - my) * (x - mx) =
          - ((mx - cx) * (y - cy) - (my - cy) * (x - cx))) as E3 by ring.
  destruct (Z.le_gt_cases ((mx - cx) * (y - cy) - (my - cy) * (x - cx)) 0) as [Hs | Hs].
  - right. split; [exact H2|]. split; [exact Hs|]. lia.
  - left. split; [exact H3|]. split; [lia|]. lia.
Qed.

Lemma within_roots p :
  inGrid T p -> within (Tri 0 0 T T T 0) p \/ within (Tri T T 0 0 0 T) p.
Proof.
  destruct p as [x y]. unfold inGrid, within, cross. cbn [fst snd]. intros Hp.
  destruct (Z.le_gt_cases y x); [left | right]; nia.
Qed.
End Shapes.

Lemma within_unit t p : shape 0 t -> within t p -> p ∈ corners t.
Proof.
  destruct t as [ax ay bx by_ cx cy]. intros [e [[He Hl] | [He Hh]]] Hw; [|lia].
  assert (e = 0%nat) as -> by lia. change (2 ^ Z.of_nat 0) with 1 in Hl.
  destruct Hl as (d & i & j & Hcx & Hcy & Hax & Hay & Hbx & Hby).
  destruct p as [x y]. unfold within, cross in Hw. cbn [fst snd corners] in *.
  rewrite !elem_of_cons.
  assert ((x = ax /\ y = ay) \/ (x = bx /\ y = by_) \/ (x = cx /\ y = cy)) as H
    by (destruct d; cbn [dx dy turn] in *; lia).
  destruct H as [[-> ->] | [[-> ->] | [-> ->]]]; auto.
Qed.

Lemma within_corner t p : p ∈ corners (firstHalf t) \/ p ∈ corners (secondHalf t) ->
  p ∈ corners t \/ p = mid t.
Proof.
  destruct t as [ax ay bx by_ cx cy]. cbn [firstHalf secondHalf corners mid].
  rewrite !elem_of_cons, !elem_of_nil. tauto.
Qed.

(** ** The triangles of the table as the nodes of the traversal *)

Lemma tableTri_roots (n : nat) :
  (1 <= n <= 15)%nat ->
  let T := 2 ^ Z.of_nat n in
  tableTri n (2 * n) (Tri 0 0 T T T 0) /\ tableTri n (2 * n) (Tri T T 0 0 0 T).
Proof.
  intros Hn. cbn zeta. pose proof (pow2_le 1 n ltac:(lia)) as Hle.
  change (2 ^ Z.of_nat 1) with 2 in Hle.
  split; [exists 1 | exists 0]; (split; [nia|]);
    (split; [unfold triangleOf; cbn zeta; rewrite descend_stop by lia; reflexivity|]).
  - unfold rankOf. change (Z.log2 (1 + 2)) with 1. lia.
  - unfold rankOf. change (Z.log2 (0 + 2)) with 1. lia.
Qed.

Lemma tableTri_halves (n k : nat) t :
  (n <= 15)%nat -> tableTri n (S (S k)) t ->
  tableTri n (S k) (firstHalf t) /\ tableTri n (S k) (secondHalf t).
Proof.
  intros Hn (i & Hi & <- & Hr). pose proof (T_bounds n Hn _ eq_refl) as HT.
  set (T := 2 ^ Z.of_nat n) in *.
  assert (T * T <= 2 ^ 15 * 2 ^ 15) as Hsq by (apply Z.mul_le_mono_nonneg; lia).
  assert (i < T * T - 2) as Hpar.
  { unfold rankOf in Hr. pose proof (Z.log2_nonneg (i + 2)) as H0.
    destruct (Z.log2_spec (i + 2) ltac:(lia)) as [_ Hhi].
    assert (Z.succ (Z.log2 (i + 2)) <= Z.of_nat (2 * n)) as Hl by lia.
    pose proof (Z.pow_le_mono_r 2 _ _ ltac:(lia) Hl) as Hp.
    unfold T. rewrite square_pow2. lia. }
  destruct (children_in_table n i ltac:(fold T; lia)) as (H1 & H2 & Hl1 & Hl2).
  fold T in H2.
  destruct (triangleOf_children T i ltac:(lia) ltac:(lia)) as [Hs Hf].
  split; [exists (leftChildPos i) | exists (rightChildPos i)];
    (split; [fold T; lia|]); (split; [fold T; assumption|]);
    unfold rankOf in *; rewrite ?Hl1, ?Hl2;
    pose proof (Z.log2_nonneg (i + 2)); lia.
Qed.

Lemma tableTri_shape (n k : nat) t :
  (n <= 15)%nat -> tableTri n k t ->
  inTile (2 ^ Z.of_nat n) t /\ shape k t /\ (1 <= k <= 2 * n)%nat.
Proof.
  intros Hn (i & Hi & <- & <-).
  destruct (triangleOf_shape n Hn _ eq_refl i Hi) as [H1 H2].
  pose proof (rankOf_bounds n Hn _ eq_refl i Hi). auto.
Qed.

Lemma tableTri_parent (n k : nat) t :
  (n <= 15)%nat -> tableTri n (S (S k)) t ->
  exists i, 0 <= i < 2 ^ Z.of_nat n * 2 ^ Z.of_nat n - 2 /\
            triangleOf (2 ^ Z.of_nat n) i = t.
Proof.
  intros Hn (i & Hi & <- & Hr). exists i. split; [|reflexivity].
  split; [lia|].
  unfold rankOf in Hr. pose proof (Z.log2_nonneg (i + 2)) as H0.
  destruct (Z.log2_spec (i + 2) ltac:(lia)) as [_ Hhi].
  assert (Z.succ (Z.log2 (i + 2)) <= Z.of_nat (2 * n)) as Hl by lia.
  pose proof (Z.pow_le_mono_r 2 _ _ ltac:(lia) Hl) as Hp.
  rewrite square_pow2. lia.
Qed.

Section Guarantee.
Variable n : nat.
Hypothesis n_fits : (n <= 15)%nat.
Variable errors : list Q.
Hypothesis errors_size :
  Z.of_nat (length errors) = (2 ^ Z.of_nat n + 1) * (2 ^ Z.of_nat n + 1).

#[local] Abbreviation T := (2 ^ Z.of_nat n).
#[local] Abbreviation size := (2 ^ Z.of_nat n + 1).

Hypothesis errors_ordered :
  forall i, 0 <= i < T * T - 2 ->
    exists em el er : Q,
      get errors (pixel size (mid (triangleOf T i))) = Done em /\
      get errors (pixel size (mid (firstHalf (triangleOf T i)))) = Done el /\
      get errors (pixel size (mid (secondHalf (triangleOf T i)))) = Done er /\
      (el <= em)%Q /\ (er <= em)%Q.

Lemma error_at p : inGrid T p -> exists e, get errors (pixel size p) = Done e.
Proof.
  intros Hp. pose proof (T_bounds n n_fits _ eq_refl) as HT.
  pose proof (pixel_range T p ltac:(lia) Hp). apply get_in_range. lia.
Qed.

(** a pixel in a triangle of the table, other than its three corners, is
    the middle of the long edge of a triangle below it, and its error is
    at most the error at the middle of the triangle *)
Lemma inside_bound (k : nat) : forall t p,
  tableTri n (S k) t -> within t p -> p ∉ corners t ->
  exists ep em : Q,
    get errors (pixel size p) = Done ep /\
    get errors (pixel size (mid t)) = Done em /\
    (ep <= em)%Q /\
    inGrid T p /\ exists k', (1 <= k' <= S k)%nat /\ midClass k' p.
Proof.
  pose proof (T_bounds n n_fits _ eq_refl) as HT.
  induction k as [|k IH]; intros t p Htt Hw Hnc;
    destruct (tableTri_shape n _ t n_fits Htt) as (Hin & Hsh & Hk);
    pose proof (mid_inGrid T ltac:(lia) t Hin) as Hmid;
    destruct (error_at _ Hmid) as [em Hem];
    pose proof (shape_mid_class T ltac:(lia) _ t Hin Hsh) as Hcl;
    destruct (decide (p = mid t)) as [-> | Hne];
    try (exists em, em; repeat (split; [assumption || apply Qle_refl|]);
         eexists; split; [|exact Hcl]; lia).
  - exfalso.
    destruct (shape_halves T ltac:(lia) _ t Hin Hsh) as [Hs1 Hs2].
    destruct (within_halves T ltac:(lia) _ t p Hin Hsh Hw) as [Hh | Hh].
    + pose proof (within_unit _ _ Hs1 Hh) as Hc.
      destruct (within_corner t p (or_introl Hc)); contradiction.
    + pose proof (within_unit _ _ Hs2 Hh) as Hc.
      destruct (within_corner t p (or_intror Hc)); contradiction.
  - destruct (tableTri_halves n k t n_fits Htt) as [Ht1 Ht2].
    destruct (tableTri_parent n k t n_fits Htt) as (i & Hi & Hti).
    destruct (errors_ordered i Hi) as (em' & el & er & Hem' & Hel & Her & Hle & Hre).
    rewrite Hti in Hem', Hel, Her. rewrite Hem in Hem'. injection Hem' as <-.
    destruct (within_halves T ltac:(lia) _ t p Hin Hsh Hw) as [Hh | Hh].
    + destruct (IH (firstHalf t) p Ht1 Hh) as (ep & eh & Hep & Heh & Hl & Hg & k' & Hk' & Hc).
      { intros Hc. destruct (within_corner t p (or_introl Hc)); contradiction. }
      rewrite Hel in Heh. injection Heh as <-.
      exists ep, em. split; [exact Hep|]. split; [exact Hem|].
      split; [eapply Qle_trans; eauto|]. split; [exact Hg|].
      exists k'. split; [lia | exact Hc].
    + destruct (IH (secondHalf t) p Ht2 Hh) as (ep & eh & Hep & Heh & Hl & Hg & k' & Hk' & Hc).
      { intros Hc. destruct (within_corner t p (or_intror Hc)); contradiction. }
      rewrite Her in Heh. injection Heh as <-.
      exists ep, em. split; [exact Hep|]. split; [exact Hem|].
      split; [eapply Qle_trans; eauto|]. split; [exact Hg|].
      exists k'. split; [lia | exact Hc].
Qed.
End Guarantee.

(** ** Leaves of the traversal *)

Lemma leaves_flat size errors maxError maxScale fuel : forall t L,
  leaves size errors maxError maxScale fuel t = Done L ->
  Forall (fun u => drillDown size errors maxError maxScale u = Done false) L.
Proof.
  induction fuel as [|fuel IH]; intros t L H; [discriminate|].
  cbn [leaves] in H. apply bind_Done in H as (down & Hd & H).
  destruct down.
  - apply bind_Done in H as (A & HA & H). apply bind_Done in H as (B & HB & H).
    injection H as <-. apply Forall_app. eauto.
  - injection H as <-. apply Forall_singleton. exact Hd.
Qed.

Lemma treeTri_shape (n k : nat) t :
  (n <= 15)%nat -> treeTri n k t ->
  inTile (2 ^ Z.of_nat n) t /\ shape k t /\ (k <= 2 * n)%nat.
Proof.
  intros Hn H. destruct k as [|k].
  - destruct H as [H1 H2]. split; [exact H1|]. split; [exact H2 | lia].
  - destruct (tableTri_shape n _ t Hn H) as (H1 & H2 & H3).
    split; [exact H1|]. split; [exact H2 | lia].
Qed.

Lemma treeTri_halves (n k : nat) t :
  (n <= 15)%nat -> treeTri n (S k) t ->
  treeTri n k (firstHalf t) /\ treeTri n k (secondHalf t).
Proof.
  intros Hn H. pose proof (T_bounds n Hn _ eq_refl) as HT. destruct k as [|k].
  - destruct (tableTri_shape n _ t Hn H) as (Hin & Hsh & _).
    destruct (shape_halves (2 ^ Z.of_nat n) ltac:(lia) _ t Hin Hsh).
    destruct (halves_inTile (2 ^ Z.of_nat n) ltac:(lia) t Hin). cbn [treeTri]. auto.
  - apply tableTri_halves; assumption.
Qed.

Lemma treeTri_roots (n : nat) :
  (n <= 15)%nat ->
  let T := 2 ^ Z.of_nat n in
  treeTri n (2 * n) (Tri 0 0 T T T 0) /\ treeTri n (2 * n) (Tri T T 0 0 0 T).
Proof.
  intros Hn. cbn zeta. destruct n as [|n].
  - pose proof (root_shapes 0) as [H1 H2].
    pose proof (root_inTile (2 ^ Z.of_nat 0) ltac:(cbn; lia)) as [H3 H4].
    change (2 * 0)%nat with 0%nat in *. cbn [treeTri]. auto.
  - destruct (tableTri_roots (S n) ltac:(lia)) as [H1 H2].
    replace (2 * S n)%nat with (S (2 * n + 1)) in * by lia. cbn [treeTri]. auto.
Qed.

Lemma legOf_mono (a b : nat) : (a <= b)%nat -> legOf a <= legOf b.
Proof.
  intros H. unfold legOf. apply pow2_le. apply Nat.Div0.div_le_mono. lia.
Qed.

Lemma tableTri_leg (n k : nat) u :
  (n <= 15)%nat -> tableTri n k u -> legLength u = legOf k.
Proof.
  intros Hn Htt. destruct (tableTri_shape n k u Hn Htt) as (_ & Hsh & _).
  destruct u as [ax ay bx by_ cx cy]. exact (shape_legLength k ax ay bx by_ cx cy Hsh).
Qed.

Lemma elem_cornersOf (L : list tri) v :
  v ∈ cornersOf L <-> exists t, t ∈ L /\ v ∈ corners t.
Proof.
  unfold cornersOf. induction L as [|u L IH]; cbn [flat_map].
  - split; [intros H; apply elem_of_nil in H; contradiction|].
    intros (t & Ht & _). apply elem_of_nil in Ht. contradiction.
  - rewrite elem_of_app, IH. split.
    + intros [H | (t & Ht & Hv)]; [exists u | exists t]; rewrite elem_of_cons; auto.
    + intros (t & Ht & Hv). apply elem_of_cons in Ht as [-> | Ht]; eauto.
Qed.

Section Vertices.
Variable n : nat.
Hypothesis n_fits : (n <= 15)%nat.
Variable errors : list Q.
Hypothesis errors_size :
  Z.of_nat (length errors) = (2 ^ Z.of_nat n + 1) * (2 ^ Z.of_nat n + 1).

#[local] Abbreviation T := (2 ^ Z.of_nat n).
#[local] Abbreviation size := (2 ^ Z.of_nat n + 1).

Hypothesis errors_ordered :
  forall i, 0 <= i < T * T - 2 ->
    exists em el er : Q,
      get errors (pixel size (mid (triangleOf T i))) = Done em /\
      get errors (pixel size (mid (firstHalf (triangleOf T i)))) = Done el /\
      get errors (pixel size (mid (secondHalf (triangleOf T i)))) = Done er /\
      (el <= em)%Q /\ (er <= em)%Q.

Variable maxError maxScale : Q.

#[local] Abbreviation run := (leaves (2 ^ Z.of_nat n + 1) errors maxError maxScale).

(** the error at [p] is above the threshold *)
#[local] Abbreviation rough p :=
  (exists e : Q, get errors (pixel size p) = Done e /\ (maxError < e)%Q).

(** a pixel inside a triangle that the recursion reaches becomes a vertex
    when its error is above the threshold, and when it is the middle of a
    triangle that is too long *)
Lemma split_is_vertex (k : nat) : forall fuel t p L,
  treeTri n k t -> within t p -> p ∉ corners t ->
  rough p \/ longAt n maxScale p ->
  run fuel t = Done L -> p ∈ cornersOf L.
Proof.
  pose proof (T_bounds n n_fits _ eq_refl) as HT.
  induction k as [|k IH]; intros fuel t p L Htt Hw Hnc Hcase Hrun.
  { destruct Htt as [_ Hsh]. destruct Hnc. exact (within_unit _ _ Hsh Hw). }
  destruct (treeTri_shape n _ t n_fits Htt) as (Hin & Hsh & Hk).
  destruct (inside_bound n n_fits errors errors_size errors_ordered k t p Htt Hw Hnc)
    as (ep & em & Hep & Hem & Hle & _ & k' & Hk' & Hcl).
  destruct (drillDown_shape T ltac:(lia) errors errors_size maxError maxScale _ t Hin Hsh)
    as (em' & Hem' & Hdown).
  rewrite Hem in Hem'. injection Hem' as <-.
  pose proof (legOf_S k) as Hleg.
  assert (drillDown size errors maxError maxScale t = Done true) as Hsplit.
  { rewrite Hdown. f_equal. destruct Hcase as [(e & He & Hr) | (ku & u & Hu & Hmu & Hlong)].
    - rewrite He in Hep. injection Hep as <-.
      assert (Qgtb em maxError = true) as -> by (apply Qgtb_true; eapply Qlt_le_trans; eauto).
      rewrite (proj2 (Z.ltb_lt 1 (legOf (S k))) ltac:(lia)). reflexivity.
    - assert (Qgtb (inject_Z (legOf (S k))) maxScale = true) as ->; [|apply orb_true_r].
      apply Qgtb_true. eapply Qlt_le_trans; [exact Hlong|]. rewrite <- Zle_Qle.
      rewrite (tableTri_leg n _ u n_fits Hu). apply legOf_mono.
      destruct (tableTri_shape n _ u n_fits Hu) as (Hiu & Hsu & _).
      pose proof (shape_mid_class T ltac:(lia) _ u Hiu Hsu) as Hcu. rewrite Hmu in Hcu.
      pose proof (midClass_disjoint _ _ _ Hcu Hcl). lia. }
  destruct fuel as [|fuel]; [discriminate|].
  destruct (leaves_split _ _ _ _ _ _ _ Hsplit Hrun) as (A & B & HA & HB & ->).
  destruct (treeTri_halves n k t n_fits Htt) as [Ht1 Ht2].
  apply cornersOf_app.
  destruct (decide (p = mid t)) as [-> | Hne].
  - left. destruct (corners_kept _ _ _ _ _ _ _ HA) as [_ Hkept].
    destruct (Hkept (mid t)) as (t' & Ht' & Hv).
    { destruct t as [ax ay bx by_ cx cy]. cbn [firstHalf corners mid].
      rewrite !elem_of_cons. auto. }
    apply elem_cornersOf. eauto.
  - destruct (within_halves T ltac:(lia) _ t p Hin Hsh Hw) as [Hh | Hh]; [left | right].
    + apply (IH fuel (firstHalf t) p A Ht1 Hh); [|exact Hcase|exact HA].
      intros Hc. destruct (within_corner t p (or_introl Hc)); contradiction.
    + apply (IH fuel (secondHalf t) p B Ht2 Hh); [|exact Hcase|exact HB].
      intros Hc. destruct (within_corner t p (or_intror Hc)); contradiction.
Qed.

(** the leaves of the recursion are triangles of the tree, and a pixel in
    a leaf other than its corners has an error within the threshold *)
Lemma leaves_guarantee (Hscale : (1 <= maxScale)%Q) fuel : forall k t L,
  treeTri n k t -> run fuel t = Done L ->
  Forall (fun u =>
    (exists k', treeTri n k' u /\ (inject_Z (legOf k') <= maxScale)%Q) /\
    forall p, within u p -> p ∉ corners u ->
      exists e : Q, get errors (pixel size p) = Done e /\ (e <= maxError)%Q) L.
Proof.
  pose proof (T_bounds n n_fits _ eq_refl) as HT.
  induction fuel as [|fuel IH]; intros k t L Htt Hrun; [discriminate|].
  destruct (treeTri_shape n _ t n_fits Htt) as (Hin & Hsh & Hk).
  destruct (drillDown_shape T ltac:(lia) errors errors_size maxError maxScale _ t Hin Hsh)
    as (em & Hem & Hdown).
  cbn [leaves] in Hrun. rewrite Hdown in Hrun. cbn [bind] in Hrun.
  destruct ((1 <? legOf k) && Qgtb em maxError || Qgtb (inject_Z (legOf k)) maxScale)
    eqn:Hd.
  - destruct k as [|k].
    { exfalso. rewrite legOf_0 in Hd. cbn [Z.ltb Z.compare andb orb] in Hd.
      apply Qgtb_true in Hd. apply (Qlt_not_le _ _ Hd). exact Hscale. }
    destruct (treeTri_halves n k t n_fits Htt) as [Ht1 Ht2].
    apply bind_Done in Hrun as (A & HA & Hrun). apply bind_Done in Hrun as (B & HB & Hrun).
    injection Hrun as <-. apply Forall_app.
    split; [exact (IH _ _ _ Ht1 HA) | exact (IH _ _ _ Ht2 HB)].
  - injection Hrun as <-. apply Forall_singleton. split.
    { exists k. split; [exact Htt|]. apply orb_false_iff in Hd as [_ Hd].
      apply Qgtb_false. exact Hd. }
    intros p Hw Hnc. destruct k as [|k].
    { destruct Hnc. exact (within_unit _ _ Hsh Hw). }
    destruct (inside_bound n n_fits errors errors_size errors_ordered k t p Htt Hw Hnc)
      as (ep & em' & Hep & Hem' & Hle & _).
    rewrite Hem in Hem'. injection Hem' as <-.
    exists ep. split; [exact Hep|].
    apply orb_false_iff in Hd as [Hd _]. pose proof (legOf_S k) as Hleg.
    rewrite (proj2 (Z.ltb_lt 1 (legOf (S k))) ltac:(lia)) in Hd. cbn [andb] in Hd.
    apply Qgtb_false in Hd. eapply Qle_trans; eauto.
Qed.

(** a corner of a leaf is a corner of the triangle the recursion started
    from, or the middle of a triangle that was split: a pixel whose error
    is above the threshold, or the middle of a triangle that is too long *)
Lemma vertex_is_split (Hscale : (1 <= maxScale)%Q) (Q0 : point -> Prop) fuel :
  forall k t L,
  treeTri n k t -> run fuel t = Done L ->
  (forall v, v ∈ corners t -> Q0 v \/ rough v \/ longAt n maxScale v) ->
  forall v, v ∈ cornersOf L -> Q0 v \/ rough v \/ longAt n maxScale v.
Proof.
  pose proof (T_bounds n n_fits _ eq_refl) as HT.
  induction fuel as [|fuel IH]; intros k t L Htt Hrun Hc v Hv; [discriminate|].
  destruct (treeTri_shape n _ t n_fits Htt) as (Hin & Hsh & Hk).
  destruct (drillDown_shape T ltac:(lia) errors errors_size maxError maxScale _ t Hin Hsh)
    as (em & Hem & Hdown).
  cbn [leaves] in Hrun. rewrite Hdown in Hrun. cbn [bind] in Hrun.
  destruct ((1 <? legOf k) && Qgtb em maxError || Qgtb (inject_Z (legOf k)) maxScale)
    eqn:Hd.
  - destruct k as [|k].
    { exfalso. rewrite legOf_0 in Hd. cbn [Z.ltb Z.compare andb orb] in Hd.
      apply Qgtb_true in Hd. apply (Qlt_not_le _ _ Hd). exact Hscale. }
    destruct (treeTri_halves n k t n_fits Htt) as [Ht1 Ht2].
    apply bind_Done in Hrun as (A & HA & Hrun). apply bind_Done in Hrun as (B & HB & Hrun).
    injection Hrun as <-.
    assert (Q0 (mid t) \/ rough (mid t) \/ longAt n maxScale (mid t)) as Hmid.
    { right. apply orb_true_iff in Hd as [Hd | Hd].
      - apply andb_true_iff in Hd as [_ Hd]. apply Qgtb_true in Hd. left. eauto.
      - apply Qgtb_true in Hd. right. exists k, t. split; [exact Htt|].
        split; [reflexivity|]. rewrite (tableTri_leg n _ t n_fits Htt). exact Hd. }
    assert (forall w, w ∈ corners (firstHalf t) \/ w ∈ corners (secondHalf t) ->
                      Q0 w \/ rough w \/ longAt n maxScale w) as Hc'.
    { intros w Hw. destruct (within_corner t w Hw) as [H | ->]; auto. }
    apply cornersOf_app in Hv as [Hv | Hv].
    + apply (IH k (firstHalf t) A Ht1 HA); auto.
    + apply (IH k (secondHalf t) B Ht2 HB); auto.
  - injection Hrun as <-. apply Hc. unfold cornersOf in Hv. cbn [flat_map] in Hv.
    rewrite app_nil_r in Hv. exact Hv.
Qed.
End Vertices.

(** ** The mesh of a call *)

Lemma mesh_run (n : nat) tile maxError maxLength :
  (n <= 15)%nat -> gridOf n (martini tile) ->
  Z.of_nat (length (errors tile)) = (2 ^ Z.of_nat n + 1) * (2 ^ Z.of_nat n + 1) ->
  lengthBound maxLength ->
  let T := 2 ^ Z.of_nat n in
  let s := maxScaleOf maxLength (T + 1) in
  exists L1 L2,
    leaves (T + 1) (errors tile) maxError s (S (2 * n)) (Tri 0 0 T T T 0) = Done L1 /\
    leaves (T + 1) (errors tile) maxError s (S (2 * n)) (Tri T T 0 0 0 T) = Done L2 /\
    Forall (inTile T) (L1 ++ L2) /\
    NoDup (seenAfter [] (L1 ++ L2)) /\
    Forall (inGrid T) (seenAfter [] (L1 ++ L2)) /\
    (1 <= Z.of_nat (length L1) <= T * T /\ 1 <= Z.of_nat (length L2) <= T * T) /\
    forall fuel, (2 * n < fuel)%nat ->
      getMesh fuel tile maxError maxLength = Done (meshOf (L1 ++ L2)).
Proof.
  intros Hn Hgrid Hlen Hbound. cbn zeta.
  pose proof (T_bounds n Hn _ eq_refl) as HT.
  set (T := 2 ^ Z.of_nat n) in *.
  destruct (tile_leaves n (errors tile) maxError (maxScaleOf maxLength (T + 1)) Hn Hlen
              (maxScale_ge_1 maxLength (T + 1) Hbound ltac:(lia)))
    as (L1 & L2 & HF & Hc & Hleaves).
  fold T in HF, Hleaves.
  destruct (Hleaves (S (2 * n)) ltac:(lia)) as [H1 H2].
  destruct (two_passes n Hn tile Hgrid maxError maxLength _ L1 L2 H1 H2 HF Hc)
    as (ind & (_ & Hnd & Hall & _) & _).
  exists L1, L2. repeat (split; [assumption|]).
  split.
  { destruct (root_shapes n) as [Hs1 Hs2].
    destruct (root_inTile T ltac:(lia)) as [Hi1 Hi2].
    pose proof (maxScale_ge_1 maxLength (T + 1) Hbound ltac:(lia)) as Hscale.
    destruct (leaves_total T ltac:(lia) (errors tile) Hlen maxError _
                Hscale (S (2 * n)) (2 * n) _ ltac:(lia) Hi1 Hs1) as (L1' & HL1 & _ & Hc1).
    destruct (leaves_total T ltac:(lia) (errors tile) Hlen maxError _
                Hscale (S (2 * n)) (2 * n) _ ltac:(lia) Hi2 Hs2) as (L2' & HL2 & _ & Hc2).
    rewrite H1 in HL1. injection HL1 as <-. rewrite H2 in HL2. injection HL2 as <-.
    unfold T. rewrite square_pow2.
    destruct (corners_kept _ _ _ _ _ _ _ H1) as [N1 _].
    destruct (corners_kept _ _ _ _ _ _ _ H2) as [N2 _].
    destruct L1; [contradiction|]. destruct L2; [contradiction|].
    cbn [length] in *. lia. }
  intros fuel Hfuel. destruct (Hleaves fuel Hfuel) as [H1' H2'].
  destruct (two_passes n Hn tile Hgrid maxError maxLength fuel L1 L2 H1' H2' HF Hc)
    as (ind' & _ & _ & _ & _ & _ & Hrun).
  unfold getMesh. rewrite Hrun. reflexivity.
Qed.

(** X11: a call of [getMesh] returns between 2 and [2 * T * T] triangles on
    between 4 and [(T + 1) * (T + 1)] vertices, and the four corners of the
    tile are always among the vertices. *)
Theorem mesh_bounds (g : Z) (m : Martini) (heights : list Q) (tile : Tile)
  (maxError : Q) (maxLength : option Q) :
  g - 1 < 2 ^ 16 -> Martini_new g = Done m -> createTile m heights = Done tile ->
  lengthBound maxLength ->
  exists (fuel0 : nat) (mesh : Mesh),
    (forall fuel, (fuel0 <= fuel)%nat ->
       getMesh fuel tile maxError maxLength = Done mesh) /\
    let T := g - 1 in
    3 * 2 <= Z.of_nat (length (triangles mesh)) <= 3 * (2 * T * T) /\
    2 * 4 <= Z.of_nat (length (vertices mesh)) <= 2 * ((T + 1) * (T + 1)) /\
    meshVertex mesh (0, 0) /\ meshVertex mesh (T, 0) /\
    meshVertex mesh (0, T) /\ meshVertex mesh (T, T).
Proof.
  intros Hg Hnew Htile Hbound.
  destruct (valid_tile g m heights tile Hg Hnew Htile)
    as (n & Hn & -> & Hgrid & Hm & Hlen & _).
  pose proof (T_bounds n Hn _ eq_refl) as HT. subst m.
  destruct (mesh_run n tile maxError maxLength Hn Hgrid Hlen Hbound)
    as (L1 & L2 & H1 & H2 & HF & Hnd & Hall & (Hc1 & Hc2) & Hrun).
  set (T := 2 ^ Z.of_nat n) in *.
  exists (S (2 * n)), (meshOf (L1 ++ L2)).
  split; [intros fuel Hfuel; apply Hrun; lia|]. cbn zeta.
  replace (T + 1 - 1) with T by lia.
  assert (forall v, v ∈ [(0, 0); (T, 0); (0, T); (T, T)] -> v ∈ cornersOf (L1 ++ L2)) as Hcor.
  { intros v Hv. apply cornersOf_app.
    destruct (corners_kept _ _ _ _ _ _ _ H1) as [_ K1].
    destruct (corners_kept _ _ _ _ _ _ _ H2) as [_ K2].
    rewrite !elem_of_cons, elem_of_nil in Hv.
    destruct Hv as [-> | [-> | [-> | [-> | []]]]].
    - left. apply elem_cornersOf. apply K1. cbn [corners]. rewrite !elem_of_cons. auto.
    - left. apply elem_cornersOf. apply K1. cbn [corners]. rewrite !elem_of_cons. auto.
    - right. apply elem_cornersOf. apply K2. cbn [corners]. rewrite !elem_of_cons. auto.
    - left. apply elem_cornersOf. apply K1. cbn [corners]. rewrite !elem_of_cons. auto. }
  unfold meshOf. cbn [triangles vertices].
  rewrite trisOf_length, coordsOf_length.
  split; [rewrite length_app; lia|]. split.
  - pose proof (grid_count T _ ltac:(lia) Hnd Hall) as Hup.
    assert (4 <= length (seenAfter [] (L1 ++ L2)))%nat as Hlo.
    { change 4%nat with (length [(0, 0); (T, 0); (0, T); (T, T)]).
      apply submseteq_length, NoDup_submseteq.
      - repeat (apply NoDup_cons; split;
                [rewrite ?elem_of_cons, elem_of_nil; intros H;
                 repeat destruct H as [H | H]; try exact H; injection H; lia|]).
        apply NoDup_nil_2.
      - intros v Hv. apply seenAfter_elem. right. apply Hcor. exact Hv. }
    lia.
  - fold (meshOf (L1 ++ L2)). rewrite !meshVertex_meshOf.
    repeat split; apply Hcor; rewrite !elem_of_cons; auto.
Qed.

Lemma mesh_bounds_witness :
  5 - 1 < 2 ^ 16 /\ Martini_new 5 = Done peakGrid /\
  createTile peakGrid peakTerrain = Done peakTile /\
  lengthBound (Some 2%Q) /\
  exists (fuel0 : nat) (mesh : Mesh),
    (forall fuel, (fuel0 <= fuel)%nat ->
       getMesh fuel peakTile 1 (Some 2%Q) = Done mesh) /\
    let T := 5 - 1 in
    3 * 2 <= Z.of_nat (length (triangles mesh)) <= 3 * (2 * T * T) /\
    2 * 4 <= Z.of_nat (length (vertices mesh)) <= 2 * ((T + 1) * (T + 1)) /\
    meshVertex mesh (0, 0) /\ meshVertex mesh (T, 0) /\
    meshVertex mesh (0, T) /\ meshVertex mesh (T, T).
Proof.
  split; [lia|]. split; [vm_compute; reflexivity|]. split; [vm_compute; reflexivity|].
  split; [right; discriminate|].
  apply (mesh_bounds 5 peakGrid peakTerrain peakTile 1%Q (Some 2%Q));
    [lia | vm_compute; reflexivity | vm_compute; reflexivity | right; discriminate].
Defined.

Lemma tile_ordered (n : nat) m heights tile :
  (n <= 15)%nat -> gridOf n m -> createTile m heights = Done tile ->
  let T := 2 ^ Z.of_nat n in
  forall i, 0 <= i < T * T - 2 ->
    exists em el er : Q,
      get (errors tile) (pixel (T + 1) (mid (triangleOf T i))) = Done em /\
      get (errors tile) (pixel (T + 1) (mid (firstHalf (triangleOf T i)))) = Done el /\
      get (errors tile) (pixel (T + 1) (mid (secondHalf (triangleOf T i)))) = Done er /\
      (el <= em)%Q /\ (er <= em)%Q.
Proof.
  intros Hn Hgrid Htile. cbn zeta.
  destruct (tile_sweep n m heights tile Hn Hgrid Htile) as (_ & _ & _ & Hord & _).
  destruct Hgrid as (_ & _ & HP & _). rewrite HP in Hord. exact Hord.
Qed.

Lemma longAt_table (n : nat) m maxScale p :
  (n <= 15)%nat -> gridOf n m ->
  longAt n maxScale p <->
  (exists i t, 0 <= i < numTriangles m /\ readTriangle (coords m) i = Done t /\
               mid t = p /\ (maxScale < inject_Z (legLength t))%Q).
Proof.
  intros Hn Hgrid. pose proof Hgrid as (_ & HN & _). split.
  - intros (k & u & (i & Hi & Hu & Hr) & Hmid & Hlong).
    exists i, u. rewrite HN. split; [exact Hi|]. split; [|split; assumption].
    rewrite <- Hu. apply (readTriangle_table n Hn m Hgrid). rewrite HN. exact Hi.
  - intros (i & t & Hi & Hread & Hmid & Hlong).
    rewrite (readTriangle_table n Hn m Hgrid i Hi) in Hread. injection Hread as <-.
    rewrite HN in Hi. pose proof (rankOf_bounds n Hn _ eq_refl i Hi) as Hr.
    exists (rankOf n i - 1)%nat, (triangleOf (2 ^ Z.of_nat n) i).
    split; [|split; assumption].
    exists i. split; [exact Hi|]. split; [reflexivity | lia].
Qed.

(** X12: which pixels become vertices.  The vertices of the mesh are the four
    corners of the tile, the pixels whose error is above [maxError], and
    the middles of the long edges of the triangles of the table whose
    [legLength] is above the length constraint; the last case does not
    occur without a length constraint. *)
Theorem mesh_vertices (g : Z) (m : Martini) (heights : list Q)
  (tile : Tile) (maxError : Q) (maxLength : option Q) :
  g - 1 < 2 ^ 16 -> Martini_new g = Done m -> createTile m heights = Done tile ->
  lengthBound maxLength ->
  exists (fuel0 : nat) (mesh : Mesh),
    (forall fuel, (fuel0 <= fuel)%nat ->
       getMesh fuel tile maxError maxLength = Done mesh) /\
    let T := g - 1 in
    let rough p :=
      exists e : Q, get (errors tile) (pixel g p) = Done e /\ (maxError < e)%Q in
    let long p :=
      exists i t, 0 <= i < numTriangles m /\ readTriangle (coords m) i = Done t /\
                  mid t = p /\ (maxScaleOf maxLength g < inject_Z (legLength t))%Q in
    (forall p, meshVertex mesh p <->
               inGrid T p /\ (isCorner T p \/ rough p \/ long p)) /\
    (maxLength = None -> forall p, ~ long p).
Proof.
  intros Hg Hnew Htile Hbound.
  destruct (valid_tile g m heights tile Hg Hnew Htile)
    as (n & Hn & -> & Hgrid & Hm & Hlen & _).
  pose proof (tile_ordered n m heights tile Hn Hgrid Htile) as Hord. cbn zeta in Hord.
  pose proof (T_bounds n Hn _ eq_refl) as HT.
  pose proof (maxScale_ge_1 maxLength (2 ^ Z.of_nat n + 1) Hbound ltac:(lia)) as Hscale.
  pose proof (fun p => longAt_table n m (maxScaleOf maxLength (2 ^ Z.of_nat n + 1)) p
                         Hn Hgrid) as Hlong.
  subst m.
  destruct (mesh_run n tile maxError maxLength Hn Hgrid Hlen Hbound)
    as (L1 & L2 & H1 & H2 & HF & Hnd & Hall & _ & Hrun).
  destruct (treeTri_roots n Hn) as [Hr1 Hr2].
  set (T := 2 ^ Z.of_nat n) in *.
  exists (S (2 * n)), (meshOf (L1 ++ L2)).
  split; [intros fuel Hfuel; apply Hrun; lia|]. cbn zeta.
  replace (T + 1 - 1) with T by lia.
  destruct (corners_kept _ _ _ _ _ _ _ H1) as [_ K1].
  destruct (corners_kept _ _ _ _ _ _ _ H2) as [_ K2].
  split.
  - intros p. rewrite meshVertex_meshOf, <- Hlong. split.
    + intros Hp. split.
      { apply (proj1 (Forall_forall _ _) Hall). apply seenAfter_elem. auto. }
      apply cornersOf_app in Hp as [Hp | Hp].
      * apply (vertex_is_split n Hn (errors tile) Hlen maxError _ Hscale (isCorner T)
                 _ _ _ L1 Hr1 H1); [|exact Hp].
        intros v Hv. left. cbn [corners] in Hv. rewrite !elem_of_cons, elem_of_nil in Hv.
        destruct Hv as [-> | [-> | [-> | []]]]; unfold isCorner; cbn [fst snd]; auto.
      * apply (vertex_is_split n Hn (errors tile) Hlen maxError _ Hscale (isCorner T)
                 _ _ _ L2 Hr2 H2); [|exact Hp].
        intros v Hv. left. cbn [corners] in Hv. rewrite !elem_of_cons, elem_of_nil in Hv.
        destruct Hv as [-> | [-> | [-> | []]]]; unfold isCorner; cbn [fst snd]; auto.
    + intros [Hp Hcase]. apply cornersOf_app.
      destruct (decide (p ∈ corners (Tri 0 0 T T T 0))) as [Hc1 | Hc1];
        [left; apply elem_cornersOf; auto|].
      destruct (decide (p ∈ corners (Tri T T 0 0 0 T))) as [Hc2 | Hc2];
        [right; apply elem_cornersOf; auto|].
      destruct Hcase as [Hcor | Hsplit].
      { exfalso. destruct p as [x y]. destruct Hcor as [Hx Hy]. cbn [fst snd corners] in *.
        rewrite !elem_of_cons in Hc1, Hc2.
        destruct Hx as [-> | ->], Hy as [-> | ->]; tauto. }
      destruct (within_roots T ltac:(lia) p Hp) as [Hw | Hw]; [left | right].
      * exact (split_is_vertex n Hn (errors tile) Hlen Hord maxError _ _ _ _ p L1
                 Hr1 Hw Hc1 Hsplit H1).
      * exact (split_is_vertex n Hn (errors tile) Hlen Hord maxError _ _ _ _ p L2
                 Hr2 Hw Hc2 Hsplit H2).
  - intros -> p (i & t & Hi & Hread & _ & Hl).
    pose proof Hgrid as (_ & HN & _).
    rewrite (readTriangle_table n Hn (martini tile) Hgrid i Hi) in Hread.
    injection Hread as <-. rewrite HN in Hi.
    destruct (triangleOf_shape n Hn _ eq_refl i Hi) as [Hin Hsh].
    destruct (triangleOf (2 ^ Z.of_nat n) i) as [ax ay bx by_ cx cy].
    pose proof (shape_legLength_le _ _ ax ay bx by_ cx cy Hin Hsh) as Hle.
    cbn [maxScaleOf legLength] in Hl. rewrite <- Zlt_Qlt in Hl. lia.
Qed.

Lemma mesh_vertices_witness :
  5 - 1 < 2 ^ 16 /\ Martini_new 5 = Done peakGrid /\
  createTile peakGrid peakTerrain = Done peakTile /\
  lengthBound (Some 2%Q) /\
  exists (fuel0 : nat) (mesh : Mesh),
    (forall fuel, (fuel0 <= fuel)%nat ->
       getMesh fuel peakTile 1 (Some 2%Q) = Done mesh) /\
    let T := 5 - 1 in
    let rough p :=
      exists e : Q, get (errors peakTile) (pixel 5 p) = Done e /\ (1 < e)%Q in
    let long p :=
      exists i t, 0 <= i < numTriangles peakGrid /\
                  readTriangle (coords peakGrid) i = Done t /\
                  mid t = p /\ (maxScaleOf (Some 2%Q) 5 < inject_Z (legLength t))%Q in
    (forall p, meshVertex mesh p <->
               inGrid T p /\ (isCorner T p \/ rough p \/ long p)) /\
    (Some 2%Q = None -> forall p, ~ long p).
Proof.
  split; [lia|]. split; [vm_compute; reflexivity|]. split; [vm_compute; reflexivity|].
  split; [right; discriminate|].
  apply (mesh_vertices 5 peakGrid peakTerrain peakTile 1%Q (Some 2%Q));
    [lia | vm_compute; reflexivity | vm_compute; reflexivity | right; discriminate].
Defined.

Lemma mesh_leaves_guarantee (n : nat) m heights tile maxError maxLength L1 L2 :
  (n <= 15)%nat -> gridOf n m -> createTile m heights = Done tile ->
  Z.of_nat (length (errors tile)) = (2 ^ Z.of_nat n + 1) * (2 ^ Z.of_nat n + 1) ->
  lengthBound maxLength ->
  let T := 2 ^ Z.of_nat n in
  let s := maxScaleOf maxLength (T + 1) in
  leaves (T + 1) (errors tile) maxError s (S (2 * n)) (Tri 0 0 T T T 0) = Done L1 ->
  leaves (T + 1) (errors tile) maxError s (S (2 * n)) (Tri T T 0 0 0 T) = Done L2 ->
  Forall (fun u =>
    (exists k', treeTri n k' u /\ (inject_Z (legOf k') <= s)%Q) /\
    forall p, within u p -> p ∉ corners u ->
      exists e : Q, get (errors tile) (pixel (T + 1) p) = Done e /\ (e <= maxError)%Q)
    (L1 ++ L2).
Proof.
  intros Hn Hgrid Htile Hlen Hbound. cbn zeta. intros H1 H2.
  pose proof (tile_ordered n m heights tile Hn Hgrid Htile) as Hord. cbn zeta in Hord.
  pose proof (T_bounds n Hn _ eq_refl) as HT.
  destruct (treeTri_roots n Hn) as [Hr1 Hr2].
  pose proof (maxScale_ge_1 maxLength (2 ^ Z.of_nat n + 1) Hbound ltac:(lia)) as Hscale.
  apply Forall_app. split.
  - exact (leaves_guarantee n Hn (errors tile) Hlen Hord maxError _ Hscale _ _ _ _ Hr1 H1).
  - exact (leaves_guarantee n Hn (errors tile) Hlen Hord maxError _ Hscale _ _ _ _ Hr2 H2).
Qed.

(** X13: the error bound of the mesh.  For every triangle of the returned
    mesh, every pixel that lies in the triangle (border included) and is
    not one of its three corners has an error of at most [maxError]. *)
Theorem mesh_error_bound (g : Z) (m : Martini) (heights : list Q) (tile : Tile)
  (maxError : Q) (maxLength : option Q) :
  g - 1 < 2 ^ 16 -> Martini_new g = Done m -> createTile m heights = Done tile ->
  lengthBound maxLength ->
  exists (fuel0 : nat) (mesh : Mesh),
    (forall fuel, (fuel0 <= fuel)%nat ->
       getMesh fuel tile maxError maxLength = Done mesh) /\
    forall t p, t ∈ meshTriangles mesh -> within t p -> p ∉ corners t ->
      exists e : Q, get (errors tile) (pixel g p) = Done e /\ (e <= maxError)%Q.
Proof.
  intros Hg Hnew Htile Hbound.
  destruct (valid_tile g m heights tile Hg Hnew Htile)
    as (n & Hn & -> & Hgrid & Hm & Hlen & _).
  subst m.
  destruct (mesh_run n tile maxError maxLength Hn Hgrid Hlen Hbound)
    as (L1 & L2 & H1 & H2 & HF & Hnd & Hall & _ & Hrun).
  pose proof (mesh_leaves_guarantee n _ heights tile maxError maxLength L1 L2
                Hn Hgrid Htile Hlen Hbound H1 H2) as Hgu.
  exists (S (2 * n)), (meshOf (L1 ++ L2)).
  split; [intros fuel Hfuel; apply Hrun; lia|].
  intros t p Ht Hw Hnc. rewrite meshTriangles_meshOf in Ht.
  destruct (proj1 (Forall_forall _ _) Hgu t Ht) as [_ Hb]. exact (Hb p Hw Hnc).
Qed.

Lemma mesh_error_bound_witness :
  5 - 1 < 2 ^ 16 /\ Martini_new 5 = Done peakGrid /\
  createTile peakGrid peakTerrain = Done peakTile /\
  lengthBound None /\
  exists (fuel0 : nat) (mesh : Mesh),
    (forall fuel, (fuel0 <= fuel)%nat ->
       getMesh fuel peakTile 1 None = Done mesh) /\
    forall t p, t ∈ meshTriangles mesh -> within t p -> p ∉ corners t ->
      exists e : Q, get (errors peakTile) (pixel 5 p) = Done e /\ (e <= 1)%Q.
Proof.
  split; [lia|]. split; [vm_compute; reflexivity|]. split; [vm_compute; reflexivity|].
  split; [exact I|].
  apply (mesh_error_bound 5 peakGrid peakTerrain peakTile 1%Q None);
    [lia | vm_compute; reflexivity | vm_compute; reflexivity | exact I].
Defined.

(** X14: the mesh has no T-junctions.  A vertex of the mesh that lies in a
    triangle of the mesh (border included) is one of the three corners of
    that triangle. *)
Theorem mesh_conforming (g : Z) (m : Martini) (heights : list Q) (tile : Tile)
  (maxError : Q) (maxLength : option Q) :
  g - 1 < 2 ^ 16 -> Martini_new g = Done m -> createTile m heights = Done tile ->
  lengthBound maxLength ->
  exists (fuel0 : nat) (mesh : Mesh),
    (forall fuel, (fuel0 <= fuel)%nat ->
       getMesh fuel tile maxError maxLength = Done mesh) /\
    forall t p, t ∈ meshTriangles mesh -> meshVertex mesh p -> within t p ->
      p ∈ corners t.
Proof.
  intros Hg Hnew Htile Hbound.
  destruct (valid_tile g m heights tile Hg Hnew Htile)
    as (n & Hn & -> & Hgrid & Hm & Hlen & _).
  pose proof (tile_ordered n m heights tile Hn Hgrid Htile) as Hord. cbn zeta in Hord.
  pose proof (T_bounds n Hn _ eq_refl) as HT.
  pose proof (maxScale_ge_1 maxLength (2 ^ Z.of_nat n + 1) Hbound ltac:(lia)) as Hscale.
  subst m.
  destruct (mesh_run n tile maxError maxLength Hn Hgrid Hlen Hbound)
    as (L1 & L2 & H1 & H2 & HF & Hnd & Hall & _ & Hrun).
  pose proof (mesh_leaves_guarantee n _ heights tile maxError maxLength L1 L2
                Hn Hgrid Htile Hlen Hbound H1 H2) as Hgu.
  destruct (treeTri_roots n Hn) as [Hr1 Hr2].
  set (T := 2 ^ Z.of_nat n) in *. set (s := maxScaleOf maxLength (T + 1)) in *.
  exists (S (2 * n)), (meshOf (L1 ++ L2)).
  split; [intros fuel Hfuel; apply Hrun; lia|].
  intros t p Ht Hp Hw. rewrite meshTriangles_meshOf in Ht.
  apply meshVertex_meshOf in Hp.
  destruct (decide (p ∈ corners t)) as [Hc | Hnc]; [exact Hc | exfalso].
  destruct (proj1 (Forall_forall _ _) Hgu t Ht) as [(k & Htt & Hleg) Hb].
  destruct (Hb p Hw Hnc) as (e & He & Hle).
  destruct k as [|k].
  { destruct Htt as [_ Hsh]. exact (Hnc (within_unit _ _ Hsh Hw)). }
  destruct (inside_bound n Hn (errors tile) Hlen Hord k t p Htt Hw Hnc)
    as (_ & _ & _ & _ & _ & _ & k' & Hk' & Hcl).
  destruct (tableTri_shape n _ t Hn Htt) as (_ & _ & Hk).
  assert (isCorner T p \/
          (exists e : Q, get (errors tile) (pixel (T + 1) p) = Done e /\ (maxError < e)%Q) \/
          longAt n s p)
    as [Hcor | [(e' & He' & Hgt) | (ku & u & Hu & Hmu & Hlong)]].
  { apply cornersOf_app in Hp as [Hp | Hp].
    + apply (vertex_is_split n Hn (errors tile) Hlen maxError _ Hscale (isCorner T)
               _ _ _ L1 Hr1 H1); [|exact Hp].
      intros v Hv. left. cbn [corners] in Hv. rewrite !elem_of_cons, elem_of_nil in Hv.
      destruct Hv as [-> | [-> | [-> | []]]]; unfold isCorner; cbn [fst snd]; auto.
    + apply (vertex_is_split n Hn (errors tile) Hlen maxError _ Hscale (isCorner T)
               _ _ _ L2 Hr2 H2); [|exact Hp].
      intros v Hv. left. cbn [corners] in Hv. rewrite !elem_of_cons, elem_of_nil in Hv.
      destruct Hv as [-> | [-> | [-> | []]]]; unfold isCorner; cbn [fst snd]; auto. }
  - destruct p as [x y]. destruct Hcor as [Hx Hy]. cbn [fst snd] in Hx, Hy.
    exact (midClass_not_corner n k' x y Hcl ltac:(lia) Hx Hy).
  - rewrite He in He'. injection He' as <-.
    exact (Qlt_not_le _ _ Hgt Hle).
  - destruct (tableTri_shape n _ u Hn Hu) as (Hiu & Hsu & _).
    pose proof (shape_mid_class T ltac:(lia) _ u Hiu Hsu) as Hcu. rewrite Hmu in Hcu.
    pose proof (midClass_disjoint _ _ _ Hcu Hcl) as Heq.
    rewrite (tableTri_leg n _ u Hn Hu) in Hlong.
    pose proof (legOf_mono (S ku) (S k) ltac:(lia)) as Hmono.
    apply (Qlt_not_le _ _ Hlong). eapply Qle_trans; [|exact Hleg].
    rewrite <- Zle_Qle. exact Hmono.
Qed.

Lemma mesh_conforming_witness :
  5 - 1 < 2 ^ 16 /\ Martini_new 5 = Done peakGrid /\
  createTile peakGrid peakTerrain = Done peakTile /\
  lengthBound (Some 2%Q) /\
  exists (fuel0 : nat) (mesh : Mesh),
    (forall fuel, (fuel0 <= fuel)%nat ->
       getMesh fuel peakTile 1 (Some 2%Q) = Done mesh) /\
    forall t p, t ∈ meshTriangles mesh -> meshVertex mesh p -> within t p ->
      p ∈ corners t.
Proof.
  split; [lia|]. split; [vm_compute; reflexivity|]. split; [vm_compute; reflexivity|].
  split; [right; discriminate|].
  apply (mesh_conforming 5 peakGrid peakTerrain peakTile 1%Q (Some 2%Q));
    [lia | vm_compute; reflexivity | vm_compute; reflexivity | right; discriminate].
Defined.

Lemma totalArea2_app L1 L2 : totalArea2 (L1 ++ L2) = totalArea2 L1 + totalArea2 L2.
Proof.
  unfold totalArea2. induction L1 as [|t L1 IH]; cbn [app map foldr]; lia.
Qed.

Lemma shape_rightIsosceles k t : shape k t -> rightIsosceles t.
Proof.
  destruct t as [ax ay bx by_ cx cy]. intros [e [[_ Hl] | [_ Hh]]].
  - destruct Hl as (d & i & j & Hcx & Hcy & Hax & Hay & Hbx & Hby).
    set (s := 2 ^ Z.of_nat e) in *. unfold rightIsosceles.
    destruct d; cbn [dx dy turn] in *; subst ax ay bx by_; split; ring.
  - destruct Hh as (w & i & j & Hcx & Hcy & Hax & Hay & Hbx & Hby).
    set (s := 2 ^ Z.of_nat e) in *. unfold rightIsosceles.
    destruct w; cbn [dx dy turn] in *; subst ax ay bx by_; split; ring.
Qed.

Section Areas.
Variable T : Z.
Hypothesis T_fits : 0 <= T <= 2 ^ 15.
Variable errors : list Q.
Hypothesis errors_size : Z.of_nat (length errors) = (T + 1) * (T + 1).
Variable maxError maxScale : Q.
Hypothesis scale_ge_1 : (1 <= maxScale)%Q.

Lemma leaves_area fuel : forall k t L,
  inTile T t -> shape k t ->
  leaves (T + 1) errors maxError maxScale fuel t = Done L ->
  Forall (fun u => inTile T u /\ exists k', shape k' u) L /\
  totalArea2 L = signedArea2 t.
Proof.
  induction fuel as [|fuel IH]; intros k t L Hin Hsh Hrun; [discriminate|].
  destruct (drillDown_shape T T_fits errors errors_size maxError maxScale _ t Hin Hsh)
    as (em & Hem & Hdown).
  cbn [leaves] in Hrun. rewrite Hdown in Hrun. cbn [bind] in Hrun.
  destruct ((1 <? legOf k) && Qgtb em maxError || Qgtb (inject_Z (legOf k)) maxScale)
    eqn:Hd.
  - destruct k as [|k].
    { exfalso. rewrite legOf_0 in Hd. cbn [Z.ltb Z.compare andb orb] in Hd.
      apply Qgtb_true in Hd. apply (Qlt_not_le _ _ Hd). exact scale_ge_1. }
    destruct (shape_halves T T_fits _ t Hin Hsh) as [Hs1 Hs2].
    destruct (halves_inTile T T_fits t Hin) as [Hi1 Hi2].
    apply bind_Done in Hrun as (A & HA & Hrun). apply bind_Done in Hrun as (B & HB & Hrun).
    injection Hrun as <-.
    destruct (IH _ _ _ Hi1 Hs1 HA) as [FA SA]. destruct (IH _ _ _ Hi2 Hs2 HB) as [FB SB].
    split; [apply Forall_app; auto|].
    rewrite totalArea2_app, SA, SB.
    rewrite (shape_area _ _ Hs1), (shape_area _ _ Hs2), (shape_area _ _ Hsh), pow2_S. lia.
  - injection Hrun as <-. split; [apply Forall_singleton; eauto|].
    unfold totalArea2. cbn [map foldr]. lia.
Qed.
End Areas.

(** X15: the triangles of the mesh.  Every triangle that [getMesh] returns
    lies in the tile, has a right angle at its corner [c] between two legs
    of the same length, and runs clockwise from [a] over [b] to [c] (its
    signed area is negative); the areas of the triangles add up to the
    area [T * T] of the tile. *)
Theorem mesh_triangles_tile (g : Z) (m : Martini) (heights : list Q) (tile : Tile)
  (maxError : Q) (maxLength : option Q) :
  g - 1 < 2 ^ 16 -> Martini_new g = Done m -> createTile m heights = Done tile ->
  lengthBound maxLength ->
  exists (fuel0 : nat) (mesh : Mesh),
    (forall fuel, (fuel0 <= fuel)%nat ->
       getMesh fuel tile maxError maxLength = Done mesh) /\
    let T := g - 1 in
    Forall (fun t => inTile T t /\ rightIsosceles t /\ signedArea2 t < 0)
      (meshTriangles mesh) /\
    totalArea2 (meshTriangles mesh) = - (2 * (T * T)).
Proof.
  intros Hg Hnew Htile Hbound.
  destruct (valid_tile g m heights tile Hg Hnew Htile)
    as (n & Hn & -> & Hgrid & Hm & Hlen & _).
  pose proof (T_bounds n Hn _ eq_refl) as HT. subst m.
  destruct (mesh_run n tile maxError maxLength Hn Hgrid Hlen Hbound)
    as (L1 & L2 & H1 & H2 & HF & Hnd & Hall & _ & Hrun).
  pose proof (maxScale_ge_1 maxLength (2 ^ Z.of_nat n + 1) Hbound ltac:(lia)) as Hscale.
  destruct (root_shapes n) as [Hs1 Hs2].
  destruct (root_inTile (2 ^ Z.of_nat n) ltac:(lia)) as [Hi1 Hi2].
  destruct (leaves_area (2 ^ Z.of_nat n) ltac:(lia) (errors tile) Hlen maxError _ Hscale _ _ _ _
              Hi1 Hs1 H1) as [F1 S1].
  destruct (leaves_area (2 ^ Z.of_nat n) ltac:(lia) (errors tile) Hlen maxError _ Hscale _ _ _ _
              Hi2 Hs2 H2) as [F2 S2].
  exists (S (2 * n)), (meshOf (L1 ++ L2)).
  split; [intros fuel Hfuel; apply Hrun; lia|]. cbn zeta.
  rewrite meshTriangles_meshOf.
  replace (2 ^ Z.of_nat n + 1 - 1) with (2 ^ Z.of_nat n) by lia.
  split.
  - eapply Forall_impl; [apply Forall_app; split; [exact F1 | exact F2]|].
    intros t (Hin & k & Hsh). split; [exact Hin|].
    split; [exact (shape_rightIsosceles _ _ Hsh)|].
    rewrite (shape_area _ _ Hsh). pose proof (pow2_pos k). lia.
  - rewrite totalArea2_app, S1, S2, (shape_area _ _ Hs1), (shape_area _ _ Hs2).
    rewrite <- square_pow2. lia.
Qed.

Lemma mesh_triangles_tile_witness :
  5 - 1 < 2 ^ 16 /\ Martini_new 5 = Done peakGrid /\
  createTile peakGrid peakTerrain = Done peakTile /\
  lengthBound (Some 2%Q) /\
  exists (fuel0 : nat) (mesh : Mesh),
    (forall fuel, (fuel0 <= fuel)%nat ->
       getMesh fuel peakTile 1 (Some 2%Q) = Done mesh) /\
    let T := 5 - 1 in
    Forall (fun t => inTile T t /\ rightIsosceles t /\ signedArea2 t < 0)
      (meshTriangles mesh) /\
    totalArea2 (meshTriangles mesh) = - (2 * (T * T)).
Proof.
  split; [lia|]. split; [vm_compute; reflexivity|]. split; [vm_compute; reflexivity|].
  split; [right; discriminate|].
  apply (mesh_triangles_tile 5 peakGrid peakTerrain peakTile 1%Q (Some 2%Q));
    [lia | vm_compute; reflexivity | vm_compute; reflexivity | right; discriminate].
Defined.

(** ** The length constraint *)

Lemma drillDown_false_leg size errors maxError maxScale t :
  drillDown size errors maxError maxScale t = Done false ->
  (inject_Z (legLength t) <= maxScale)%Q.
Proof.
  destruct t as [ax ay bx by_ cx cy]. unfold drillDown, legLength.
  intros H. apply bind_Done in H as (r & _ & H). cbn beta in H. injection H as H.
  apply orb_false_iff in H as [_ H]. apply Qgtb_false. exact H.
Qed.

Lemma maxScaleOf_Some (l : Q) size : (1 <= l)%Q -> maxScaleOf (Some l) size = l.
Proof.
  intros Hl. cbn [maxScaleOf]. destruct (Qeq_bool l 0) eqn:E; [|reflexivity].
  apply Qeq_bool_iff in E. lra.
Qed.

(** X16: with a length constraint [maxLength >= 1], every triangle of the
    mesh has a [legLength] (the sum of the two coordinate distances from
    [a] to [c], as lines 117 and 139 measure it) of at most [maxLength]. *)
Theorem mesh_leg_bound (g : Z) (m : Martini) (heights : list Q) (tile : Tile)
  (maxError l : Q) :
  g - 1 < 2 ^ 16 -> Martini_new g = Done m -> createTile m heights = Done tile ->
  (1 <= l)%Q ->
  exists (fuel0 : nat) (mesh : Mesh),
    (forall fuel, (fuel0 <= fuel)%nat ->
       getMesh fuel tile maxError (Some l) = Done mesh) /\
    Forall (fun t => (inject_Z (legLength t) <= l)%Q) (meshTriangles mesh).
Proof.
  intros Hg Hnew Htile Hl.
  destruct (valid_tile g m heights tile Hg Hnew Htile)
    as (n & Hn & -> & Hgrid & Hm & Hlen & _).
  subst m.
  destruct (mesh_run n tile maxError (Some l) Hn Hgrid Hlen (or_intror Hl))
    as (L1 & L2 & H1 & H2 & HF & Hnd & Hall & _ & Hrun).
  exists (S (2 * n)), (meshOf (L1 ++ L2)).
  split; [intros fuel Hfuel; apply Hrun; lia|].
  rewrite meshTriangles_meshOf. rewrite maxScaleOf_Some in H1, H2 by exact Hl.
  eapply Forall_impl;
    [apply Forall_app; split; [exact (leaves_flat _ _ _ _ _ _ _ H1)
                              | exact (leaves_flat _ _ _ _ _ _ _ H2)]|].
  intros t Ht. exact (drillDown_false_leg _ _ _ _ _ Ht).
Qed.

Lemma mesh_leg_bound_witness :
  5 - 1 < 2 ^ 16 /\ Martini_new 5 = Done peakGrid /\
  createTile peakGrid peakTerrain = Done peakTile /\
  (1 <= 2)%Q /\
  exists (fuel0 : nat) (mesh : Mesh),
    (forall fuel, (fuel0 <= fuel)%nat ->
       getMesh fuel peakTile 100 (Some 2%Q) = Done mesh) /\
    Forall (fun t => (inject_Z (legLength t) <= 2)%Q) (meshTriangles mesh).
Proof.
  split; [lia|]. split; [vm_compute; reflexivity|]. split; [vm_compute; reflexivity|].
  split; [discriminate|].
  apply (mesh_leg_bound 5 peakGrid peakTerrain peakTile 100%Q 2%Q);
    [lia | vm_compute; reflexivity | vm_compute; reflexivity | discriminate].
Defined.

Section LongScale.
Variable T : Z.
Hypothesis T_fits : 0 <= T <= 2 ^ 15.
Variable errors : list Q.
Hypothesis errors_size : Z.of_nat (length errors) = (T + 1) * (T + 1).
Variable maxError s1 s2 : Q.
Hypothesis s1_long : (inject_Z T <= s1)%Q.
Hypothesis s2_long : (inject_Z T <= s2)%Q.

Lemma drillDown_long k t :
  inTile T t -> shape k t ->
  drillDown (T + 1) errors maxError s1 t = drillDown (T + 1) errors maxError s2 t.
Proof.
  intros Hin Hsh.
  destruct (drillDown_shape T T_fits errors errors_size maxError s1 _ t Hin Hsh)
    as (e1 & He1 & ->).
  destruct (drillDown_shape T T_fits errors errors_size maxError s2 _ t Hin Hsh)
    as (e2 & He2 & ->).
  rewrite He1 in He2. injection He2 as <-.
  assert (forall s, (inject_Z T <= s)%Q -> Qgtb (inject_Z (legOf k)) s = false) as Hs.
  { intros s Hle. apply Qgtb_false. eapply Qle_trans; [|exact Hle].
    rewrite <- Zle_Qle. destruct t as [ax ay bx by_ cx cy].
    rewrite <- (shape_legLength k ax ay bx by_ cx cy Hsh).
    exact (shape_legLength_le T k ax ay bx by_ cx cy Hin Hsh). }
  rewrite !Hs by assumption. reflexivity.
Qed.

Lemma drillDown_unit_long t :
  inTile T t -> shape 0 t -> 1 <= T ->
  drillDown (T + 1) errors maxError s2 t = Done false.
Proof.
  intros Hin Hsh H1.
  destruct (drillDown_shape T T_fits errors errors_size maxError s2 _ t Hin Hsh)
    as (e & _ & ->).
  rewrite legOf_0. cbn [Z.ltb Z.compare andb orb]. f_equal. apply Qgtb_false.
  eapply Qle_trans; [|exact s2_long]. rewrite <- Zle_Qle. exact H1.
Qed.

Lemma countElements_long (HT : 1 <= T) fuel : forall k t st,
  inTile T t -> shape k t ->
  countElements (T + 1) errors maxError s1 fuel t st =
  countElements (T + 1) errors maxError s2 fuel t st.
Proof.
  induction fuel as [|fuel IH]; intros k t st Hin Hsh; [reflexivity|].
  rewrite !countElements_S, (drillDown_long k t Hin Hsh).
  destruct k as [|k].
  - rewrite (drillDown_unit_long t Hin Hsh HT). reflexivity.
  - destruct (shape_halves T T_fits _ t Hin Hsh) as [Hs1 Hs2].
    destruct (halves_inTile T T_fits t Hin) as [Hi1 Hi2].
    destruct (drillDown (T + 1) errors maxError s2 t) as [[|]|]; cbn [bind];
      try reflexivity.
    rewrite (IH k _ st Hi1 Hs1).
    destruct (countElements (T + 1) errors maxError s2 fuel (firstHalf t) st);
      cbn [bind]; [apply (IH k); assumption | reflexivity].
Qed.

Lemma processTriangle_long (HT : 1 <= T) ind fuel : forall k t st,
  inTile T t -> shape k t ->
  processTriangle (T + 1) errors maxError s1 ind fuel t st =
  processTriangle (T + 1) errors maxError s2 ind fuel t st.
Proof.
  induction fuel as [|fuel IH]; intros k t st Hin Hsh; [reflexivity|].
  cbn [processTriangle]. rewrite (drillDown_long k t Hin Hsh).
  destruct k as [|k].
  - rewrite (drillDown_unit_long t Hin Hsh HT). reflexivity.
  - destruct (shape_halves T T_fits _ t Hin Hsh) as [Hs1 Hs2].
    destruct (halves_inTile T T_fits t Hin) as [Hi1 Hi2].
    destruct (drillDown (T + 1) errors maxError s2 t) as [[|]|]; cbn [bind];
      try reflexivity.
    rewrite (IH k _ st Hi1 Hs1).
    destruct (processTriangle (T + 1) errors maxError s2 ind fuel (firstHalf t) st);
      cbn [bind]; [apply (IH k); assumption | reflexivity].
Qed.
End LongScale.

(** X17: a length constraint of at least the tile size [gridSize - 1] has no
    effect: the call returns what the call without [maxLength] returns. *)
Theorem long_length_is_none (g : Z) (m : Martini) (heights : list Q) (tile : Tile)
  (maxError l : Q) :
  g - 1 < 2 ^ 16 -> Martini_new g = Done m -> createTile m heights = Done tile ->
  (inject_Z (g - 1) <= l)%Q ->
  forall fuel, getMesh fuel tile maxError (Some l) = getMesh fuel tile maxError None.
Proof.
  intros Hg Hnew Htile Hl fuel.
  destruct (valid_tile g m heights tile Hg Hnew Htile)
    as (n & Hn & -> & Hgrid & Hm & Hlen & _).
  pose proof (T_bounds n Hn _ eq_refl) as HT. subst m.
  replace (2 ^ Z.of_nat n + 1 - 1) with (2 ^ Z.of_nat n) in Hl by lia.
  set (T := 2 ^ Z.of_nat n) in *.
  assert (1 <= l)%Q as Hl1.
  { eapply Qle_trans; [|exact Hl]. change 1%Q with (inject_Z 1). rewrite <- Zle_Qle. lia. }
  assert (inject_Z T <= inject_Z (T + 1))%Q as Hs2 by (rewrite <- Zle_Qle; lia).
  destruct (root_shapes n) as [Hs1' Hs2'].
  destruct (root_inTile T ltac:(lia)) as [Hi1 Hi2]. fold T in Hs1', Hs2'.
  unfold getMesh, getMeshRun. cbn zeta. destruct Hgrid as (-> & _).
  rewrite maxScaleOf_Some by exact Hl1. cbn [maxScaleOf]. fold T.
  replace (T + 1 - 1) with T by lia.
  rewrite (countElements_long T ltac:(lia) (errors tile) Hlen maxError l _ Hl Hs2
             ltac:(lia) fuel _ _ _ Hi1 Hs1').
  destruct (countElements (T + 1) (errors tile) maxError (inject_Z (T + 1)) fuel
              (Tri 0 0 T T T 0) _) as [st1|]; cbn [bind]; [|reflexivity].
  rewrite (countElements_long T ltac:(lia) (errors tile) Hlen maxError l _ Hl Hs2
             ltac:(lia) fuel _ _ _ Hi2 Hs2').
  destruct (countElements (T + 1) (errors tile) maxError (inject_Z (T + 1)) fuel
              (Tri T T 0 0 0 T) _) as [st2|]; cbn [bind]; [|reflexivity].
  destruct (newArray 0 (cnt_numVertices st2 * 2)) as [vs|]; cbn [bind]; [|reflexivity].
  destruct (newArray 0 (cnt_numTriangles st2 * 3)) as [ts|]; cbn [bind]; [|reflexivity].
  rewrite (processTriangle_long T ltac:(lia) (errors tile) Hlen maxError l _ Hl Hs2
             ltac:(lia) _ fuel _ _ _ Hi1 Hs1').
  destruct (processTriangle (T + 1) (errors tile) maxError (inject_Z (T + 1)) _ fuel
              (Tri 0 0 T T T 0) _) as [b1|]; cbn [bind]; [|reflexivity].
  rewrite (processTriangle_long T ltac:(lia) (errors tile) Hlen maxError l _ Hl Hs2
             ltac:(lia) _ fuel _ _ _ Hi2 Hs2').
  reflexivity.
Qed.

Lemma long_length_is_none_witness :
  5 - 1 < 2 ^ 16 /\ Martini_new 5 = Done peakGrid /\
  createTile peakGrid peakTerrain = Done peakTile /\
  (inject_Z (5 - 1) <= 4)%Q /\
  forall fuel, getMesh fuel peakTile 1 (Some 4%Q) = getMesh fuel peakTile 1 None.
Proof.
  split; [lia|]. split; [vm_compute; reflexivity|]. split; [vm_compute; reflexivity|].
  split; [discriminate|].
  apply (long_length_is_none 5 peakGrid peakTerrain peakTile 1%Q 4%Q);
    [lia | vm_compute; reflexivity | vm_compute; reflexivity | discriminate].
Defined.

Section Refinement2.
Variable size : Z.
Variable errors : list Q.
Variable e1 e2 : Q.
Hypothesis e1_le_e2 : (e1 <= e2)%Q.
Variable s1 s2 : Q.
Hypothesis s1_le_s2 : (s1 <= s2)%Q.

Lemma drillDown_mono2 t b1 :
  drillDown size errors e2 s2 t = Done true ->
  drillDown size errors e1 s1 t = Done b1 -> b1 = true.
Proof.
  destruct t as [ax ay bx by_ cx cy]. unfold drillDown. cbn zeta.
  assert (forall x, Qgtb x s2 = true -> Qgtb x s1 = true) as Hs.
  { intros x H. apply Qgtb_true in H. apply Qgtb_true. eapply Qle_lt_trans; eassumption. }
  destruct (1 <? Z.abs (ax - cx) + Z.abs (ay - cy)); cbn [bind].
  - destruct (get errors _) as [e|]; cbn [bind]; [|discriminate].
    intros [= H2] [= <-].
    apply orb_true_iff in H2 as [H2 | H2]; [|rewrite (Hs _ H2); apply orb_true_r].
    apply Qgtb_true in H2.
    assert (Qgtb e e1 = true) as ->; [|reflexivity].
    apply Qgtb_true. eapply Qle_lt_trans; eassumption.
  - intros [= H2] [= <-]. cbn [orb] in *. exact (Hs _ H2).
Qed.

Lemma leaves_refine2 fuel : forall t Lf Lc,
  leaves size errors e1 s1 fuel t = Done Lf ->
  leaves size errors e2 s2 fuel t = Done Lc ->
  (length Lc <= length Lf)%nat /\
  forall v, v ∈ cornersOf Lc -> v ∈ cornersOf Lf.
Proof.
  induction fuel as [|fuel IH]; intros t Lf Lc Hf Hc; [discriminate|].
  pose proof (corners_kept size errors e1 s1 _ _ _ Hf) as [Hne Hkept].
  cbn [leaves] in Hf, Hc.
  destruct (drillDown size errors e2 s2 t) as [[|]|] eqn:D2; cbn [bind] in Hc;
    [| | discriminate].
  - destruct (drillDown size errors e1 s1 t) as [b1|] eqn:D1; cbn [bind] in Hf;
      [|discriminate].
    rewrite (drillDown_mono2 t b1 D2 D1) in Hf.
    apply bind_Done in Hf as (F1 & HF1 & Hf). apply bind_Done in Hf as (F2 & HF2 & Hf).
    apply bind_Done in Hc as (C1 & HC1 & Hc). apply bind_Done in Hc as (C2 & HC2 & Hc).
    injection Hf as <-. injection Hc as <-.
    destruct (IH _ _ _ HF1 HC1) as [Hl1 Hv1]. destruct (IH _ _ _ HF2 HC2) as [Hl2 Hv2].
    split; [rewrite !length_app; lia|].
    intros v. rewrite !cornersOf_app.
    intros [H | H]; [left; apply Hv1 | right; apply Hv2]; exact H.
  - injection Hc as <-. split.
    + destruct Lf; [congruence | cbn [length]; lia].
    + intros v Hv. unfold cornersOf in Hv. cbn [flat_map] in Hv. rewrite app_nil_r in Hv.
      apply elem_cornersOf. exact (Hkept v Hv).
Qed.
End Refinement2.

(** X18: a smaller threshold and a smaller length constraint refine the
    mesh together: with [e1 <= e2] and [1 <= l1 <= l2], the mesh for
    [(e1, l1)] has at least as many triangles as the mesh for [(e2, l2)]
    and holds every vertex of it. *)
Theorem length_monotone (g : Z) (m : Martini) (heights : list Q) (tile : Tile)
  (e1 e2 l1 l2 : Q) :
  g - 1 < 2 ^ 16 -> Martini_new g = Done m -> createTile m heights = Done tile ->
  (e1 <= e2)%Q -> (1 <= l1)%Q -> (l1 <= l2)%Q ->
  exists (fuel0 : nat) (fine coarse : Mesh),
    (forall fuel, (fuel0 <= fuel)%nat ->
       getMesh fuel tile e1 (Some l1) = Done fine /\
       getMesh fuel tile e2 (Some l2) = Done coarse) /\
    (length (triangles coarse) <= length (triangles fine))%nat /\
    forall v, meshVertex coarse v -> meshVertex fine v.
Proof.
  intros Hg Hnew Htile He Hl1 Hl.
  assert (1 <= l2)%Q as Hl2 by (eapply Qle_trans; eassumption).
  destruct (valid_tile g m heights tile Hg Hnew Htile)
    as (n & Hn & -> & Hgrid & Hm & Hlen & _).
  subst m.
  destruct (mesh_run n tile e1 (Some l1) Hn Hgrid Hlen (or_intror Hl1))
    as (F1 & F2 & HF1 & HF2 & _ & _ & _ & _ & HrunF).
  destruct (mesh_run n tile e2 (Some l2) Hn Hgrid Hlen (or_intror Hl2))
    as (C1 & C2 & HC1 & HC2 & _ & _ & _ & _ & HrunC).
  rewrite maxScaleOf_Some in HF1, HF2, HC1, HC2 by assumption.
  destruct (leaves_refine2 _ _ e1 e2 He l1 l2 Hl _ _ _ _ HF1 HC1) as [Hn1 Hv1].
  destruct (leaves_refine2 _ _ e1 e2 He l1 l2 Hl _ _ _ _ HF2 HC2) as [Hn2 Hv2].
  exists (S (2 * n)), (meshOf (F1 ++ F2)), (meshOf (C1 ++ C2)).
  split; [intros fuel Hfuel; split; [apply HrunF | apply HrunC]; lia|].
  split.
  - unfold meshOf. cbn [triangles]. rewrite !trisOf_length, !length_app. lia.
  - intros v. rewrite !meshVertex_meshOf, !cornersOf_app.
    intros [H | H]; [left; apply Hv1 | right; apply Hv2]; exact H.
Qed.

Lemma length_monotone_witness :
  5 - 1 < 2 ^ 16 /\ Martini_new 5 = Done peakGrid /\
  createTile peakGrid peakTerrain = Done peakTile /\
  (1 <= 100)%Q /\ (1 <= 1)%Q /\ (1 <= 2)%Q /\
  exists (fuel0 : nat) (fine coarse : Mesh),
    (forall fuel, (fuel0 <= fuel)%nat ->
       getMesh fuel peakTile 1 (Some 1%Q) = Done fine /\
       getMesh fuel peakTile 100 (Some 2%Q) = Done coarse) /\
    (length (triangles coarse) <= length (triangles fine))%nat /\
    forall v, meshVertex coarse v -> meshVertex fine v.
Proof.
  split; [lia|]. split; [vm_compute; reflexivity|]. split; [vm_compute; reflexivity|].
  split; [discriminate|]. split; [discriminate|]. split; [discriminate|].
  apply (length_monotone 5 peakGrid peakTerrain peakTile 1%Q 100%Q 1%Q 2%Q);
    [lia | vm_compute; reflexivity | vm_compute; reflexivity
    | discriminate | discriminate | discriminate].
Defined.

(** ** A length constraint below 1 *)

Section ShortScale.
Variable T : Z.
Hypothesis T_fits : 0 <= T <= 2 ^ 15.
Variable errors : list Q.
Hypothesis errors_size : Z.of_nat (length errors) = (T + 1) * (T + 1).
Variable maxError maxScale : Q.
Hypothesis scale_short : (maxScale < 1)%Q.

#[local] Abbreviation count := (countElements (T + 1) errors maxError maxScale).

Lemma drillDown_total t :
  inTile T t -> exists b, drillDown (T + 1) errors maxError maxScale t = Done b.
Proof.
  intros Hin. pose proof (mid_inGrid T T_fits t Hin) as Hmid.
  pose proof (pixel_range T _ ltac:(lia) Hmid) as Hp.
  destruct (get_in_range errors (pixel (T + 1) (mid t)) ltac:(lia)) as [e He].
  destruct t as [ax ay bx by_ cx cy]. unfold drillDown. cbn zeta.
  unfold pixel, mid in He. cbn [fst snd] in He.
  destruct (1 <? Z.abs (ax - cx) + Z.abs (ay - cy)); cbn [bind];
    [rewrite He; cbn [bind]|]; eauto.
Qed.

Lemma drillDown_short t :
  inTile T t -> 1 <= legLength t ->
  drillDown (T + 1) errors maxError maxScale t = Done true.
Proof.
  intros Hin Hleg. destruct (drillDown_total t Hin) as [b Hb]. rewrite Hb. f_equal.
  destruct t as [ax ay bx by_ cx cy]. unfold drillDown, legLength in *.
  apply bind_Done in Hb as (r & _ & Hb). injection Hb as <-.
  assert (Qgtb (inject_Z (Z.abs (ax - cx) + Z.abs (ay - cy))) maxScale = true) as ->.
  { apply Qgtb_true. eapply Qlt_le_trans; [exact scale_short|].
    change 1%Q with (inject_Z 1). rewrite <- Zle_Qle. exact Hleg. }
  apply orb_true_r.
Qed.

(** pass 1 on a triangle in the tile stops only for lack of fuel *)
Lemma countElements_safe fuel : forall t st,
  inTile T t -> Z.of_nat (length (cnt_indices st)) = (T + 1) * (T + 1) ->
  count fuel t st = Fail OutOfFuel \/
  exists st', count fuel t st = Done st' /\
              length (cnt_indices st') = length (cnt_indices st).
Proof.
  induction fuel as [|fuel IH]; intros t st Hin Hlen; [left; reflexivity|].
  rewrite countElements_S. destruct (drillDown_total t Hin) as [b ->]. cbn [bind].
  destruct b; [|right; apply (countLeaf_total T t st); [lia | assumption..]].
  destruct (halves_inTile T T_fits t Hin) as [Hi1 Hi2].
  destruct (IH (firstHalf t) st Hi1 Hlen) as [-> | (st1 & -> & H1)]; [left; reflexivity|].
  cbn [bind].
  destruct (IH (secondHalf t) st1 Hi2 ltac:(lia)) as [-> | (st2 & -> & H2)];
    [left; reflexivity|].
  right. exists st2. split; [reflexivity | lia].
Qed.

(** a unit triangle that lies as the first root triangle does comes back
    as the first half of its second half *)
Lemma unit_cycle x y (fuel : nat) : forall st,
  0 <= x -> x + 1 <= T -> 0 <= y -> y + 1 <= T ->
  Z.of_nat (length (cnt_indices st)) = (T + 1) * (T + 1) ->
  count fuel (Tri x y (x + 1) (y + 1) (x + 1) y) st = Fail OutOfFuel.
Proof.
  induction fuel as [fuel IH] using lt_wf_ind. intros st Hx0 Hx1 Hy0 Hy1 Hlen.
  destruct fuel as [|fuel]; [reflexivity|].
  set (u := Tri x y (x + 1) (y + 1) (x + 1) y).
  assert (inTile T u) as Hin by (cbn [u inTile]; lia).
  rewrite countElements_S, (drillDown_short u Hin) by (cbn [u legLength]; lia).
  cbn [bind]. destruct (halves_inTile T T_fits u Hin) as [Hi1 Hi2].
  destruct (countElements_safe fuel (firstHalf u) st Hi1 Hlen) as [-> | (st1 & -> & H1)];
    [reflexivity|].
  cbn [bind]. destruct fuel as [|fuel]; [reflexivity|].
  assert (secondHalf u = Tri (x + 1) (y + 1) (x + 1) y x y) as Hsec.
  { cbn [u secondHalf]. rewrite !sar_1_small by lia. f_equal; Z.div_mod_to_equations; lia. }
  rewrite countElements_S, (drillDown_short _ Hi2)
    by (rewrite Hsec; cbn [legLength]; lia).
  cbn [bind].
  assert (firstHalf (secondHalf u) = u) as ->.
  { rewrite Hsec. cbn [u firstHalf]. rewrite !sar_1_small by lia.
    f_equal; Z.div_mod_to_equations; lia. }
  pose proof (IH fuel ltac:(lia) st1 Hx0 Hx1 Hy0 Hy1 ltac:(lia)) as Hc.
  fold u in Hc. rewrite Hc. reflexivity.
Qed.

(** every triangle that lies as the first root triangle does, with legs
    of length [2^e], leads to such a unit triangle *)
Lemma short_diverges (e : nat) : forall fuel t st,
  inTile T t -> legsAt (2 ^ Z.of_nat e) West t ->
  Z.of_nat (length (cnt_indices st)) = (T + 1) * (T + 1) ->
  count fuel t st = Fail OutOfFuel.
Proof.
  induction e as [|e IH]; intros fuel t st Hin Hl Hlen.
  - destruct t as [ax ay bx by_ cx cy].
    destruct Hl as (_ & Hax & Hay & Hbx & Hby). change (2 ^ Z.of_nat 0) with 1 in *.
    cbn [dx dy turn inTile] in *.
    replace ax with (cx - 1) by lia. replace ay with cy by lia.
    replace bx with (cx - 1 + 1) by lia. replace by_ with (cy + 1) by lia.
    replace cx with (cx - 1 + 1) at 3 by lia.
    apply unit_cycle; lia.
  - rewrite pow2_S in Hl. pose proof (pow2_pos e) as Hp.
    destruct (quarters T T_fits (2 ^ Z.of_nat e) West t Hp Hin Hl) as (_ & Hq & _).
    destruct (halves_inTile T T_fits t Hin) as [Hi1 _].
    destruct (halves_inTile T T_fits _ Hi1) as [Hi11 Hi12].
    destruct fuel as [|fuel]; [reflexivity|].
    assert (1 <= legLength t /\ 1 <= legLength (firstHalf t)) as [Hg1 Hg2].
    { destruct t as [ax ay bx by_ cx cy].
      destruct Hl as (_ & Hax & Hay & Hbx & Hby).
      cbn [dx dy turn inTile firstHalf legLength] in *.
      rewrite !sar_1_small by lia. split; Z.div_mod_to_equations; lia. }
    rewrite countElements_S, (drillDown_short t Hin Hg1). cbn [bind].
    destruct fuel as [|fuel]; [reflexivity|].
    rewrite countElements_S, (drillDown_short _ Hi1 Hg2). cbn [bind].
    destruct (countElements_safe fuel (firstHalf (firstHalf t)) st Hi11 Hlen)
      as [-> | (st1 & -> & H1)]; [reflexivity|].
    cbn [bind]. rewrite (IH fuel _ st1 Hi12 Hq ltac:(lia)). reflexivity.
Qed.
End ShortScale.

(** X19: a length constraint that is not zero and is below 1 keeps [getMesh]
    from returning: every unit triangle has [legLength] 1, which is above
    the constraint, so the recursion never reaches a leaf. *)
Theorem short_length_never_returns (g : Z) (m : Martini) (heights : list Q)
  (tile : Tile) (maxError l : Q) :
  g - 1 < 2 ^ 16 -> Martini_new g = Done m -> createTile m heights = Done tile ->
  (l < 1)%Q -> ~ (l == 0)%Q ->
  forall fuel, getMesh fuel tile maxError (Some l) = Fail OutOfFuel.
Proof.
  intros Hg Hnew Htile Hl Hnz fuel.
  destruct (valid_tile g m heights tile Hg Hnew Htile)
    as (n & Hn & -> & Hgrid & Hm & Hlen & _).
  pose proof (T_bounds n Hn _ eq_refl) as HT. subst m.
  unfold getMesh, getMeshRun. cbn zeta. destruct Hgrid as (Hsize & _ & _ & Hind & _).
  rewrite Hsize. cbn [maxScaleOf].
  destruct (Qeq_bool l 0) eqn:E; [apply Qeq_bool_iff in E; contradiction|].
  replace (2 ^ Z.of_nat n + 1 - 1) with (2 ^ Z.of_nat n) by lia.
  rewrite (short_diverges (2 ^ Z.of_nat n) ltac:(lia) (errors tile) Hlen maxError l Hl n).
  - reflexivity.
  - cbn [inTile]. lia.
  - cbn [legsAt dx dy turn]. split; [exists 1, 0; lia | lia].
  - cbn [cnt_indices]. rewrite length_replicate. exact Hind.
Qed.

Lemma short_length_never_returns_witness :
  5 - 1 < 2 ^ 16 /\ Martini_new 5 = Done peakGrid /\
  createTile peakGrid peakTerrain = Done peakTile /\
  ((1 # 2) < 1)%Q /\ ~ ((1 # 2) == 0)%Q /\
  forall fuel, getMesh fuel peakTile 1 (Some (1 # 2)%Q) = Fail OutOfFuel.
Proof.
  split; [lia|]. split; [vm_compute; reflexivity|]. split; [vm_compute; reflexivity|].
  split; [reflexivity|]. split; [discriminate|].
  apply (short_length_never_returns 5 peakGrid peakTerrain peakTile 1%Q (1 # 2)%Q);
    [lia | vm_compute; reflexivity | vm_compute; reflexivity | reflexivity | discriminate].
Defined.

(** ** The middles of the long edges *)

Lemma inside_mid (n : nat) (Hn : (n <= 15)%nat) (k : nat) : forall t p,
  tableTri n (S k) t -> within t p -> p ∉ corners t ->
  exists k' u, tableTri n (S k') u /\ mid u = p.
Proof.
  pose proof (T_bounds n Hn _ eq_refl) as HT.
  induction k as [|k IH]; intros t p Htt Hw Hnc;
    destruct (tableTri_shape n _ t Hn Htt) as (Hin & Hsh & Hk);
    (destruct (decide (p = mid t)) as [-> | Hne]; [eauto|]).
  - exfalso.
    destruct (shape_halves (2 ^ Z.of_nat n) ltac:(lia) _ t Hin Hsh) as [Hs1 Hs2].
    destruct (within_halves (2 ^ Z.of_nat n) ltac:(lia) _ t p Hin Hsh Hw) as [Hh | Hh].
    + pose proof (within_unit _ _ Hs1 Hh) as Hc.
      destruct (within_corner t p (or_introl Hc)); contradiction.
    + pose proof (within_unit _ _ Hs2 Hh) as Hc.
      destruct (within_corner t p (or_intror Hc)); contradiction.
  - destruct (tableTri_halves n k t Hn Htt) as [Ht1 Ht2].
    destruct (within_halves (2 ^ Z.of_nat n) ltac:(lia) _ t p Hin Hsh Hw) as [Hh | Hh].
    + apply (IH (firstHalf t) p Ht1 Hh).
      intros Hc. destruct (within_corner t p (or_introl Hc)); contradiction.
    + apply (IH (secondHalf t) p Ht2 Hh).
      intros Hc. destruct (within_corner t p (or_intror Hc)); contradiction.
Qed.

(** X20: the middles of the long edges of the triangles of the table are
    exactly the pixels of the grid other than the four corners of the
    tile; these are the pixels for which [update] computes an error. *)
Theorem table_midpoints (g : Z) (m : Martini) (p : point) :
  g - 1 < 2 ^ 16 -> Martini_new g = Done m ->
  (inGrid (g - 1) p /\ ~ isCorner (g - 1) p) <->
  (exists i t, 0 <= i < numTriangles m /\
               readTriangle (coords m) i = Done t /\ mid t = p).
Proof.
  intros Hg Hnew.
  destruct (Martini_new_inv g m Hg Hnew) as (n & Hn & -> & Hgrid).
  pose proof (T_bounds n Hn _ eq_refl) as HT.
  pose proof Hgrid as (_ & HN & _).
  replace (2 ^ Z.of_nat n + 1 - 1) with (2 ^ Z.of_nat n) by lia.
  set (T := 2 ^ Z.of_nat n) in *.
  split.
  - intros [Hp Hnc].
    assert (1 <= n)%nat as Hn1.
    { destruct n as [|n]; [|lia]. exfalso. apply Hnc.
      destruct p as [x y]. unfold inGrid, isCorner in *. cbn [fst snd] in *.
      change (2 ^ Z.of_nat 0) with 1 in *. lia. }
    destruct (tableTri_roots n ltac:(lia)) as [Hr1 Hr2]. fold T in Hr1, Hr2.
    replace (2 * n)%nat with (S (2 * n - 1)) in Hr1, Hr2 by lia.
    assert (forall t, t = Tri 0 0 T T T 0 \/ t = Tri T T 0 0 0 T -> p ∉ corners t) as Hcor.
    { intros t Ht Hc. apply Hnc. destruct p as [x y]. unfold isCorner. cbn [fst snd].
      destruct Ht as [-> | ->]; cbn [corners] in Hc;
        rewrite !elem_of_cons, elem_of_nil in Hc;
        destruct Hc as [Hc | [Hc | [Hc | []]]]; injection Hc; lia. }
    destruct (within_roots T ltac:(lia) p Hp) as [Hw | Hw].
    + destruct (inside_mid n Hn _ _ p Hr1 Hw (Hcor _ (or_introl eq_refl)))
        as (k' & u & (i & Hi & Hu & _) & Hmid).
      exists i, u. rewrite HN. split; [exact Hi|]. split; [|exact Hmid].
      rewrite <- Hu. apply (readTriangle_table n Hn m Hgrid). rewrite HN. exact Hi.
    + destruct (inside_mid n Hn _ _ p Hr2 Hw (Hcor _ (or_intror eq_refl)))
        as (k' & u & (i & Hi & Hu & _) & Hmid).
      exists i, u. rewrite HN. split; [exact Hi|]. split; [|exact Hmid].
      rewrite <- Hu. apply (readTriangle_table n Hn m Hgrid). rewrite HN. exact Hi.
  - intros (i & t & Hi & Hread & <-).
    rewrite (readTriangle_table n Hn m Hgrid i Hi) in Hread. injection Hread as <-.
    destruct (middle_class n Hn m Hgrid [] i Hi) as [Hcl Hin].
    split; [exact Hin|]. intros [Hx Hy].
    pose proof (rankOf_bounds n Hn T eq_refl i ltac:(lia)) as Hr.
    destruct (mid (triangleOf (2 ^ Z.of_nat n) i)) as [x y]. cbn [fst snd] in Hx, Hy.
    exact (midClass_not_corner n _ x y Hcl ltac:(lia) Hx Hy).
Qed.

Lemma table_midpoints_witness :
  5 - 1 < 2 ^ 16 /\ Martini_new 5 = Done peakGrid /\
  ((inGrid (5 - 1) (2, 2) /\ ~ isCorner (5 - 1) (2, 2)) <->
   (exists i t, 0 <= i < numTriangles peakGrid /\
                readTriangle (coords peakGrid) i = Done t /\ mid t = (2, 2))).
Proof.
  split; [lia|]. split; [vm_compute; reflexivity|].
  apply (table_midpoints 5 peakGrid (2, 2)); [lia | vm_compute; reflexivity].
Defined.

(** ** Sizes in the table and the centre of the tile *)

(** X21: the table is sorted by size.  The area of the triangles never grows
    along the table, so the loop of [update], which runs from the last
    position to the first, meets the smallest triangles first; the parent
    positions hold the triangles of area 2 and more, the other positions
    the triangles of area 1. *)
Theorem table_sorted_by_area (g : Z) (m : Martini) (i j : Z) :
  g - 1 < 2 ^ 16 -> Martini_new g = Done m ->
  0 <= i -> i <= j -> j < numTriangles m ->
  exists ti tj : tri,
    readTriangle (coords m) i = Done ti /\ readTriangle (coords m) j = Done tj /\
    signedArea2 ti <= signedArea2 tj <= - 2 /\
    (i < numParentTriangles m -> signedArea2 ti <= - 4) /\
    (numParentTriangles m <= j -> signedArea2 tj = - 2).
Proof.
  intros Hg Hnew Hi Hij Hj.
  destruct (Martini_new_inv g m Hg Hnew) as (n & Hn & -> & Hgrid).
  pose proof (T_bounds n Hn _ eq_refl) as HT.
  pose proof Hgrid as (_ & HN & HP & _).
  set (T := 2 ^ Z.of_nat n) in *.
  exists (triangleOf T i), (triangleOf T j).
  rewrite !(readTriangle_table n Hn m Hgrid) by lia. fold T.
  split; [reflexivity|]. split; [reflexivity|].
  destruct (triangleOf_shape n Hn T eq_refl i ltac:(lia)) as [_ Hsi].
  destruct (triangleOf_shape n Hn T eq_refl j ltac:(lia)) as [_ Hsj].
  rewrite (shape_area _ _ Hsi), (shape_area _ _ Hsj).
  pose proof (rankOf_mono n Hn j i ltac:(lia)) as Hmono.
  pose proof (rankOf_bounds n Hn T eq_refl j ltac:(lia)) as Hrj.
  pose proof (pow2_le _ _ Hmono) as Hle.
  pose proof (pow2_le 1 (rankOf n j) ltac:(lia)) as Hlj.
  change (2 ^ Z.of_nat 1) with 2 in Hlj.
  split; [lia|]. split.
  - intros Hpar.
    pose proof (rankOf_parent n Hn T eq_refl i ltac:(lia) ltac:(lia)) as Hri.
    pose proof (pow2_le 2 (rankOf n i) Hri) as Hl2.
    change (2 ^ Z.of_nat 2) with 4 in Hl2. lia.
  - intros Hleaf. assert (rankOf n j = 1%nat) as ->; [|reflexivity].
    unfold rankOf. rewrite (log2_between (2 * n) (j + 2)); [lia|].
    rewrite <- square_pow2. fold T. lia.
Qed.

Lemma table_sorted_by_area_witness :
  5 - 1 < 2 ^ 16 /\ Martini_new 5 = Done peakGrid /\
  0 <= 3 /\ 3 <= 20 /\ 20 < numTriangles peakGrid /\
  exists ti tj : tri,
    readTriangle (coords peakGrid) 3 = Done ti /\
    readTriangle (coords peakGrid) 20 = Done tj /\
    signedArea2 ti <= signedArea2 tj <= - 2 /\
    (3 < numParentTriangles peakGrid -> signedArea2 ti <= - 4) /\
    (numParentTriangles peakGrid <= 20 -> signedArea2 tj = - 2).
Proof.
  split; [lia|]. split; [vm_compute; reflexivity|]. split; [lia|]. split; [lia|].
  split; [vm_compute; reflexivity|].
  apply (table_sorted_by_area 5 peakGrid 3 20);
    [lia | vm_compute; reflexivity | lia | lia | vm_compute; reflexivity].
Defined.

Lemma tile_corner_zero (n : nat) m heights tile p :
  (n <= 15)%nat -> gridOf n m -> createTile m heights = Done tile ->
  isCorner (2 ^ Z.of_nat n) p ->
  get (errors tile) (pixel (2 ^ Z.of_nat n + 1) p) = Done 0%Q.
Proof.
  intros Hn Hgrid Htile [Hx Hy]. destruct p as [x y]. cbn [fst snd] in Hx, Hy.
  destruct (createTile_inv m heights tile Htile) as (Hlen & _ & Hupd).
  pose proof Hgrid as (Hsize & HN & HP & _).
  pose proof (T_bounds n Hn _ eq_refl) as HT.
  destruct (update_corners n Hn m Hgrid heights Hlen
              (replicate (length heights) 0%Q) x y) as (E & HE & Hsame).
  { rewrite length_replicate, Hlen, Hsize. reflexivity. }
  { lia. } { lia. }
  rewrite HE in Hupd. injection Hupd as <-. rewrite Hsame.
  assert (inGrid (2 ^ Z.of_nat n) (x, y)) as Hxy by (unfold inGrid; cbn [fst snd]; lia).
  pose proof (pixel_range (2 ^ Z.of_nat n) _ ltac:(lia) Hxy) as Hp.
  apply get_Done. split; [lia|]. apply lookup_replicate. split; [reflexivity|].
  rewrite Hsize in Hlen. lia.
Qed.

Lemma centre_is_mid (n : nat) :
  (1 <= n <= 15)%nat ->
  let T := 2 ^ Z.of_nat n in
  mid (Tri 0 0 T T T 0) = (T / 2, T / 2) /\ mid (Tri T T 0 0 0 T) = (T / 2, T / 2).
Proof.
  intros Hn. cbn zeta. pose proof (T_bounds n ltac:(lia) _ eq_refl) as HT.
  cbn [mid]. rewrite !sar_1_small by lia. rewrite Z.add_0_l, Z.add_0_r. auto.
Qed.

Lemma centre_dominates (n : nat) m heights tile :
  (1 <= n <= 15)%nat -> gridOf n m -> createTile m heights = Done tile ->
  let T := 2 ^ Z.of_nat n in
  exists ec : Q,
    get (errors tile) (pixel (T + 1) (T / 2, T / 2)) = Done ec /\
    forall q e, inGrid T q -> get (errors tile) (pixel (T + 1) q) = Done e -> (e <= ec)%Q.
Proof.
  intros Hn Hgrid Htile. cbn zeta.
  assert (n <= 15)%nat as Hn' by lia.
  pose proof (T_bounds n Hn' _ eq_refl) as HT.
  destruct (tile_sweep n m heights tile Hn' Hgrid Htile) as (_ & Hlen & _).
  pose proof (tile_ordered n m heights tile Hn' Hgrid Htile) as Hord. cbn zeta in Hord.
  destruct (tableTri_roots n Hn) as [Hr1 Hr2].
  destruct (centre_is_mid n Hn) as [Hm1 Hm2].
  replace (2 * n)%nat with (S (2 * n - 1)) in Hr1, Hr2 by lia.
  destruct (tableTri_shape n _ _ Hn' Hr1) as (Hi1 & _).
  pose proof (mid_inGrid (2 ^ Z.of_nat n) ltac:(lia) _ Hi1) as Hmid. rewrite Hm1 in Hmid.
  destruct (error_at n Hn' (errors tile) Hlen _ Hmid) as [ec Hec].
  exists ec. split; [exact Hec|].
  assert (0 <= ec)%Q as Hpos.
  { destruct (tile_sweep n m heights tile Hn' Hgrid Htile) as (_ & _ & _ & _ & Hatt).
    destruct (Hatt _ _ Hec) as [-> | (i & _ & Hme)]; [apply Qle_refl|].
    exact (middleErrorOf_nonneg _ _ _ _ Hme). }
  intros q e Hq He.
  destruct (decide (q ∈ corners (Tri 0 0 (2 ^ Z.of_nat n) (2 ^ Z.of_nat n) (2 ^ Z.of_nat n) 0) \/ q ∈ corners (Tri (2 ^ Z.of_nat n) (2 ^ Z.of_nat n) 0 0 0 (2 ^ Z.of_nat n))))
    as [Hc | Hnc].
  - assert (isCorner (2 ^ Z.of_nat n) q) as Hcor.
    { destruct q as [x y]. unfold isCorner. cbn [fst snd corners] in *.
      rewrite !elem_of_cons, !elem_of_nil in Hc.
      destruct Hc as [[Hc | [Hc | [Hc | []]]] | [Hc | [Hc | [Hc | []]]]];
        injection Hc; lia. }
    pose proof (tile_corner_zero n m heights tile q Hn' Hgrid Htile Hcor) as Hz.
    rewrite Hz in He. injection He as <-. exact Hpos.
  - destruct (within_roots (2 ^ Z.of_nat n) ltac:(lia) q Hq) as [Hw | Hw].
    + destruct (inside_bound n Hn' (errors tile) Hlen Hord _ _ q Hr1 Hw ltac:(tauto))
        as (ep & em & Hep & Hem & Hle & _).
      rewrite Hm1, Hec in Hem. injection Hem as <-.
      rewrite He in Hep. injection Hep as <-. exact Hle.
    + destruct (inside_bound n Hn' (errors tile) Hlen Hord _ _ q Hr2 Hw ltac:(tauto))
        as (ep & em & Hep & Hem & Hle & _).
      rewrite Hm2, Hec in Hem. injection Hem as <-.
      rewrite He in Hep. injection Hep as <-. exact Hle.
Qed.

(** X22: the largest error of a tile is the one at its centre pixel: no
    entry of the error field exceeds the entry at
    [(tileSize / 2, tileSize / 2)]. *)
Theorem centre_error_is_largest (g : Z) (m : Martini) (heights : list Q)
  (tile : Tile) :
  g - 1 < 2 ^ 16 -> Martini_new g = Done m -> createTile m heights = Done tile ->
  2 <= g - 1 ->
  let c := ((g - 1) / 2, (g - 1) / 2) in
  exists ec : Q,
    get (errors tile) (pixel g c) = Done ec /\
    forall p e, get (errors tile) p = Done e -> (e <= ec)%Q.
Proof.
  intros Hg Hnew Htile H2. cbn zeta.
  destruct (valid_tile g m heights tile Hg Hnew Htile)
    as (n & Hn & -> & Hgrid & Hm & Hlen & _).
  pose proof (T_bounds n Hn _ eq_refl) as HT.
  assert (1 <= n)%nat as Hn1.
  { destruct n as [|n]; [|lia]. change (2 ^ Z.of_nat 0) with 1 in H2. lia. }
  replace (2 ^ Z.of_nat n + 1 - 1) with (2 ^ Z.of_nat n) by lia.
  destruct (centre_dominates n m heights tile ltac:(lia) Hgrid Htile) as (ec & Hec & Hmax).
  set (T := 2 ^ Z.of_nat n) in *.
  exists ec. split; [exact Hec|].
  intros p e Hp. apply get_Done in Hp as Hr. destruct Hr as [Hp0 Hlk].
  apply lookup_lt_Some in Hlk.
  assert (p < (T + 1) * (T + 1)) as Hp1 by lia.
  apply (Hmax (p mod (T + 1), p / (T + 1))).
  - unfold inGrid. cbn [fst snd].
    pose proof (Z.mod_pos_bound p (T + 1) ltac:(lia)).
    assert (0 <= p / (T + 1)) by (apply Z.div_pos; lia).
    assert (p / (T + 1) < T + 1) by (apply Z.div_lt_upper_bound; lia).
    lia.
  - unfold pixel. cbn [fst snd].
    replace (p / (T + 1) * (T + 1) + p mod (T + 1)) with p
      by (rewrite (Z.div_mod p (T + 1)) at 1 by lia; lia).
    exact Hp.
Qed.

Lemma centre_error_is_largest_witness :
  5 - 1 < 2 ^ 16 /\ Martini_new 5 = Done peakGrid /\
  createTile peakGrid peakTerrain = Done peakTile /\
  2 <= 5 - 1 /\
  (let c := ((5 - 1) / 2, (5 - 1) / 2) in
   exists ec : Q,
     get (errors peakTile) (pixel 5 c) = Done ec /\
     forall p e, get (errors peakTile) p = Done e -> (e <= ec)%Q).
Proof.
  split; [lia|]. split; [vm_compute; reflexivity|]. split; [vm_compute; reflexivity|].
  split; [lia|].
  apply (centre_error_is_largest 5 peakGrid peakTerrain peakTile);
    [lia | vm_compute; reflexivity | vm_compute; reflexivity | lia].
Defined.

(** X23: the coarsest mesh.  Without a length constraint, [getMesh] returns
    the two root triangles on the four corners of the tile exactly when the
    error at the centre pixel is at most [maxError]; above that the mesh
    has at least four triangles. *)
Theorem two_triangles_iff (g : Z) (m : Martini) (heights : list Q) (tile : Tile)
  (maxError : Q) :
  g - 1 < 2 ^ 16 -> Martini_new g = Done m -> createTile m heights = Done tile ->
  2 <= g - 1 ->
  let T := g - 1 in
  exists (ec : Q) (fuel0 : nat) (mesh : Mesh),
    get (errors tile) (pixel g (T / 2, T / 2)) = Done ec /\
    (forall fuel, (fuel0 <= fuel)%nat ->
       getMesh fuel tile maxError None = Done mesh) /\
    ((ec <= maxError)%Q ->
     mesh = mkMesh [0; 0; T; T; T; 0; 0; T] [0; 1; 2; 1; 0; 3]) /\
    ((maxError < ec)%Q -> 3 * 4 <= Z.of_nat (length (triangles mesh))).
Proof.
  intros Hg Hnew Htile H2. cbn zeta.
  destruct (valid_tile g m heights tile Hg Hnew Htile)
    as (n & Hn & -> & Hgrid & Hm & Hlen & _).
  pose proof (T_bounds n Hn _ eq_refl) as HT.
  assert (1 <= n)%nat as Hn1.
  { destruct n as [|n]; [|lia]. change (2 ^ Z.of_nat 0) with 1 in H2. lia. }
  replace (2 ^ Z.of_nat n + 1 - 1) with (2 ^ Z.of_nat n) by lia. subst m.
  destruct (mesh_run n tile maxError None Hn Hgrid Hlen I)
    as (L1 & L2 & H1 & H2' & HF & Hnd & Hall & _ & Hrun).
  destruct (root_shapes n) as [Hs1 Hs2].
  destruct (root_inTile (2 ^ Z.of_nat n) ltac:(lia)) as [Hi1 Hi2].
  destruct (centre_is_mid n ltac:(lia)) as [Hm1 Hm2].
  destruct (drillDown_shape (2 ^ Z.of_nat n) ltac:(lia) (errors tile) Hlen maxError
              (maxScaleOf None (2 ^ Z.of_nat n + 1)) _ _ Hi1 Hs1) as (ec & Hec & Hd1).
  destruct (drillDown_shape (2 ^ Z.of_nat n) ltac:(lia) (errors tile) Hlen maxError
              (maxScaleOf None (2 ^ Z.of_nat n + 1)) _ _ Hi2 Hs2) as (ec' & Hec' & Hd2).
  rewrite Hm1 in Hec. rewrite Hm2, Hec in Hec'. injection Hec' as <-.
  assert (Qgtb (inject_Z (legOf (2 * n))) (maxScaleOf None (2 ^ Z.of_nat n + 1)) = false)
    as Hlong.
  { rewrite legOf_even. cbn [maxScaleOf]. apply Qgtb_false. rewrite <- Zle_Qle. lia. }
  assert ((1 <? legOf (2 * n)) = true) as Hleg.
  { rewrite legOf_even. apply Z.ltb_lt.
    pose proof (pow2_le 1 n Hn1) as Hle. change (2 ^ Z.of_nat 1) with 2 in Hle. lia. }
  rewrite Hlong, Hleg, orb_false_r in Hd1, Hd2. cbn [andb] in Hd1, Hd2.
  exists ec, (S (2 * n)), (meshOf (L1 ++ L2)).
  split; [exact Hec|]. split; [intros fuel Hfuel; apply Hrun; lia|]. split.
  - intros Hle. apply Qgtb_false in Hle. rewrite Hle in Hd1, Hd2.
    cbn [leaves] in H1, H2'. rewrite Hd1 in H1. rewrite Hd2 in H2'. cbn [bind] in H1, H2'.
    injection H1 as <-. injection H2' as <-. cbn [app].
    apply root_mesh. lia.
  - intros Hgt. apply Qgtb_true in Hgt. rewrite Hgt in Hd1, Hd2.
    destruct (leaves_split _ _ _ _ _ _ _ Hd1 H1) as (A1 & B1 & HA1 & HB1 & ->).
    destruct (leaves_split _ _ _ _ _ _ _ Hd2 H2') as (A2 & B2 & HA2 & HB2 & ->).
    destruct (corners_kept _ _ _ _ _ _ _ HA1) as [N1 _].
    destruct (corners_kept _ _ _ _ _ _ _ HB1) as [N2 _].
    destruct (corners_kept _ _ _ _ _ _ _ HA2) as [N3 _].
    destruct (corners_kept _ _ _ _ _ _ _ HB2) as [N4 _].
    unfold meshOf. cbn [triangles]. rewrite trisOf_length, !length_app.
    destruct A1; [contradiction|]. destruct B1; [contradiction|].
    destruct A2; [contradiction|]. destruct B2; [contradiction|].
    cbn [length]. lia.
Qed.

Lemma two_triangles_iff_witness :
  5 - 1 < 2 ^ 16 /\ Martini_new 5 = Done peakGrid /\
  createTile peakGrid peakTerrain = Done peakTile /\
  2 <= 5 - 1 /\
  (let T := 5 - 1 in
   exists (ec : Q) (fuel0 : nat) (mesh : Mesh),
     get (errors peakTile) (pixel 5 (T / 2, T / 2)) = Done ec /\
     (forall fuel, (fuel0 <= fuel)%nat ->
        getMesh fuel peakTile 3 None = Done mesh) /\
     ((ec <= 3)%Q ->
      mesh = mkMesh [0; 0; T; T; T; 0; 0; T] [0; 1; 2; 1; 0; 3]) /\
     ((3 < ec)%Q -> 3 * 4 <= Z.of_nat (length (triangles mesh)))).
Proof.
  split; [lia|]. split; [vm_compute; reflexivity|]. split; [vm_compute; reflexivity|].
  split; [lia|].
  apply (two_triangles_iff 5 peakGrid peakTerrain peakTile 3%Q);
    [lia | vm_compute; reflexivity | vm_compute; reflexivity | lia].
Defined.

(** ** Every pixel lies in a triangle of the mesh *)

Section Contain.
Variable T : Z.
Hypothesis T_fits : 0 <= T <= 2 ^ 15.
Variable errors : list Q.
Hypothesis errors_size : Z.of_nat (length errors) = (T + 1) * (T + 1).
Variable maxError maxScale : Q.
Hypothesis scale_ge_1 : (1 <= maxScale)%Q.

Lemma leaves_contain p fuel : forall k t L,
  inTile T t -> shape k t ->
  leaves (T + 1) errors maxError maxScale fuel t = Done L ->
  within t p -> exists u, u ∈ L /\ within u p.
Proof.
  induction fuel as [|fuel IH]; intros k t L Hin Hsh Hrun Hw; [discriminate|].
  destruct (drillDown_shape T T_fits errors errors_size maxError maxScale _ t Hin Hsh)
    as (em & Hem & Hdown).
  cbn [leaves] in Hrun. rewrite Hdown in Hrun. cbn [bind] in Hrun.
  destruct ((1 <? legOf k) && Qgtb em maxError || Qgtb (inject_Z (legOf k)) maxScale)
    eqn:Hd.
  - destruct k as [|k].
    { exfalso. rewrite legOf_0 in Hd. cbn [Z.ltb Z.compare andb orb] in Hd.
      apply Qgtb_true in Hd. apply (Qlt_not_le _ _ Hd). exact scale_ge_1. }
    destruct (shape_halves T T_fits _ t Hin Hsh) as [Hs1 Hs2].
    destruct (halves_inTile T T_fits t Hin) as [Hi1 Hi2].
    apply bind_Done in Hrun as (A & HA & Hrun). apply bind_Done in Hrun as (B & HB & Hrun).
    injection Hrun as <-.
    destruct (within_halves T T_fits _ t p Hin Hsh Hw) as [Hh | Hh].
    + destruct (IH _ _ _ Hi1 Hs1 HA Hh) as (u & Hu & Hwu).
      exists u. rewrite elem_of_app. auto.
    + destruct (IH _ _ _ Hi2 Hs2 HB Hh) as (u & Hu & Hwu).
      exists u. rewrite elem_of_app. auto.
  - injection Hrun as <-. exists t. split; [apply elem_of_cons; auto | exact Hw].
Qed.
End Contain.

(** X24: the mesh covers the grid: every pixel of the grid lies in a triangle
    of the returned mesh (border included). *)
Theorem mesh_covers_grid (g : Z) (m : Martini) (heights : list Q) (tile : Tile)
  (maxError : Q) (maxLength : option Q) :
  g - 1 < 2 ^ 16 -> Martini_new g = Done m -> createTile m heights = Done tile ->
  lengthBound maxLength ->
  exists (fuel0 : nat) (mesh : Mesh),
    (forall fuel, (fuel0 <= fuel)%nat ->
       getMesh fuel tile maxError maxLength = Done mesh) /\
    forall p, inGrid (g - 1) p -> exists t, t ∈ meshTriangles mesh /\ within t p.
Proof.
  intros Hg Hnew Htile Hbound.
  destruct (valid_tile g m heights tile Hg Hnew Htile)
    as (n & Hn & -> & Hgrid & Hm & Hlen & _).
  pose proof (T_bounds n Hn _ eq_refl) as HT. subst m.
  destruct (mesh_run n tile maxError maxLength Hn Hgrid Hlen Hbound)
    as (L1 & L2 & H1 & H2 & HF & Hnd & Hall & _ & Hrun).
  pose proof (maxScale_ge_1 maxLength (2 ^ Z.of_nat n + 1) Hbound ltac:(lia)) as Hscale.
  destruct (root_shapes n) as [Hs1 Hs2].
  destruct (root_inTile (2 ^ Z.of_nat n) ltac:(lia)) as [Hi1 Hi2].
  exists (S (2 * n)), (meshOf (L1 ++ L2)).
  split; [intros fuel Hfuel; apply Hrun; lia|].
  replace (2 ^ Z.of_nat n + 1 - 1) with (2 ^ Z.of_nat n) by lia.
  intros p Hp. rewrite meshTriangles_meshOf.
  destruct (within_roots (2 ^ Z.of_nat n) ltac:(lia) p Hp) as [Hw | Hw].
  - destruct (leaves_contain (2 ^ Z.of_nat n) ltac:(lia) (errors tile) Hlen maxError _
                Hscale p _ _ _ _ Hi1 Hs1 H1 Hw) as (u & Hu & Hwu).
    exists u. rewrite elem_of_app. auto.
  - destruct (leaves_contain (2 ^ Z.of_nat n) ltac:(lia) (errors tile) Hlen maxError _
                Hscale p _ _ _ _ Hi2 Hs2 H2 Hw) as (u & Hu & Hwu).
    exists u. rewrite elem_of_app. auto.
Qed.

Lemma mesh_covers_grid_witness :
  5 - 1 < 2 ^ 16 /\ Martini_new 5 = Done peakGrid /\
  createTile peakGrid peakTerrain = Done peakTile /\
  lengthBound None /\
  exists (fuel0 : nat) (mesh : Mesh),
    (forall fuel, (fuel0 <= fuel)%nat ->
       getMesh fuel peakTile 1 None = Done mesh) /\
    forall p, inGrid (5 - 1) p -> exists t, t ∈ meshTriangles mesh /\ within t p.
Proof.
  split; [lia|]. split; [vm_compute; reflexivity|]. split; [vm_compute; reflexivity|].
  split; [exact I|].
  apply (mesh_covers_grid 5 peakGrid peakTerrain peakTile 1%Q None);
    [lia | vm_compute; reflexivity | vm_compute; reflexivity | exact I].
Defined.

(** ** The depth of the recursion *)

Lemma countElements_deep (n : nat) errors maxError maxScale :
  (n <= 15)%nat ->
  Z.of_nat (length errors) = (2 ^ Z.of_nat n + 1) * (2 ^ Z.of_nat n + 1) ->
  roughEverywhere (2 ^ Z.of_nat n) errors maxError ->
  forall fuel k t st,
    (fuel <= k <= 2 * n)%nat -> inTile (2 ^ Z.of_nat n) t -> shape k t ->
    countElements (2 ^ Z.of_nat n + 1) errors maxError maxScale fuel t st =
    Fail OutOfFuel.
Proof.
  intros Hn Hlen Hrough. pose proof (T_bounds n Hn _ eq_refl) as HT.
  induction fuel as [|fuel IH]; intros k t st Hk Hin Hsh; [reflexivity|].
  destruct k as [|k]; [lia|].
  rewrite countElements_S.
  rewrite (drillDown_rough n Hn errors Hlen maxError maxScale Hrough k t
             ltac:(lia) Hin Hsh).
  cbn [bind].
  destruct (shape_halves (2 ^ Z.of_nat n) ltac:(lia) _ t Hin Hsh) as [Hs1 _].
  destruct (halves_inTile (2 ^ Z.of_nat n) ltac:(lia) t Hin) as [Hi1 _].
  rewrite (IH k _ st ltac:(lia) Hi1 Hs1). reflexivity.
Qed.

(** X25: the depth of the recursion.  The calls of [countElements] and
    [processTriangle] nest at most [2 * log2 (gridSize - 1) + 1] deep: with
    that much room [getMesh] returns; and a negative [maxError], which
    asks for the full mesh, needs all of it. *)
Theorem recursion_depth (g : Z) (m : Martini) (heights : list Q) (tile : Tile)
  (maxError : Q) (maxLength : option Q) :
  g - 1 < 2 ^ 16 -> Martini_new g = Done m -> createTile m heights = Done tile ->
  lengthBound maxLength ->
  let depth := S (2 * Z.to_nat (Z.log2 (g - 1))) in
  (forall fuel, (depth <= fuel)%nat ->
     exists mesh, getMesh fuel tile maxError maxLength = Done mesh) /\
  ((maxError < 0)%Q ->
   forall fuel, (fuel < depth)%nat ->
     getMesh fuel tile maxError maxLength = Fail OutOfFuel).
Proof.
  intros Hg Hnew Htile Hbound. cbn zeta.
  destruct (valid_tile g m heights tile Hg Hnew Htile)
    as (n & Hn & -> & Hgrid & Hm & Hlen & Hpos).
  pose proof (T_bounds n Hn _ eq_refl) as HT. subst m.
  replace (2 ^ Z.of_nat n + 1 - 1) with (2 ^ Z.of_nat n) by lia.
  rewrite Z.log2_pow2, Nat2Z.id by lia.
  destruct (mesh_run n tile maxError maxLength Hn Hgrid Hlen Hbound)
    as (L1 & L2 & _ & _ & _ & _ & _ & _ & Hrun).
  split; [intros fuel Hfuel; eexists; apply Hrun; lia|].
  intros Hneg fuel Hfuel.
  assert (roughEverywhere (2 ^ Z.of_nat n) (errors tile) maxError) as Hrough.
  { intros p Hp _. pose proof (pixel_range (2 ^ Z.of_nat n) p ltac:(lia) Hp) as Hpx.
    destruct (get_in_range (errors tile) (pixel (2 ^ Z.of_nat n + 1) p) ltac:(lia))
      as [e He].
    exists e. split; [exact He|]. eapply Qlt_le_trans; [exact Hneg|]. eauto. }
  destruct (root_shapes n) as [Hs1 _].
  destruct (root_inTile (2 ^ Z.of_nat n) ltac:(lia)) as [Hi1 _].
  unfold getMesh, getMeshRun. cbn zeta. destruct Hgrid as (-> & _).
  replace (2 ^ Z.of_nat n + 1 - 1) with (2 ^ Z.of_nat n) by lia.
  rewrite (countElements_deep n (errors tile) maxError _ Hn Hlen Hrough
             fuel (2 * n) _ _ ltac:(lia) Hi1 Hs1).
  reflexivity.
Qed.

Lemma recursion_depth_witness :
  5 - 1 < 2 ^ 16 /\ Martini_new 5 = Done peakGrid /\
  createTile peakGrid peakTerrain = Done peakTile /\
  lengthBound None /\
  (let depth := S (2 * Z.to_nat (Z.log2 (5 - 1))) in
   (forall fuel, (depth <= fuel)%nat ->
      exists mesh, getMesh fuel peakTile (-1) None = Done mesh) /\
   ((-1 < 0)%Q ->
    forall fuel, (fuel < depth)%nat ->
      getMesh fuel peakTile (-1) None = Fail OutOfFuel)).
Proof.
  split; [lia|]. split; [vm_compute; reflexivity|]. split; [vm_compute; reflexivity|].
  split; [exact I|].
  apply (recursion_depth 5 peakGrid peakTerrain peakTile (-1)%Q None);
    [lia | vm_compute; reflexivity | vm_compute; reflexivity | exact I].
Defined.

